(** * js-fea: geometry cell sets and fields

    A shallow embedding of [gcellset.js] (cell sets [L2] and [Q4] with their
    shape functions and Jacobians), of [field.js] (equation numbering,
    prescribed values, gather and scatter, binary operations), of
    [nodalload.js] and of the edge key of [mesh.js], with the properties of
    the specification, and further properties of the code, stated and
    proved over it.

    JavaScript numbers are IEEE binary64 values.  The arithmetic of the
    source is written once over a class [Num] of number operations; the
    instance [float_Num] (primitive binary64 floats) is what the program
    computes, the instance [R_Num] is the same code read in exact real
    arithmetic. *)

From Stdlib Require Import ZArith List Bool Lia Floats Reals Lra.
From stdpp Require Import base list gmap pretty.
Import ListNotations.

Set Default Proof Using "Type".

(** ** Failures

    Every failure of the source is a thrown [Error] (or an exception of the
    JavaScript runtime).  Each throw site is given the error kind the
    specification names for it. *)

Inductive error : Type :=
  | InvalidInputError          (* malformed option record, wrong vector shape *)
  | IndexOutOfRangeError       (* node index or direction outside its bounds *)
  | DimensionMismatchError     (* cell size / dimension / vector length disagree *)
  | UnsupportedDimensionError  (* Jacobian dimension a manifold does not support *)
  | NotImplementedError        (* abstract method, or a branch left unimplemented *)
  | InvalidTopologyError       (* connectivity rejected by the topology constructor *)
  | TypeError                  (* runtime: property read or write on undefined / null *)
  | ReferenceError.            (* runtime: use of an identifier that is not declared *)

Inductive result (A : Type) : Type :=
  | Ok (a : A)
  | Err (e : error).
Arguments Ok {A} a.
Arguments Err {A} e.

#[export] Instance result_ret : MRet result := fun A a => Ok a.
#[export] Instance result_bind : MBind result := fun A B k r =>
  match r with
  | Ok a => k a
  | Err e => Err e
  end.

Definition is_ok {A : Type} (r : result A) : bool :=
  match r with Ok _ => true | Err _ => false end.

(** ** Numbers *)

Class Num (T : Type) : Type := {
  num0 : T;                (* 0 *)
  num1 : T;                (* 1 *)
  num2 : T;                (* 2 *)
  num_half : T;            (* 0.5 *)
  num_quarter : T;         (* 0.25 *)
  num_PI : T;              (* Math.PI *)
  num_nan : T;             (* the number an [undefined] operand is read as *)
  num_of_array : list T → T; (* the number an array operand is read as *)
  num_is_number : T → bool;  (* [check.number]: neither NaN nor infinite *)
  nadd : T → T → T;
  nsub : T → T → T;
  nmul : T → T → T;
  nneg : T → T;
  nsqrt : T → T
}.

Declare Scope num_scope.
Delimit Scope num_scope with num.
Infix "+" := nadd : num_scope.
Infix "-" := nsub : num_scope.
Infix "*" := nmul : num_scope.
Notation "- x" := (nneg x) : num_scope.

(** IEEE binary64, the numbers of the program. *)
#[export] Instance float_Num : Num float := {|
  num0 := 0%float;
  num1 := 1%float;
  num2 := 2%float;
  num_half := 0.5%float;
  num_quarter := 0.25%float;
  num_PI := 0x1.921fb54442d18p+1%float;
  num_nan := nan;
  (* ToNumber of an array goes through its string: [[]] is [0], [[x]] is [x]
     (a negative zero prints as "0"), anything longer is not a number *)
  num_of_array := fun a =>
    match a with
    | [] => 0%float
    | [x] => (x + 0)%float
    | _ => nan
    end;
  (* [check.number] of [core.utils] (not among the source files), read as
     the predicate of that name of the check-types library *)
  num_is_number := PrimFloat.is_finite;
  nadd := PrimFloat.add;
  nsub := PrimFloat.sub;
  nmul := PrimFloat.mul;
  nneg := PrimFloat.opp;
  nsqrt := PrimFloat.sqrt
|}.

(** Exact real arithmetic: the same operations without rounding. *)
#[export] Instance R_Num : Num R := {|
  num0 := 0%R;
  num1 := 1%R;
  num2 := 2%R;
  num_half := (1 / 2)%R;
  num_quarter := (1 / 4)%R;
  num_PI := Rtrigo1.PI;
  (* exact arithmetic has no NaN: the real reading is meant for defined
     operands only, and these two are placeholders *)
  num_nan := 0%R;
  num_of_array := fun a =>
    match a with
    | [x] => x
    | _ => 0%R
    end;
  num_is_number := fun _ => true;
  nadd := Rplus;
  nsub := Rminus;
  nmul := Rmult;
  nneg := Ropp;
  nsqrt := R_sqrt.sqrt
|}.

(** ** JavaScript arrays

    An array read out of range yields [undefined] ([None]); arithmetic on
    [undefined] yields NaN. *)

(** A JavaScript property read [a[i]] on an array held as a list: an index
    that is negative or past the end reads [undefined]. *)
Definition js_at {A : Type} (a : list A) (i : Z) : option A :=
  if (i <? 0)%Z then None else a !! Z.to_nat i.

Definition js_truthy (v : option bool) : bool :=
  match v with Some b => b | None => false end.

Definition to_number {T : Type} {N : Num T} (v : option T) : T :=
  match v with Some x => x | None => num_nan end.

Definition vector (T : Type) : Type := list T.
Definition matrix (T : Type) : Type := list (list T).

(** ** The numeric layer

    [core.numeric] and [feutils] are not among the source files; the
    primitives the cell sets call are modelled from their description in the
    specification. *)

Module numeric.
Section Generic.
Context {T : Type} {N : Num T}.
Local Open Scope num_scope.

(** Modelled from the spec: [size] of [core.numeric], the number of rows
    and the number of columns of a matrix. *)
Definition size (m : matrix T) : nat * nat :=
  (length m, match m with [] => 0 | r :: _ => length r end).

(** Modelled from the spec: [nthColumn] of [core.numeric]; the columns are
    counted from 1 (the two tangent columns of [J] are columns 1 and 2). *)
Definition nthColumn (m : matrix T) (n : nat) : vector T :=
  map (fun r => to_number (r !! (n - 1)%nat)) m.

(** Modelled from the spec: [transpose] of [core.numeric]. *)
Definition transpose (m : matrix T) : matrix T :=
  map (fun j => map (fun r => to_number (r !! j)) m) (seq 0 (snd (size m))).

(** Sum of products of two vectors, accumulated from [0]. *)
Definition dotVV (x y : vector T) : T :=
  fold_left (fun acc p => acc + fst p * snd p) (combine x y) num0.

(** Modelled from the spec: [dot] of [core.numeric] on a matrix and a
    vector. *)
Definition dot (m : matrix T) (v : vector T) : vector T :=
  map (fun r => dotVV r v) m.

(** Modelled from the spec: [mul] of [core.numeric], the matrix product. *)
Definition mul (a b : matrix T) : matrix T :=
  map (fun r => map (fun j => dotVV r (nthColumn b (S j)))
                    (seq 0 (snd (size b)))) a.

(** Modelled from the spec: [norm] of [core.numeric], the Euclidean
    norm. *)
Definition norm (v : vector T) : T := nsqrt (dotVV v v).
End Generic.
End numeric.

Module feutils.
Section Generic.
Context {T : Type} {N : Num T}.
Local Open Scope num_scope.

(** Modelled from the spec: [skewmat] of [feutils], the skew-symmetric
    matrix of a vector of 3-space, whose product with a vector is the
    cross product; other lengths are rejected. *)
Definition skewmat (v : vector T) : result (matrix T) :=
  match v with
  | [a1; a2; a3] =>
      Ok [ [num0; - a3; a2];
           [a3; num0; - a1];
           [- a2; a1; num0] ]
  | _ => Err InvalidInputError
  end.
End Generic.
End feutils.

(** ** Topology

    [geometry.topology] is not among the source files.  The cell sets only
    construct a topology ([hypercube]), read its dimension, cell size and
    cells, and take its boundary. *)

(** Modelled from the spec: a [Topology] has a top dimension [D] and, for
    each dimension [0..D], an ordered sequence of cells, each an ordered
    sequence of point indices.  It has no other attribute. *)
Record Topology : Type := {
  topo_dim : nat;
  topo_cells : list (list (list Z))   (* the cells of dimension [k] at position [k] *)
}.

Module topology.

Definition getDim (t : Topology) : nat := topo_dim t.

Definition getCellsInDim (t : Topology) (k : nat) : list (list Z) :=
  nth k (topo_cells t) [].

(** Modelled from the spec: [getMaxCells] is [getCellsInDim(D)]. *)
Definition getMaxCells (t : Topology) : list (list Z) :=
  getCellsInDim t (getDim t).

Definition getNumOfCellsInDim (t : Topology) (k : nat) : nat :=
  length (getCellsInDim t k).

(** Modelled from the spec: the cell size is fixed per dimension; under
    the hypercube rule a cell of dimension [k] has [2^k] points. *)
Definition getCellSizeInDim (t : Topology) (k : nat) : nat := 2 ^ k.

(** Modelled from the spec: two sub-faces are identical iff their
    point-index sets are equal, independent of traversal order. *)
Definition same_cell (a b : list Z) : bool :=
  forallb (fun x => existsb (Z.eqb x) b) a &&
  forallb (fun x => existsb (Z.eqb x) a) b.

(** De-duplication that keeps the first occurrence. *)
Definition dedup (cs : list (list Z)) : list (list Z) :=
  fold_left (fun acc c => if existsb (same_cell c) acc then acc else acc ++ [c])
            cs [].

(** Modelled from the spec: the fixed face pattern of a line (its two end
    points) and of a quad (its four sides, in order). *)
Definition faces (k : nat) (cell : list Z) : list (list Z) :=
  match k, cell with
  | 1, [a; b] => [[a]; [b]]
  | 2, [a; b; c; d] => [[a; b]; [b; c]; [c; d]; [d; a]]
  | _, _ => []
  end.

(** The cells of dimensions [0..k], derived from the cells of dimension
    [k] by enumerating every sub-face and de-duplicating. *)
Fixpoint derive (k : nat) (top : list (list Z)) : list (list (list Z)) :=
  match k with
  | 0 => [top]
  | S k' => derive k' (dedup (flat_map (faces k) top)) ++ [top]
  end.

Definition valid_row (dim : nat) (row : option (list Z)) : bool :=
  match row with
  | None => false
  | Some r => (length r =? 2 ^ dim) && forallb (fun i => (0 <=? i)%Z) r
  end.

(** Modelled from the spec: [hypercube(conn, dim)] builds the topology of
    line ([dim = 1]) or quad ([dim = 2]) cells; the cells of dimension
    [dim] are the input, in order.  It fails with [InvalidTopologyError]
    if the rows have inconsistent length or contain negative indices; a
    row that is [undefined] has no length and is rejected alike. *)
Definition hypercube (conn : list (option (list Z))) (dim : nat)
  : result Topology :=
  if forallb (valid_row dim) conn && (dim <=? 2) then
    Ok {| topo_dim := dim;
          topo_cells := derive dim (omap (fun r => r) conn) |}
  else Err InvalidTopologyError.

(** Number of top cells of [t] that have [f] as a face. *)
Definition parents (t : Topology) (f : list Z) : nat :=
  length (filter (fun c => existsb (same_cell f) (faces (getDim t) c) = true)
                 (getMaxCells t)).

(** Modelled from the spec: [boundary()] is a new topology of dimension
    [D-1] holding exactly the [(D-1)]-cells that are a face of exactly one
    [D]-cell. *)
Definition boundary (t : Topology) : result Topology :=
  match getDim t with
  | 0 => Err InvalidTopologyError
  | S d =>
      Ok {| topo_dim := d;
            topo_cells :=
              derive d (filter (fun f => parents t f = 1)
                               (getCellsInDim t d)) |}
  end.

End topology.

(** ** Geometry cell sets *)

(** The concrete cell-set classes of [gcellset.js]. *)
Inductive CellType : Type := type_L2 | type_Q4.

(** [otherDimension] is a number or a function of connectivity, basis
    function values and coordinates. *)
Inductive OtherDimension (T : Type) : Type :=
  | od_number (x : T)
  | od_function (f : list Z → matrix T → matrix T → T).
Arguments od_number {T} x.
Arguments od_function {T} f.

(** The option object handed to a constructor.  An absent property is
    [None]; a row of [conn] may itself be [undefined]. *)
Record InitOption (T : Type) : Type := {
  opt_conn : option (list (option (list Z)));
  opt_axisSymm : option bool;
  opt_otherDimension : option (OtherDimension T);
  opt_topology : option Topology
}.
Arguments opt_conn {T} _.
Arguments opt_axisSymm {T} _.
Arguments opt_otherDimension {T} _.
Arguments opt_topology {T} _.

(** What a call site passes to a constructor: an option object, or (in
    [boundary]) a [Topology]. *)
Inductive CtorArg (T : Type) : Type :=
  | arg_options (o : InitOption T)
  | arg_topology (t : Topology).
Arguments arg_options {T} o.
Arguments arg_topology {T} t.

Record GCellSet (T : Type) : Type := {
  cell_type : CellType;
  _axisSymm : bool;
  _otherDimension : OtherDimension T;
  _id : nat;
  _topology : Topology
}.
Arguments cell_type {T} _.
Arguments _axisSymm {T} _.
Arguments _otherDimension {T} _.
Arguments _id {T} _.
Arguments _topology {T} _.

(** The overrides of [dim] and [cellSize]. *)
Definition dim_of (ct : CellType) : nat :=
  match ct with
  | type_L2 => 1    (* Manifold1GCellSet.prototype.dim *)
  | type_Q4 => 2    (* Manifold2GCellSet.prototype.dim *)
  end.

Definition cellSize_of (ct : CellType) : nat :=
  match ct with
  | type_L2 => 2    (* L2.prototype.cellSize *)
  | type_Q4 => 4    (* Q4.prototype.cellSize *)
  end.

Module GCellSet.
Section Generic.
Context {T : Type} {N : Num T}.
Local Open Scope num_scope.

(** [options.conn] as seen by a constructor: a [Topology] has no such
    property. *)
Definition arg_conn (a : CtorArg T) : option (list (option (list Z))) :=
  match a with
  | arg_options o => opt_conn o
  | arg_topology _ => None
  end.

(** [isNumber(options.otherDimension) || isFunction(options.otherDimension)]
    keeps the option; anything else, a NaN or an infinite number included,
    is replaced by [1.0]. *)
Definition checked_otherDimension (d : option (OtherDimension T))
  : OtherDimension T :=
  match d with
  | Some (od_number v) => if num_is_number v then od_number v
                          else od_number num1
  | Some (od_function f) => od_function f
  | None => od_number num1
  end.

(** The base constructor, run with [this] of class [ct]; [uid] is the
    value [uuid()] returns. *)
Definition new (ct : CellType) (uid : nat) (options : InitOption T)
  : result (GCellSet T) :=
  match opt_topology options with
  | None => Err InvalidInputError
  | Some topology =>
      let otherDimension :=
        checked_otherDimension (opt_otherDimension options) in
      let axisSymm :=
        match opt_axisSymm options with
        | Some b => b
        | None => false
        end in
      let cellSizeFromTopology :=
        topology.getCellSizeInDim topology (topology.getDim topology) in
      if negb (cellSizeFromTopology =? cellSize_of ct)
      then Err DimensionMismatchError
      else if negb (topology.getDim topology =? dim_of ct)
      then Err DimensionMismatchError
      else Ok {| cell_type := ct;
                 _axisSymm := axisSymm;
                 _otherDimension := otherDimension;
                 _id := uid;
                 _topology := topology |}
  end.

Definition topology (g : GCellSet T) : Topology := _topology g.

Definition otherDimension (g : GCellSet T)
    (conn : list Z) (Nv x : matrix T) : T :=
  match _otherDimension g with
  | od_function f => f conn Nv x
  | od_number v => v
  end.

Definition axisSymm (g : GCellSet T) : bool := _axisSymm g.

Definition edges (g : GCellSet T) : list (list Z) :=
  topology.getCellsInDim (_topology g) 1.

Definition conn (g : GCellSet T) : list (list Z) :=
  topology.getMaxCells (_topology g).

Definition jacobianMatrix (nder x : matrix T) : matrix T :=
  numeric.mul (numeric.transpose x) nder.

Definition count (g : GCellSet T) : nat :=
  topology.getNumOfCellsInDim (_topology g)
                              (topology.getDim (_topology g)).

Definition nfens (g : GCellSet T) : nat :=
  topology.getNumOfCellsInDim (_topology g) 0.

(** The helper [subset(conn, indices)]: pushes [conn[idx]] for every
    index; an index with no row pushes [undefined]. *)
Definition subset (conn : list (list Z)) (indices : list Z)
  : list (option (list Z)) :=
  map (fun idx => js_at conn idx) indices.
End Generic.
End GCellSet.

Module Manifold1GCellSet.
Section Generic.
Context {T : Type} {N : Num T}.
Local Open Scope num_scope.

Definition dim : nat := 1.

Definition jacobianCurve (g : GCellSet T)
    (conn : list Z) (Nv J x : matrix T) : result T :=
  match numeric.transpose J with
  | vec :: _ => Ok (numeric.norm vec)
  | [] => Err TypeError
  end.

Definition jacobian (g : GCellSet T)
    (conn : list Z) (Nv J x : matrix T) : result T :=
  jacobianCurve g conn Nv J x.

Definition jacobianSurface (g : GCellSet T)
    (conn : list Z) (Nv J x : matrix T) : result T :=
  if GCellSet.axisSymm g then
    let xyz := head (numeric.mul (numeric.transpose Nv) x) in
    c ← jacobianCurve g conn Nv J x;
    match xyz with
    | Some xyz => Ok (c * num2 * num_PI * to_number (xyz !! 0%nat))
    | None => Err TypeError
    end
  else
    c ← jacobianCurve g conn Nv J x;
    Ok (c * GCellSet.otherDimension g conn Nv x).

Definition jacobianVolumn (g : GCellSet T)
    (conn : list Z) (Nv J x : matrix T) : result T :=
  if GCellSet.axisSymm g then
    let xyz := head (numeric.mul (numeric.transpose Nv) x) in
    c ← jacobianCurve g conn Nv J x;
    match xyz with
    | Some xyz =>
        Ok (c * num2 * num_PI * to_number (xyz !! 0%nat)
            * GCellSet.otherDimension g conn Nv x)
    | None => Err TypeError
    end
  else
    c ← jacobianCurve g conn Nv J x;
    Ok (c * GCellSet.otherDimension g conn Nv x).

Definition jacobianInDim (g : GCellSet T)
    (conn : list Z) (Nv J x : matrix T) (dim : Z) : result T :=
  match dim with
  | 3%Z => jacobianVolumn g conn Nv J x
  | 2%Z => jacobianSurface g conn Nv J x
  | 1%Z => jacobianCurve g conn Nv J x
  | _ => Err UnsupportedDimensionError
  end.
End Generic.
End Manifold1GCellSet.

Module Manifold2GCellSet.
Section Generic.
Context {T : Type} {N : Num T}.
Local Open Scope num_scope.

Definition dim : nat := 2.

(** [J[i][j]]; an entry that is not there reads as [undefined]. *)
Definition entry (J : matrix T) (i j : nat) : T :=
  to_number (J !! i ≫= fun r => r !! j).

Definition jacobianSurface (g : GCellSet T)
    (conn : list Z) (Nv J x : matrix T) : result T :=
  let '(sdim, ntan) := numeric.size J in
  if ntan =? 2 then
    if sdim =? ntan then
      Ok (entry J 0 0 * entry J 1 1 - entry J 1 0 * entry J 0 1)
    else
      jac ← feutils.skewmat (numeric.nthColumn J 1);
      let jac := numeric.dot jac (numeric.nthColumn J 2) in
      Ok (numeric.norm jac)
  else Err NotImplementedError.

Definition jacobian (g : GCellSet T)
    (conn : list Z) (Nv J x : matrix T) : result T :=
  jacobianSurface g conn Nv J x.

Definition jacobianVolumn (g : GCellSet T)
    (conn : list Z) (Nv J x : matrix T) : result T :=
  if GCellSet.axisSymm g then
    (* [dot] of two matrices is their product; [xyz[0]] is its first row,
       used as a number *)
    let xyz := numeric.mul (numeric.transpose Nv) x in
    s ← jacobianSurface g conn Nv J x;
    Ok (s * num2 * num_PI
        * match head xyz with
          | Some row => num_of_array row
          | None => num_nan
          end)
  else
    s ← jacobianSurface g conn Nv J x;
    Ok (s * GCellSet.otherDimension g conn Nv x).

Definition jacobianInDim (g : GCellSet T)
    (conn : list Z) (Nv J x : matrix T) (dim : Z) : result T :=
  match dim with
  | 3%Z => jacobianVolumn g conn Nv J x
  | 2%Z => jacobianSurface g conn Nv J x
  | _ => Err UnsupportedDimensionError
  end.
End Generic.
End Manifold2GCellSet.

Module L2.
Section Generic.
Context {T : Type} {N : Num T}.
Local Open Scope num_scope.

Definition new (uid : nat) (options : CtorArg T) : result (GCellSet T) :=
  match options, GCellSet.arg_conn options with
  | arg_options o, Some conn =>
      topology ← topology.hypercube conn 1;
      GCellSet.new type_L2 uid
        {| opt_conn := opt_conn o;
           opt_axisSymm := opt_axisSymm o;
           opt_otherDimension := opt_otherDimension o;
           opt_topology := Some topology |}
  | _, _ => Err InvalidInputError
  end.

(** [return P1]: no [P1] is declared in the module. *)
Definition boundaryGCellSetConstructor : result CellType :=
  Err ReferenceError.

Definition subset (uid : nat) (g : GCellSet T) (indices : list Z)
  : result (GCellSet T) :=
  let conn := GCellSet.subset (GCellSet.conn g) indices in
  new uid (arg_options
    {| opt_conn := Some conn;
       opt_axisSymm := Some (GCellSet.axisSymm g);
       opt_otherDimension := Some (_otherDimension g);
       opt_topology := None |}).

Definition triangles (g : GCellSet T) : list (list Z) := [].

Definition cellSize : nat := 2.

(** Modelled from the spec: the contract built with [defineContract] and
    [vectorOfDimension(1)] of [core.utils] (not among the source files)
    rejects an input that is not a vector of length 1. *)
Definition _input_contract_l2_param_coords_ (paramCoords : vector T)
  : result unit :=
  if length paramCoords =? 1 then Ok tt else Err InvalidInputError.

Definition bfun (paramCoords : vector T) : result (matrix T) :=
  _ ← _input_contract_l2_param_coords_ paramCoords;
  let x := to_number (paramCoords !! 0%nat) in
  Ok [ [ num_half * (num1 - x) ];
       [ num_half * (num1 + x) ] ].

Definition bfundpar (paramCoords : vector T) : result (matrix T) :=
  _ ← _input_contract_l2_param_coords_ paramCoords;
  Ok [ [ - num_half ];
       [ num_half ] ].
End Generic.
End L2.

Module Q4.
Section Generic.
Context {T : Type} {N : Num T}.
Local Open Scope num_scope.

Definition new (uid : nat) (options : CtorArg T) : result (GCellSet T) :=
  match options, GCellSet.arg_conn options with
  | arg_options o, Some conn =>
      topology ← topology.hypercube conn 2;
      GCellSet.new type_Q4 uid
        {| opt_conn := opt_conn o;
           opt_axisSymm := opt_axisSymm o;
           opt_otherDimension := opt_otherDimension o;
           opt_topology := Some topology |}
  | _, _ => Err InvalidInputError
  end.

Definition subset (uid : nat) (g : GCellSet T) (indices : list Z)
  : result (GCellSet T) :=
  let conn := GCellSet.subset (GCellSet.conn g) indices in
  new uid (arg_options
    {| opt_conn := Some conn;
       opt_axisSymm := Some (GCellSet.axisSymm g);
       opt_otherDimension := Some (_otherDimension g);
       opt_topology := None |}).

Definition cellSize : nat := 4.

Definition boundaryGCellSetConstructor : result CellType := Ok type_L2.

Definition triangles (g : GCellSet T) : list (list Z) :=
  flat_map (fun quad =>
              match quad with
              | [q0; q1; q2; q3] => [[q0; q1; q2]; [q2; q3; q0]]
              | _ => []
              end)
           (topology.getCellsInDim (_topology g) 2).

Definition bfun (paramCoords : vector T) : result (matrix T) :=
  let one_minus_xi := num1 - to_number (paramCoords !! 0%nat) in
  let one_plus_xi := num1 + to_number (paramCoords !! 0%nat) in
  let one_minus_eta := num1 - to_number (paramCoords !! 1%nat) in
  let one_plus_eta := num1 + to_number (paramCoords !! 1%nat) in
  Ok [ [ num_quarter * one_minus_xi * one_minus_eta ];
       [ num_quarter * one_plus_xi * one_minus_eta ];
       [ num_quarter * one_plus_xi * one_plus_eta ];
       [ num_quarter * one_minus_xi * one_plus_eta ] ].

Definition bfundpar (paramCoords : vector T) : result (matrix T) :=
  let xi := to_number (paramCoords !! 0%nat) in
  let eta := to_number (paramCoords !! 1%nat) in
  Ok [ [ - (num1 - eta) * num_quarter; - (num1 - xi) * num_quarter ];
       [ (num1 - eta) * num_quarter; - (num1 + xi) * num_quarter ];
       [ (num1 + eta) * num_quarter; (num1 + xi) * num_quarter ];
       [ - (num1 + eta) * num_quarter; (num1 - xi) * num_quarter ] ].
End Generic.
End Q4.

(** Method calls on a cell set, resolved by its class. *)
Module gcellset.
Section Generic.
Context {T : Type} {N : Num T}.

Definition construct (C : CellType) (uid : nat) (a : CtorArg T)
  : result (GCellSet T) :=
  match C with
  | type_L2 => L2.new uid a
  | type_Q4 => Q4.new uid a
  end.

Definition boundaryGCellSetConstructor (g : GCellSet T) : result CellType :=
  match cell_type g with
  | type_L2 => L2.boundaryGCellSetConstructor
  | type_Q4 => Q4.boundaryGCellSetConstructor
  end.

(** [GCellSet.prototype.boundary]: the boundary topology itself is handed
    to the constructor. *)
Definition boundary (uid : nat) (g : GCellSet T) : result (GCellSet T) :=
  C ← boundaryGCellSetConstructor g;
  boundaryTopology ← topology.boundary (_topology g);
  construct C uid (arg_topology boundaryTopology).

Definition subset (uid : nat) (g : GCellSet T) (indices : list Z)
  : result (GCellSet T) :=
  match cell_type g with
  | type_L2 => L2.subset uid g indices
  | type_Q4 => Q4.subset uid g indices
  end.

Definition bfun (g : GCellSet T) (paramCoords : vector T)
  : result (matrix T) :=
  match cell_type g with
  | type_L2 => L2.bfun paramCoords
  | type_Q4 => Q4.bfun paramCoords
  end.

Definition bfundpar (g : GCellSet T) (paramCoords : vector T)
  : result (matrix T) :=
  match cell_type g with
  | type_L2 => L2.bfundpar paramCoords
  | type_Q4 => Q4.bfundpar paramCoords
  end.

Definition jacobianInDim (g : GCellSet T)
    (conn : list Z) (Nv J x : matrix T) (dim : Z) : result T :=
  match cell_type g with
  | type_L2 => Manifold1GCellSet.jacobianInDim g conn Nv J x dim
  | type_Q4 => Manifold2GCellSet.jacobianInDim g conn Nv J x dim
  end.
End Generic.
End gcellset.

(** ** Fields *)

(** A [for (i = 0; i < n; ++i)] loop over a mutable state; a throw leaves
    the loop with the state reached so far. *)
Fixpoint for_list {I S : Type} (body : I → S → result unit * S)
    (l : list I) (s : S) : result unit * S :=
  match l with
  | [] => (Ok tt, s)
  | i :: l' =>
      match body i s with
      | (Ok _, s') => for_list body l' s'
      | (Err e, s') => (Err e, s')
      end
  end.

Definition for_ {S : Type} (n : nat) (body : nat → S → result unit * S)
    (s : S) : result unit * S :=
  for_list body (seq 0 n) s.

(** Modelled from the spec: [PointSet] of [geometry.pointset] (not among the
    source files), a container of one vector of [getRn()] numbers per
    point.  Reads and writes outside the container fail. *)
Record PointSet (T : Type) : Type := {
  ps_rn : nat;
  ps_points : list (list T)
}.
Arguments ps_rn {T} _.
Arguments ps_points {T} _.

Module PointSet.
Section Generic.
Context {T : Type} {N : Num T}.

Definition of_matrix (m : matrix T) : PointSet T :=
  {| ps_rn := snd (numeric.size m); ps_points := m |}.

Definition zeros (nfens dim : nat) : PointSet T :=
  {| ps_rn := dim; ps_points := replicate nfens (replicate dim num0) |}.

Definition clone (p : PointSet T) : PointSet T := p.

Definition getSize (p : PointSet T) : nat := length (ps_points p).

Definition getRn (p : PointSet T) : nat := ps_rn p.

Definition toList (p : PointSet T) : matrix T := ps_points p.

Definition get (p : PointSet T) (idx : Z) : result (vector T) :=
  match js_at (ps_points p) idx with
  | Some v => Ok v
  | None => Err IndexOutOfRangeError
  end.

(** Writes component [dir] of point [index]; the value written has to be
    a number. *)
Definition setAtDir_ (index dir : Z) (val : option T) (p : PointSet T)
  : result unit * PointSet T :=
  match js_at (ps_points p) index, val with
  | Some v, Some x =>
      if (0 <=? dir)%Z && (dir <? Z.of_nat (length v))%Z then
        (Ok tt,
         {| ps_rn := ps_rn p;
            ps_points := <[Z.to_nat index := <[Z.to_nat dir := x]> v]>
                           (ps_points p) |})
      else (Err IndexOutOfRangeError, p)
  | None, _ => (Err IndexOutOfRangeError, p)
  | _, None => (Err InvalidInputError, p)
  end.

(** The callback of [map] run on every point in turn, with its index; the
    first throw ends the traversal. *)
Fixpoint map_points (fn : vector T → nat → result (vector T))
    (i : nat) (points : list (vector T)) : result (list (vector T)) :=
  match points with
  | [] => Ok []
  | v :: points' =>
      v' ← fn v i;
      rest ← map_points fn (S i) points';
      Ok (v' :: rest)
  end.

(** Modelled from the spec: [map(fn)] of [geometry.pointset], the point set
    of the vectors [fn(vec, i)]. *)
Definition map (fn : vector T → nat → result (vector T)) (p : PointSet T)
  : result (PointSet T) :=
  points ← map_points fn 0 (ps_points p);
  Ok (of_matrix points).
End Generic.
End PointSet.

(** Modelled from the spec: [array2d(m, n, v)] of [core.utils] (not among
    the source files), a fresh array of [m] rows of [n] entries [v].  A row
    is held as the finite map of its integer properties: an assignment
    [row[j] = x] defines property [j] whatever [j] is, and a read of an
    undefined property yields [undefined]. *)
Definition array1d {A : Type} (n : nat) (v : A) : gmap Z A :=
  list_to_map ((fun j => (Z.of_nat j, v)) <$> seq 0 n).

Definition array2d {A : Type} (m n : nat) (v : A) : list (gmap Z A) :=
  replicate m (array1d n v).

(** [tbl[i][j]] and [tbl[i][j] = x] on such a table; both throw when row
    [i] is [undefined]. *)
Definition table_get {A : Type} (tbl : list (gmap Z A)) (i j : Z)
  : result (option A) :=
  match js_at tbl i with
  | Some row => Ok (row !! j)
  | None => Err TypeError
  end.

Definition table_set {A : Type} (tbl : list (gmap Z A)) (i j : Z) (x : A)
  : result (list (gmap Z A)) :=
  match js_at tbl i with
  | Some row => Ok (<[Z.to_nat i := <[j := x]> row]> tbl)
  | None => Err TypeError
  end.

Record Field (T : Type) : Type := {
  _values : PointSet T;
  _prescribed : option (list (gmap Z bool));      (* [null] or a table *)
  _prescribedValues : option (list (gmap Z T));
  _eqnums : option (list (gmap Z Z));
  _neqns : Z
}.
Arguments _values {T} _.
Arguments _prescribed {T} _.
Arguments _prescribedValues {T} _.
Arguments _eqnums {T} _.
Arguments _neqns {T} _.

Module Field.
Section Generic.
Context {T : Type} {N : Num T}.

(** A boundary condition object: only its [applyToField_] is used. *)
Definition EBC : Type := Field T → result unit * Field T.

Record FieldInitOption : Type := {
  opt_values : option (matrix T);
  opt_pointset : option (PointSet T);
  opt_fens : option (matrix T);       (* [fens.xyz()] *)
  opt_nfens : option nat;
  opt_dim : option nat;
  opt_ebcs : option (list EBC)
}.

Definition INVALID_EQUATION_NUM : Z := (-1)%Z.

Definition nfens (f : Field T) : nat := PointSet.getSize (_values f).

Definition dim (f : Field T) : nat := PointSet.getRn (_values f).

Definition values (f : Field T) : matrix T := PointSet.toList (_values f).

Definition at_ (f : Field T) (idx : Z) : result (vector T) :=
  PointSet.get (_values f) idx.

Definition pointset (f : Field T) : PointSet T := _values f.

Definition isPrescribed (f : Field T) (index direction : Z)
  : result (option bool) :=
  match _prescribed f with
  | None => Ok (Some false)
  | Some prescribed => table_get prescribed index direction
  end.

Definition prescribedValue (f : Field T) (index direction : Z)
  : result (option T) :=
  p ← isPrescribed f index direction;
  if js_truthy p then
    match _prescribedValues f with
    | None => Err TypeError
    | Some prescribedValues => table_get prescribedValues index direction
    end
  else Ok (Some num0).

Definition setPrescribedValue_ (index dir : Z) (val : T) (f : Field T)
  : result unit * Field T :=
  (* this._prescribed[index][dir] = true; *)
  match _prescribed f with
  | None => (Err TypeError, f)
  | Some prescribed =>
      match table_set prescribed index dir true with
      | Err e => (Err e, f)
      | Ok prescribed =>
          let f1 := {| _values := _values f;
                       _prescribed := Some prescribed;
                       _prescribedValues := _prescribedValues f;
                       _eqnums := _eqnums f;
                       _neqns := _neqns f |} in
          (* this._prescribedValues[index][dir] = val; *)
          match _prescribedValues f1 with
          | None => (Err TypeError, f1)
          | Some prescribedValues =>
              match table_set prescribedValues index dir val with
              | Err e => (Err e, f1)
              | Ok prescribedValues =>
                  (* this._values.setAtDir_(index, dir, val); *)
                  let '(r, values) :=
                    PointSet.setAtDir_ index dir (Some val) (_values f1) in
                  (r, {| _values := values;
                         _prescribed := _prescribed f1;
                         _prescribedValues := Some prescribedValues;
                         _eqnums := _eqnums f1;
                         _neqns := _neqns f1 |})
              end
          end
      end
  end.

(** The body of the two nested loops of [_numberEqnums_], on the local
    variables [eqnums] and [count]. *)
Definition number_body (f : Field T) (i j : nat)
    (st : list (gmap Z Z) * Z) : result unit * (list (gmap Z Z) * Z) :=
  let '(eqnums, count) := st in
  match isPrescribed f (Z.of_nat i) (Z.of_nat j) with
  | Err e => (Err e, st)
  | Ok p =>
      if negb (js_truthy p) then
        match table_set eqnums (Z.of_nat i) (Z.of_nat j) count with
        | Ok eqnums' => (Ok tt, (eqnums', (count + 1)%Z))
        | Err e => (Err e, (eqnums, (count + 1)%Z))
        end
      else (Ok tt, st)
  end.

Definition _numberEqnums_ (f : Field T) : result unit * Field T :=
  let eqnums := array2d (nfens f) (dim f) INVALID_EQUATION_NUM in
  let count := 0%Z in
  let nfens := nfens f in
  let dim := dim f in
  match for_ nfens (fun i => for_ dim (fun j => number_body f i j))
             (eqnums, count) with
  | (Ok _, (eqnums, count)) =>
      (Ok tt, {| _values := _values f;
                 _prescribed := _prescribed f;
                 _prescribedValues := _prescribedValues f;
                 _eqnums := Some eqnums;
                 _neqns := count |})
  | (Err e, _) => (Err e, f)
  end.

(** [if (!this._eqnums) this._numberEqnums_();] *)
Definition ensure_numbered (f : Field T) : result unit * Field T :=
  match _eqnums f with
  | None => _numberEqnums_ f
  | Some _ => (Ok tt, f)
  end.

Definition neqns (f : Field T) : result Z * Field T :=
  match ensure_numbered f with
  | (Ok _, f') => (Ok (_neqns f'), f')
  | (Err e, f') => (Err e, f')
  end.

Definition eqnum (index direction : Z) (f : Field T)
  : result (option Z) * Field T :=
  match ensure_numbered f with
  | (Err e, f') => (Err e, f')
  | (Ok _, f') =>
      if (index <? 0)%Z || (Z.of_nat (nfens f') <=? index)%Z
      then (Err IndexOutOfRangeError, f')
      else if (direction <? 0)%Z || (Z.of_nat (dim f') <=? direction)%Z
      then (Err IndexOutOfRangeError, f')
      else
        match _eqnums f' with
        | Some eqnums => (table_get eqnums index direction, f')
        | None => (Err TypeError, f')
        end
  end.

(** Modelled from the spec: [check.isVectorOfDimension] of [core.utils]
    (not among the source files) holds of a vector of the given
    length. *)
Definition isVectorOfDimension (vec : vector T) (n : Z) : bool :=
  (Z.of_nat (length vec) =? n)%Z.

(** The body of the two nested loops of [scatterSystemVector_], on the
    point set [values]. *)
Definition scatter_body (eqnums : list (gmap Z Z)) (vec : vector T)
    (i j : nat) (values : PointSet T) : result unit * PointSet T :=
  match table_get eqnums (Z.of_nat i) (Z.of_nat j) with
  | Err e => (Err e, values)
  | Ok en =>
      if negb (bool_decide (en = Some INVALID_EQUATION_NUM)) then
        let val := en ≫= js_at vec in
        PointSet.setAtDir_ (Z.of_nat i) (Z.of_nat j) val values
      else (Ok tt, values)
  end.

Definition scatterSystemVector_ (vec : vector T) (f : Field T)
  : result unit * Field T :=
  match neqns f with
  | (Err e, f1) => (Err e, f1)
  | (Ok neqns, f1) =>
      if negb (isVectorOfDimension vec neqns)
      then (Err DimensionMismatchError, f1)
      else
        match ensure_numbered f1 with
        | (Err e, f2) => (Err e, f2)
        | (Ok _, f2) =>
            match _eqnums f2 with
            | None => (Err TypeError, f2)
            | Some eqnums =>
                let nfens := nfens f2 in
                let dim := dim f2 in
                let '(r, values) :=
                  for_ nfens
                    (fun i => for_ dim (fun j => scatter_body eqnums vec i j))
                    (_values f2) in
                (r, {| _values := values;
                       _prescribed := _prescribed f2;
                       _prescribedValues := _prescribedValues f2;
                       _eqnums := _eqnums f2;
                       _neqns := _neqns f2 |})
            end
        end
  end.

(** The constructor, after the input contract: the values come from the
    first assigned of [values], [pointset], [fens], [nfens] and [dim]; the
    prescribed tables exist only when [ebcs] is assigned, and every
    boundary condition is applied in turn. *)
Definition new (options : FieldInitOption) : result (Field T) :=
  match
    match opt_values options, opt_pointset options, opt_fens options,
          opt_nfens options, opt_dim options with
    | Some m, _, _, _, _ => Some (PointSet.of_matrix m)
    | None, Some p, _, _, _ => Some (PointSet.clone p)
    | None, None, Some xyz, _, _ => Some (PointSet.of_matrix xyz)
    | None, None, None, Some n, Some d => Some (PointSet.zeros n d)
    | _, _, _, _, _ => None
    end
  with
  | None => Err InvalidInputError
  | Some values =>
      let f0 := {| _values := values;
                   _prescribed := None;
                   _prescribedValues := None;
                   _eqnums := None;
                   _neqns := (-1)%Z |} in
      match opt_ebcs options with
      | None => Ok f0
      | Some ebcs =>
          let f1 := {| _values := values;
                       _prescribed :=
                         Some (array2d (nfens f0) (dim f0) false);
                       _prescribedValues :=
                         Some (array2d (nfens f0) (dim f0) num0);
                       _eqnums := None;
                       _neqns := (-1)%Z |} in
          match for_list (fun ebc f => ebc f) ebcs f1 with
          | (Ok _, f2) => Ok f2
          | (Err e, _) => Err e
          end
      end
  end.

(** [new Field({ pointset: p })]. *)
Definition of_pointset (p : PointSet T) : result (Field T) :=
  new {| opt_values := None;
         opt_pointset := Some p;
         opt_fens := None;
         opt_nfens := None;
         opt_dim := None;
         opt_ebcs := None |}.

Definition map (fn : vector T → nat → result (vector T)) (f : Field T)
  : result (Field T) :=
  newPointset ← PointSet.map fn (_values f);
  of_pointset newPointset.

Definition clone (f : Field T) : result (Field T) :=
  let newPointset := PointSet.clone (_values f) in
  newField ← of_pointset newPointset;
  Ok {| _values := _values newField;
        _prescribed := _prescribed f;
        _prescribedValues := _prescribedValues f;
        _eqnums := _eqnums f;
        _neqns := _neqns f |}.

(** The second operand of a binary operation: a number, a field, an array
    of numbers, or anything else. *)
Inductive Operand : Type :=
  | other_number (x : T)
  | other_field (g : Field T)
  | other_array (a : list T)
  | other_value.

(** [vec.map(function(x, j) { return bopFn(x, ys(j)); })], where reading
    the second operand may throw. *)
Fixpoint map_vec (bopFn : T → option T → T) (ys : nat → result (option T))
    (j : nat) (vec : vector T) : result (vector T) :=
  match vec with
  | [] => Ok []
  | x :: vec' =>
      y ← ys j;
      rest ← map_vec bopFn ys (S j) vec';
      Ok (bopFn x y :: rest)
  end.

(** [_bop(other, bopFn, bopName)]; [bopFn] receives the entry of the field
    and the matching entry of [other], which is [undefined] when [other]
    has no such entry.  [check.instance] and [check.array] of [core.utils]
    are read as the tests of the operand's kind, and [check.number] as
    holding of the numbers that are neither NaN nor infinite: such an
    operand passes none of the three tests and is refused. *)
Definition _bop (other : Operand) (bopFn : T → option T → T) (f : Field T)
  : result (Field T) :=
  match other with
  | other_number c =>
      if num_is_number c then
        map (fun vec _ => map_vec bopFn (fun _ => Ok (Some c)) 0 vec) f
      else Err InvalidInputError
  | other_field g =>
      if (dim g =? dim f) && (nfens g =? nfens f) then
        map (fun vec i =>
               map_vec bopFn
                       (fun j => row ← at_ g (Z.of_nat i); Ok (row !! j))
                       0 vec) f
      else Err InvalidInputError
  | other_array a =>
      if length a =? dim f then
        map (fun vec _ => map_vec bopFn (fun j => Ok (a !! j)) 0 vec) f
      else Err InvalidInputError
  | other_value => Err InvalidInputError
  end.

Definition bop (other : Operand) (bopFn : T → option T → T) (f : Field T)
  : result (Field T) :=
  _bop other bopFn f.

Definition mul (other : Operand) (f : Field T) : result (Field T) :=
  _bop other (fun a b => nmul a (to_number b)) f.

Definition scale (other : Operand) (f : Field T) : result (Field T) :=
  mul other f.

Definition add (other : Operand) (f : Field T) : result (Field T) :=
  _bop other (fun a b => nadd a (to_number b)) f.

Definition sub (other : Operand) (f : Field T) : result (Field T) :=
  _bop other (fun a b => nsub a (to_number b)) f.

(** [gatherEqnumsVector(conn)]: for every node of [conn] in turn, the
    equation numbers of its components are pushed on [vec]. *)
Definition gatherEqnumsVector (conn : list Z) (f : Field T)
  : result (list (option Z)) * Field T :=
  let dim := dim f in
  match
    for_list
      (fun fenid =>
         for_ dim
              (fun i (st : list (option Z) * Field T) =>
                 let '(vec, f) := st in
                 match eqnum fenid (Z.of_nat i) f with
                 | (Ok en, f') => (Ok tt, (vec ++ [en], f'))
                 | (Err e, f') => (Err e, (vec, f'))
                 end))
      conn ([], f)
  with
  | (Ok _, (vec, f')) => (Ok vec, f')
  | (Err e, (_, f')) => (Err e, f')
  end.

(** [gatherValuesMatrix(conn)]: [mat] starts as [conn.length] nulls and
    entry [i] receives the values of node [conn[i]]. *)
Definition gatherValuesMatrix (conn : list Z) (f : Field T)
  : result (list (option (vector T))) :=
  let len := length conn in
  let mat := replicate len None in
  match
    for_list
      (fun (p : nat * Z) (mat : list (option (vector T))) =>
         match PointSet.get (_values f) p.2 with
         | Ok v => (Ok tt, <[p.1 := Some v]> mat)
         | Err e => (Err e, mat)
         end)
      (imap (fun i idx => (i, idx)) conn) mat
  with
  | (Ok _, mat) => Ok mat
  | (Err e, _) => Err e
  end.

(** [gatherPrescirbedValues(conn)]: for every node of [conn] in turn, the
    prescribed values of its components are pushed on [vec]. *)
Definition gatherPrescirbedValues (conn : list Z) (f : Field T)
  : result (list (option T)) :=
  let dim := dim f in
  match
    for_list
      (fun idx =>
         for_ dim
              (fun dir (vec : list (option T)) =>
                 match prescribedValue f idx (Z.of_nat dir) with
                 | Ok v => (Ok tt, vec ++ [v])
                 | Err e => (Err e, vec)
                 end))
      conn []
  with
  | (Ok _, vec) => Ok vec
  | (Err e, _) => Err e
  end.
End Generic.
End Field.

(** ** Nodal loads *)

(** The value of an option that is either a single value or an array. *)
Inductive OneOrMany (A : Type) : Type :=
  | one (x : A)
  | many (l : list A).
Arguments one {A} x.
Arguments many {A} l.

(** Truth value of a number as the operand of [||]: zero and NaN are
    false. *)
Class Truthy (A : Type) : Type := truthy : A → bool.

#[export] Instance Z_Truthy : Truthy Z := fun z => negb (z =? 0)%Z.
#[export] Instance float_Truthy : Truthy float :=
  fun x => negb (PrimFloat.eqb x 0%float) && PrimFloat.eqb x x.

(** [a || b] on two option values: an absent value is false, an array is
    true. *)
Definition js_or {A : Type} {TA : Truthy A} (a b : option (OneOrMany A))
  : option (OneOrMany A) :=
  match a with
  | Some (many l) => a
  | Some (one x) => if truthy x then a else b
  | None => b
  end.

(** [if (!check.array(v)) v = [v];] *)
Definition as_array {A : Type} (v : option (OneOrMany A)) : list (option A) :=
  match v with
  | Some (many l) => Some <$> l
  | Some (one x) => [Some x]
  | None => [None]
  end.

Record ElementLoad (T : Type) : Type := {
  load_value : option T;
  load_eqnum : option Z
}.
Arguments load_value {T} _.
Arguments load_eqnum {T} _.

Record NodalLoadOption (T : Type) : Type := {
  opt_ids : option (OneOrMany Z);
  opt_id : option (OneOrMany Z);
  opt_dirs : option (OneOrMany Z);
  opt_dir : option (OneOrMany Z);
  opt_magns : option (OneOrMany T);
  opt_magn : option (OneOrMany T)
}.
Arguments opt_ids {T} _.
Arguments opt_id {T} _.
Arguments opt_dirs {T} _.
Arguments opt_dir {T} _.
Arguments opt_magns {T} _.
Arguments opt_magn {T} _.

Record NodalLoad (T : Type) : Type := {
  _ids : list (option Z);
  _dirs : list (option Z);
  _magns : list (option T)
}.
Arguments _ids {T} _.
Arguments _dirs {T} _.
Arguments _magns {T} _.

Module NodalLoad.
Section Generic.
Context {T : Type} {N : Num T} {TT : Truthy T}.

Definition new (options : NodalLoadOption T) : NodalLoad T :=
  let ids := js_or (opt_ids options) (opt_id options) in
  let dirs := js_or (opt_dirs options) (opt_dir options) in
  let magns := js_or (opt_magns options) (opt_magn options) in
  {| _ids := as_array ids;
     _dirs := as_array dirs;
     _magns := as_array magns |}.

(** [u.eqnum(id, dir)] when an argument may be [undefined]: the two range
    tests of [eqnum] are false on [undefined], and the read
    [_eqnums[index][direction]] throws when [index] is [undefined] and
    yields [undefined] when only [direction] is. *)
Definition eqnum (id dir : option Z) (u : Field T)
  : result (option Z) * Field T :=
  match id, dir with
  | Some index, Some direction => Field.eqnum index direction u
  | _, _ =>
      match Field.ensure_numbered u with
      | (Err e, u') => (Err e, u')
      | (Ok _, u') =>
          match id with
          | Some index =>
              if (index <? 0)%Z || (Z.of_nat (Field.nfens u') <=? index)%Z
              then (Err IndexOutOfRangeError, u')
              else
                match _eqnums u' ≫= fun eqnums => js_at eqnums index with
                | Some _ => (Ok None, u')
                | None => (Err TypeError, u')
                end
          | None =>
              match dir with
              | Some direction =>
                  if (direction <? 0)%Z
                     || (Z.of_nat (Field.dim u') <=? direction)%Z
                  then (Err IndexOutOfRangeError, u')
                  else (Err TypeError, u')
              | None => (Err TypeError, u')
              end
          end
      end
  end.

(** [loads(u)]: one load per pair of a node and a direction, nodes in the
    outer loop; the magnitude is the one at the position of the
    direction. *)
Definition loads (l : NodalLoad T) (u : Field T)
  : result (list (ElementLoad T)) * Field T :=
  let nids := length (_ids l) in
  let ndirs := length (_dirs l) in
  match
    for_ nids
      (fun i =>
         let id := mjoin (_ids l !! i) in
         for_ ndirs
           (fun j (st : list (ElementLoad T) * Field T) =>
              let '(loads, u) := st in
              let dir := mjoin (_dirs l !! j) in
              match eqnum id dir u with
              | (Ok en, u') =>
                  let val := mjoin (_magns l !! j) in
                  (Ok tt,
                   (loads ++ [{| load_value := val; load_eqnum := en |}], u'))
              | (Err e, u') => (Err e, (loads, u'))
              end))
      ([], u)
  with
  | (Ok _, (loads, u')) => (Ok loads, u')
  | (Err e, (_, u')) => (Err e, u')
  end.
End Generic.
End NodalLoad.

(** ** Meshes

    Of [mesh.js], whose node sets ([fens]) are not among the source
    files, the connectivity that [subdivideQ4] computes: the key under
    which the mid-point of an edge is filed, the map of the mid-points,
    and the four cells each quad is divided into. *)

Module mesh.

(** [hashEdge(n1, n2)] of [subdivideQ4], on integers:
    ['' + Math.min(n1, n2) + Math.max(n1, n2)], the decimal digits of the
    smaller number followed by those of the larger. *)
Definition hashEdge (n1 n2 : Z) : string :=
  pretty (Z.min n1 n2) +:+ pretty (Z.max n1 n2).

(** [hashEdge] on what the reads [conn[0]], [conn[1]] of a row yield:
    [Math.min] and [Math.max] of [undefined] are NaN. *)
Definition hashEdge_read (n1 n2 : option Z) : string :=
  match n1, n2 with
  | Some n1, Some n2 => hashEdge n1 n2
  | _, _ => "NaNNaN"
  end.

(** An entry [{key, index, xy}] of [l2CellCenters]; the coordinates [xy]
    only go to the node set and are left out. *)
Record EdgeCenter : Type := {
  center_key : string;
  center_index : Z
}.

(** [l2CellCenters]: edge [k] of [l2Cells] gets the index [first + k],
    where [first] is the value of [idx] once the centers of the quads are
    numbered. *)
Definition l2CellCenters (first : Z) (l2Cells : list (list Z))
  : list EdgeCenter :=
  imap (fun k conn =>
          {| center_key := hashEdge_read (conn !! 0) (conn !! 1);
             center_index := first + Z.of_nat k |})
       l2Cells.

(** [l2CellCenters.reduce(function(sofar, obj) { sofar[obj.key] = obj;
    return sofar; }, {})]. *)
Definition l2CellCentersMap (cs : list EdgeCenter) : gmap string EdgeCenter :=
  fold_left (fun sofar obj => <[center_key obj := obj]> sofar) cs ∅.

(** [l2CellCentersMap[key].index]; the read of [index] throws when the
    key is not in the map. *)
Definition mid_index (m : gmap string EdgeCenter) (key : string) : result Z :=
  match m !! key with
  | Some obj => Ok (center_index obj)
  | None => Err TypeError
  end.

(** The four rows pushed on [newConn] for the quad [cell] at position
    [i]; [N + i] is [q4CellCenters[i].index]. *)
Definition subdivide_cell (N : Z) (m : gmap string EdgeCenter)
    (i : nat) (cell : list Z) : result (list (list (option Z))) :=
  let n1 := cell !! 0 in
  let n2 := cell !! 1 in
  let n3 := cell !! 2 in
  let n4 := cell !! 3 in
  n12 ← mid_index m (hashEdge_read n1 n2);
  n23 ← mid_index m (hashEdge_read n2 n3);
  n34 ← mid_index m (hashEdge_read n3 n4);
  n41 ← mid_index m (hashEdge_read n4 n1);
  let nCentroid := (N + Z.of_nat i)%Z in
  Ok [ [n1; Some n12; Some nCentroid; Some n41];
       [Some n41; Some nCentroid; Some n34; n4];
       [Some n12; n2; Some n23; Some nCentroid];
       [Some nCentroid; Some n23; n3; Some n34] ].

(** The connectivity [newConn] that [subdivideQ4] hands to the [Q4]
    constructor, from the number [N] of nodes and the quads and edges of
    the topology. *)
Definition newConn (N : Z) (q4Cells l2Cells : list (list Z))
  : result (list (list (option Z))) :=
  let first := (N + Z.of_nat (length q4Cells))%Z in
  let l2CellCentersMap := l2CellCentersMap (l2CellCenters first l2Cells) in
  match
    for_list
      (fun (q : nat * list Z) (newConn : list (list (option Z))) =>
         match subdivide_cell N l2CellCentersMap q.1 q.2 with
         | Ok rows => (Ok tt, newConn ++ rows)
         | Err e => (Err e, newConn)
         end)
      (imap (fun i cell => (i, cell)) q4Cells) []
  with
  | (Ok _, newConn) => Ok newConn
  | (Err e, _) => Err e
  end.

End mesh.

(** ** Vocabulary of the properties *)

(** The number whose decimal digits are those of [a] followed by those of
    [b]. *)
Definition digits_then (a b : Z) : Z :=
  a * 10 ^ Z.of_nat (String.length (pretty b)) + b.

(** Position in [l2Cells] of the first edge between [a] and [b], in
    either direction. *)
Definition edge_position (l2Cells : list (list Z)) (a b : Z) : option nat :=
  fst <$> list_find (fun e => e = [a; b] ∨ e = [b; a]) l2Cells.

(** The cell is a quad whose four sides are edges of [l2Cells]. *)
Definition sides_present (l2Cells : list (list Z)) (cell : list Z) : Prop :=
  match cell with
  | [a; b; c; d] =>
      is_Some (edge_position l2Cells a b) ∧
      is_Some (edge_position l2Cells b c) ∧
      is_Some (edge_position l2Cells c d) ∧
      is_Some (edge_position l2Cells d a)
  | _ => False
  end.

(** Sum of all the entries of a matrix, row after row. *)
Definition sum_entries {T : Type} {N : Num T} (m : matrix T) : T :=
  fold_left nadd (concat m) num0.

(** A matrix of [m] rows and [n] columns. *)
Definition has_shape {T : Type} (J : matrix T) (m n : nat) : Prop :=
  length J = m ∧ Forall (fun r => length r = n) J.

(** Determinant of a 2 x 2 real matrix. *)
Definition det2 (J : matrix R) : R :=
  match J with
  | [[a; b]; [c; d]] => (a * d - b * c)%R
  | _ => 0%R
  end.

(** Cross product of two vectors of real 3-space. *)
Definition cross (a b : vector R) : vector R :=
  match a, b with
  | [a1; a2; a3], [b1; b2; b3] =>
      [(a2 * b3 - a3 * b2)%R; (a3 * b1 - a1 * b3)%R; (a1 * b2 - a2 * b1)%R]
  | _, _ => []
  end.

(** Euclidean norm of a real vector. *)
Definition euclidean_norm (v : vector R) : R :=
  R_sqrt.sqrt (fold_right (fun x acc => (x * x + acc)%R) 0%R v).

(** Column [k] (from 0) of a real matrix. *)
Definition column (J : matrix R) (k : nat) : vector R :=
  map (fun r => nth k r 0%R) J.

(** A cell set that one of the constructors returned. *)
Definition constructed {T : Type} {N : Num T} (g : GCellSet T) : Prop :=
  ∃ uid a, gcellset.construct (cell_type g) uid a = Ok g.

(** The degrees of freedom of a field in the order the numbering scans them:
    node after node, and the components of a node in order. *)
Definition dofs {T : Type} {N : Num T} (f : Field T) : list (nat * nat) :=
  i ← seq 0 (Field.nfens f); j ← seq 0 (Field.dim f); [(i, j)].

(** Whether [isPrescribed] answers with a true value. *)
Definition prescribed_at {T : Type} {N : Num T} (f : Field T)
    (d : nat * nat) : bool :=
  match Field.isPrescribed f (Z.of_nat d.1) (Z.of_nat d.2) with
  | Ok p => js_truthy p
  | Err _ => false
  end.

(** Number of degrees of freedom of [l] that are not prescribed. *)
Definition count_free {T : Type} {N : Num T} (f : Field T)
    (l : list (nat * nat)) : nat :=
  length (filter (fun d => prescribed_at f d = false) l).

Definition count_prescribed {T : Type} {N : Num T} (f : Field T)
    (l : list (nat * nat)) : nat :=
  length (filter (fun d => prescribed_at f d = true) l).

(** Entry of a table of equation numbers at a degree of freedom. *)
Definition eqnum_at (e : list (gmap Z Z)) (d : nat * nat) : option Z :=
  e !! d.1 ≫= fun row => row !! Z.of_nat d.2.

(** Component of the values of a field at a degree of freedom, as read
    through [at]. *)
Definition value_at {T : Type} {N : Num T} (f : Field T)
    (d : nat * nat) : option T :=
  match Field.at_ f (Z.of_nat d.1) with
  | Ok v => v !! d.2
  | Err _ => None
  end.

(** The tables of a field have one row per node, as the constructor builds
    them, and every point has [dim] components. *)
Definition well_shaped {T : Type} {N : Num T} (f : Field T) : Prop :=
  Forall (fun v => length v = Field.dim f) (ps_points (_values f)) ∧
  (∀ t, _prescribed f = Some t → length t = Field.nfens f) ∧
  (∀ t, _prescribedValues f = Some t → length t = Field.nfens f).

(** The cached numbering, if any, is the numbering of the current
    prescribed table: numbering again would change nothing. *)
Definition numbering_current {T : Type} {N : Num T} (f : Field T) : Prop :=
  _eqnums f = None ∨ Field._numberEqnums_ f = (Ok tt, f).

(** A cached table of equation numbers, if there is one, has one row per
    node, as every table [_numberEqnums_] computes has. *)
Definition numbering_rows {T : Type} {N : Num T} (f : Field T) : Prop :=
  ∀ e, _eqnums f = Some e → length e = Field.nfens f.

(** Component of a point of a point set. *)
Definition ps_entry {T : Type} (p : PointSet T) (d : nat * nat) : option T :=
  ps_points p !! d.1 ≫= fun v => v !! d.2.

(** Raw reads [tbl[i][j]] of the three tables of a field, [None] standing
    for an entry that is not there. *)
Definition prescribed_entry {T : Type} (f : Field T) (i j : Z) : option bool :=
  _prescribed f ≫= fun t => js_at t i ≫= fun row => row !! j.

Definition prescribedValues_entry {T : Type} (f : Field T) (i j : Z)
  : option T :=
  _prescribedValues f ≫= fun t => js_at t i ≫= fun row => row !! j.

Definition values_entry {T : Type} (f : Field T) (i j : Z) : option T :=
  js_at (ps_points (_values f)) i ≫= fun v => js_at v j.

(** The field [f] once numbered: the table [e] and the count of its free
    degrees of freedom are cached, nothing else changes. *)
Definition numbered {T : Type} {N : Num T} (f : Field T)
    (e : list (gmap Z Z)) : Field T :=
  {| _values := _values f;
     _prescribed := _prescribed f;
     _prescribedValues := _prescribedValues f;
     _eqnums := Some e;
     _neqns := Z.of_nat (count_free f (dofs f)) |}.

(** ** Sample data *)

(** One quad, [conn = [[0,1,2,3]]], as [new Q4({conn: ...})] builds it. *)
Definition unit_quad_options : InitOption float :=
  {| opt_conn := Some [Some [0; 1; 2; 3]%Z];
     opt_axisSymm := None;
     opt_otherDimension := None;
     opt_topology := None |}.

Definition unit_quad_topology : Topology :=
  {| topo_dim := 2;
     topo_cells := [ [[0]; [1]; [2]; [3]];
                     [[0; 1]; [1; 2]; [2; 3]; [3; 0]];
                     [[0; 1; 2; 3]] ]%Z |}.

Definition unit_quad : GCellSet float :=
  {| cell_type := type_Q4; _axisSymm := false;
     _otherDimension := od_number 1%float; _id := 0;
     _topology := unit_quad_topology |}.

Definition unit_quad_R : GCellSet R :=
  {| cell_type := type_Q4; _axisSymm := false;
     _otherDimension := od_number 1%R; _id := 0;
     _topology := unit_quad_topology |}.

(** One line, [conn = [[0,1]]], as [new L2({conn: ...})] builds it. *)
Definition unit_line : GCellSet float :=
  {| cell_type := type_L2; _axisSymm := false;
     _otherDimension := od_number 1%float; _id := 0;
     _topology := {| topo_dim := 1;
                     topo_cells := [ [[0]; [1]]; [[0; 1]] ]%Z |} |}.

(** The three quads of the L-shaped mesh of [mesh.js], axially symmetric and
    of thickness 2.5. *)
Definition three_quads_options : InitOption float :=
  {| opt_conn := Some [Some [0; 1; 2; 3]; Some [3; 2; 4; 5];
                       Some [3; 5; 6; 7]]%Z;
     opt_axisSymm := Some true;
     opt_otherDimension := Some (od_number 2.5%float);
     opt_topology := None |}.

Definition three_quads : GCellSet float :=
  {| cell_type := type_Q4; _axisSymm := true;
     _otherDimension := od_number 2.5%float; _id := 7;
     _topology :=
       {| topo_dim := 2;
          topo_cells :=
            [ [[0]; [1]; [2]; [3]; [4]; [5]; [6]; [7]];
              [[0; 1]; [1; 2]; [2; 3]; [3; 0]; [2; 4]; [4; 5]; [5; 3];
               [5; 6]; [6; 7]; [7; 3]];
              [[0; 1; 2; 3]; [3; 2; 4; 5]; [3; 5; 6; 7]] ]%Z |} |}.

(** A field of one node with one component and no boundary condition
    applied, as [new Field({nfens: 1, dim: 1, ebcs: []})] builds it. *)
Definition one_dof_options : Field.FieldInitOption (T := float) :=
  {| Field.opt_values := None;
     Field.opt_pointset := None;
     Field.opt_fens := None;
     Field.opt_nfens := Some 1;
     Field.opt_dim := Some 1;
     Field.opt_ebcs := Some [] |}.

(** A field of two nodes with two components; the boundary conditions
    prescribe component 1 of node 0 to 7.5 and component 0 of node 1 to
    -2. *)
Definition two_node_options : Field.FieldInitOption (T := float) :=
  {| Field.opt_values := Some [[1; 2]; [3; 4]]%float;
     Field.opt_pointset := None;
     Field.opt_fens := None;
     Field.opt_nfens := None;
     Field.opt_dim := None;
     Field.opt_ebcs := Some [Field.setPrescribedValue_ 0 1 7.5%float;
                             Field.setPrescribedValue_ 1 0 (-2)%float] |}.

Definition two_node_field : Field float :=
  {| _values := {| ps_rn := 2; ps_points := [[1; 7.5]; [-2; 4]]%float |};
     _prescribed := Some [ {[ 0%Z := false; 1%Z := true ]};
                           {[ 0%Z := true; 1%Z := false ]} ];
     _prescribedValues := Some [ {[ 0%Z := 0%float; 1%Z := 7.5%float ]};
                                 {[ 0%Z := (-2)%float; 1%Z := 0%float ]} ];
     _eqnums := None;
     _neqns := (-1)%Z |}.

Definition one_dof_field : Field float :=
  {| _values := {| ps_rn := 1; ps_points := [[0%float]] |};
     _prescribed := Some [ {[ 0%Z := false ]} ];
     _prescribedValues := Some [ {[ 0%Z := 0%float ]} ];
     _eqnums := None;
     _neqns := (-1)%Z |}.

(** The one-node field after [neqns()] and then
    [setPrescribedValue_(0, 0, 5)]: its only component is prescribed, and
    the numbering cached before still numbers it. *)
Definition stale_field : Field float :=
  {| _values := {| ps_rn := 1; ps_points := [[5%float]] |};
     _prescribed := Some [ {[ 0%Z := true ]} ];
     _prescribedValues := Some [ {[ 0%Z := 5%float ]} ];
     _eqnums := Some [ {[ 0%Z := 0%Z ]} ];
     _neqns := 1 |}.


(** * Properties *)

(** ** Shape functions *)







Lemma L2_bfun_length_check {T : Type} {N : Num T} (p : vector T) :
  length p ≠ 1 →
  L2.bfun p = Err InvalidInputError ∧ L2.bfundpar p = Err InvalidInputError.
Proof.
  intros Hp.
  unfold L2.bfun, L2.bfundpar, L2._input_contract_l2_param_coords_.
  destruct (Nat.eqb_spec (length p) 1); [lia|]. split; reflexivity.
Qed.

(** C6 fails on [Q4]: its [bfun] and [bfundpar] check nothing and never
    throw.  At the vector [[0.5]] of length 1 the missing coordinate is read
    as [undefined] and every value depending on it is NaN, whereas [L2],
    next to it, rejects that same kind of input (a vector of length 2). *)
Theorem Q4_bfun_no_length_check :
  (∀ p : vector float,
     is_ok (Q4.bfun p) = true ∧ is_ok (Q4.bfundpar p) = true) ∧
  Q4.bfun [0.5%float] = Ok [[nan]; [nan]; [nan]; [nan]] ∧
  Q4.bfundpar [0.5%float] =
    Ok [[nan; (-0.125)%float]; [nan; (-0.375)%float];
        [nan; 0.375%float]; [nan; 0.125%float]] ∧
  L2.bfun [0.5%float; 0.5%float] = Err InvalidInputError ∧
  L2.bfundpar [0.5%float; 0.5%float] = Err InvalidInputError.
Proof.
  split; [intros p; split; reflexivity|].
  repeat split; reflexivity.
Qed.

(** ** Jacobians *)

(** C8: on a 1-manifold cell set ([L2]) [jacobianInDim] is the curve,
    surface and volume Jacobian for [dim] 1, 2 and 3 and fails with
    [UnsupportedDimensionError] for every other [dim]; on a 2-manifold cell
    set ([Q4]) it is the surface and volume Jacobian for [dim] 2 and 3,
    fails for every other [dim], in particular for 1, and so succeeds only
    for 2 and 3. *)
Theorem jacobianInDim_dispatch {T : Type} {N : Num T}
    (g : GCellSet T) (conn : list Z) (Nv J x : matrix T) (d : Z) :
  (cell_type g = type_L2 →
   gcellset.jacobianInDim g conn Nv J x 1
   = Manifold1GCellSet.jacobianCurve g conn Nv J x ∧
   gcellset.jacobianInDim g conn Nv J x 2
   = Manifold1GCellSet.jacobianSurface g conn Nv J x ∧
   gcellset.jacobianInDim g conn Nv J x 3
   = Manifold1GCellSet.jacobianVolumn g conn Nv J x ∧
   (d ≠ 1%Z → d ≠ 2%Z → d ≠ 3%Z →
    gcellset.jacobianInDim g conn Nv J x d = Err UnsupportedDimensionError)) ∧
  (cell_type g = type_Q4 →
   gcellset.jacobianInDim g conn Nv J x 2
   = Manifold2GCellSet.jacobianSurface g conn Nv J x ∧
   gcellset.jacobianInDim g conn Nv J x 3
   = Manifold2GCellSet.jacobianVolumn g conn Nv J x ∧
   gcellset.jacobianInDim g conn Nv J x 1 = Err UnsupportedDimensionError ∧
   (d ≠ 2%Z → d ≠ 3%Z →
    gcellset.jacobianInDim g conn Nv J x d = Err UnsupportedDimensionError) ∧
   (is_ok (gcellset.jacobianInDim g conn Nv J x d) = true →
    d = 2%Z ∨ d = 3%Z)).
Proof.
  unfold gcellset.jacobianInDim. split; intros ->.
  - split; [reflexivity|]. split; [reflexivity|]. split; [reflexivity|].
    intros H1 H2 H3.
    destruct d as [|[[]|[]|]|]; try reflexivity; congruence.
  - split; [reflexivity|]. split; [reflexivity|]. split; [reflexivity|].
    split.
    + intros H2 H3.
      destruct d as [|[[]|[]|]|]; try reflexivity; congruence.
    + destruct d as [|[[]|[]|]|]; simpl; intros H;
        try discriminate; auto.
Qed.

Lemma jacobianInDim_dispatch_witness :
  gcellset.jacobianInDim unit_line [0; 1]%Z [] [[10]; [0]]%float [] 4
  = Err UnsupportedDimensionError ∧
  gcellset.jacobianInDim unit_quad [0; 1; 2; 3]%Z [] [] [] 1
  = Err UnsupportedDimensionError.
Proof.
  split.
  - destruct (proj1 (jacobianInDim_dispatch unit_line [0; 1]%Z []
                       [[10]; [0]]%float [] 4) eq_refl) as (_ & _ & _ & H).
    apply H; lia.
  - destruct (proj2 (jacobianInDim_dispatch unit_quad [0; 1; 2; 3]%Z []
                       [] [] 1) eq_refl) as (_ & _ & H & _).
    exact H.
Defined.

(** In any arithmetic, the value for a 2 x 2 [J] is the product of the
    diagonal minus the product of the anti-diagonal, as the code writes
    it. *)
Lemma jacobianSurface_2x2 {T : Type} {N : Num T}
    (g : GCellSet T) (conn : list Z) (Nv x : matrix T) (a b c d : T) :
  Manifold2GCellSet.jacobianSurface g conn Nv [[a; b]; [c; d]] x
  = Ok (a * d - c * b)%num.
Proof. reflexivity. Qed.

(** C7, as stated, fails in the arithmetic of the program: on the matrix
    whose four entries are [2^700] both products overflow and the
    difference of the two infinities is NaN, while the determinant of a
    matrix of four equal entries is 0, which is what the same code yields
    in exact arithmetic. *)
Lemma jacobianSurface_float_counterexample :
  (∃ r,
     Manifold2GCellSet.jacobianSurface unit_quad [] []
       [[0x1p+700; 0x1p+700]; [0x1p+700; 0x1p+700]]%float [] = Ok r ∧
     PrimFloat.is_nan r = true) ∧
  ∀ a : R,
    det2 [[a; a]; [a; a]] = 0%R ∧
    Manifold2GCellSet.jacobianSurface unit_quad_R [] []
      [[a; a]; [a; a]] [] = Ok 0%R.
Proof.
  split.
  - eexists. split; reflexivity.
  - intros a. split; [simpl; ring|].
    unfold Manifold2GCellSet.jacobianSurface. simpl. f_equal.
    unfold Manifold2GCellSet.entry. simpl. ring.
Qed.

(** C7, amended: on a 2-manifold cell set, [jacobianSurface] returns
    [J00 * J11 - J10 * J01] when [J] is 2 x 2, and when [J] is 3 x 2 the
    norm of the product of the skew matrix of the first column with the
    second column, each evaluated as written in the arithmetic of the
    program, whichever it is; a [J] without exactly two tangent columns
    is refused.  Read in exact real arithmetic, the two values are the
    determinant of [J] and the Euclidean norm of the cross product of the
    two columns of [J]. *)
Theorem jacobianSurface_det_or_cross :
  (∀ (T : Type) (N : Num T) (g : GCellSet T) (conn : list Z)
     (Nv x : matrix T) (a b c d : T),
     Manifold2GCellSet.jacobianSurface g conn Nv [[a; b]; [c; d]] x
     = Ok (a * d - c * b)%num) ∧
  (∀ (T : Type) (N : Num T) (g : GCellSet T) (conn : list Z)
     (Nv x : matrix T) (a1 b1 a2 b2 a3 b3 : T),
     Manifold2GCellSet.jacobianSurface g conn Nv
       [[a1; b1]; [a2; b2]; [a3; b3]] x
     = Ok (numeric.norm
             [(num0 + num0 * b1 + - a3 * b2 + a2 * b3)%num;
              (num0 + a3 * b1 + num0 * b2 + - a1 * b3)%num;
              (num0 + - a2 * b1 + a1 * b2 + num0 * b3)%num])) ∧
  (∀ (T : Type) (N : Num T) (g : GCellSet T) (conn : list Z)
     (Nv J x : matrix T),
     snd (numeric.size J) ≠ 2 →
     Manifold2GCellSet.jacobianSurface g conn Nv J x
     = Err NotImplementedError) ∧
  (∀ (g : GCellSet R) (conn : list Z) (Nv J x : matrix R),
     (has_shape J 2 2 →
      Manifold2GCellSet.jacobianSurface g conn Nv J x = Ok (det2 J)) ∧
     (has_shape J 3 2 →
      Manifold2GCellSet.jacobianSurface g conn Nv J x
      = Ok (euclidean_norm (cross (column J 0) (column J 1))))).
Proof.
  split; [|split; [|split]].
  - reflexivity.
  - reflexivity.
  - intros T N g conn Nv J x Hn. unfold Manifold2GCellSet.jacobianSurface.
    destruct (numeric.size J) as [sdim ntan]. simpl in Hn.
    destruct (Nat.eqb_spec ntan 2); [contradiction|reflexivity].
  - intros g conn Nv J x. split.
    + intros [Hlen Hrows].
      destruct J as [|[|a [|b [|? ?]]] [|[|c [|d [|? ?]]] [|? ?]]];
        try discriminate;
        repeat match goal with
               | H : Forall _ (_ :: _) |- _ => inversion H; clear H; subst
               end; try discriminate.
      unfold Manifold2GCellSet.jacobianSurface. simpl.
      f_equal. unfold Manifold2GCellSet.entry. simpl. ring.
    + intros [Hlen Hrows].
      destruct J as [|[|a [|b [|? ?]]] [|[|c [|d [|? ?]]]
                     [|[|e [|f [|? ?]]] [|? ?]]]];
        try discriminate;
        repeat match goal with
               | H : Forall _ (_ :: _) |- _ => inversion H; clear H; subst
               end; try discriminate.
      unfold Manifold2GCellSet.jacobianSurface. simpl.
      unfold numeric.norm, euclidean_norm, numeric.dotVV. simpl.
      do 2 f_equal. ring.
Qed.

Lemma jacobianSurface_det_or_cross_witness :
  Manifold2GCellSet.jacobianSurface unit_quad_R [] []
    [[2; 1]; [1; 3]]%R [] = Ok (det2 [[2; 1]; [1; 3]]%R) ∧
  Manifold2GCellSet.jacobianSurface unit_quad_R [] []
    [[1; 0]; [0; 1]; [0; 0]]%R []
  = Ok (euclidean_norm (cross [1; 0; 0]%R [0; 1; 0]%R)) ∧
  Manifold2GCellSet.jacobianSurface unit_quad [] []
    [[1; 0; 0]]%float [] = Err NotImplementedError ∧
  Manifold2GCellSet.jacobianSurface unit_quad [] []
    [[2; 1]; [1; 3]]%float [] = Ok (2 * 3 - 1 * 1)%float.
Proof.
  destruct jacobianSurface_det_or_cross as (Hgen & _ & Hrefuse & Hexact).
  split; [|split; [|split]].
  - apply (proj1 (Hexact unit_quad_R [] [] [[2; 1]; [1; 3]]%R [])).
    split; [reflexivity | repeat constructor].
  - apply (proj2 (Hexact unit_quad_R [] [] [[1; 0]; [0; 1]; [0; 0]]%R [])).
    split; [reflexivity | repeat constructor].
  - apply (Hrefuse float float_Num unit_quad [] [] [[1; 0; 0]]%float []).
    simpl. lia.
  - apply (Hgen float float_Num unit_quad [] [] []).
Defined.

(** ** Topology of a constructed cell set *)

Lemma derive_length (k : nat) (top : list (list Z)) :
  length (topology.derive k top) = S k.
Proof.
  revert top. induction k as [|k IH]; intros top; simpl; [reflexivity|].
  rewrite length_app, IH. simpl. lia.
Qed.

Lemma derive_top (k : nat) (top : list (list Z)) :
  nth k (topology.derive k top) [] = top.
Proof.
  destruct k as [|k]; simpl; [reflexivity|].
  rewrite app_nth2; rewrite derive_length; [|lia].
  replace (S k - S k) with 0 by lia. reflexivity.
Qed.

Lemma hypercube_inv conn d t :
  topology.hypercube conn d = Ok t →
  forallb (topology.valid_row d) conn = true ∧ d ≤ 2 ∧
  topology.getDim t = d ∧
  topology.getMaxCells t = omap (fun r => r) conn.
Proof.
  unfold topology.hypercube.
  destruct (forallb (topology.valid_row d) conn) eqn:Hv; simpl; [|discriminate].
  destruct (Nat.leb_spec d 2); [|discriminate].
  intros [= <-]. repeat split; try assumption.
  unfold topology.getMaxCells, topology.getCellsInDim, topology.getDim.
  simpl. apply derive_top.
Qed.

Lemma hypercube_ok conn d :
  forallb (topology.valid_row d) conn = true → d ≤ 2 →
  topology.hypercube conn d =
  Ok {| topo_dim := d;
        topo_cells := topology.derive d (omap (fun r => r) conn) |}.
Proof.
  intros Hv Hd. unfold topology.hypercube. rewrite Hv.
  destruct (Nat.leb_spec d 2); [reflexivity|lia].
Qed.

Lemma hypercube_undefined_row conn d :
  None ∈ conn → topology.hypercube conn d = Err InvalidTopologyError.
Proof.
  intros Hin. unfold topology.hypercube.
  destruct (forallb (topology.valid_row d) conn) eqn:Hv; [|reflexivity].
  rewrite forallb_forall in Hv.
  apply list_elem_of_In in Hin. apply Hv in Hin. discriminate.
Qed.

Section Constructed.
Context {T : Type} {N : Num T}.

Lemma GCellSet_new_inv ct uid (o : InitOption T) g :
  GCellSet.new ct uid o = Ok g →
  ∃ t, opt_topology o = Some t ∧ _topology g = t ∧ cell_type g = ct ∧
       topology.getDim t = dim_of ct ∧
       _axisSymm g = default false (opt_axisSymm o) ∧
       _otherDimension g
       = GCellSet.checked_otherDimension (opt_otherDimension o).
Proof.
  unfold GCellSet.new. destruct (opt_topology o) as [t|]; [|discriminate].
  destruct (negb (_ =? cellSize_of ct)); [discriminate|].
  destruct (Nat.eqb_spec (topology.getDim t) (dim_of ct)); [|discriminate].
  simpl. intros [= <-]. exists t. simpl.
  destruct (opt_axisSymm o); simpl; auto 10.
Qed.

(** A checked other dimension passes the check again unchanged. *)
Lemma checked_otherDimension_idemp (d : option (OtherDimension T)) :
  GCellSet.checked_otherDimension (Some (GCellSet.checked_otherDimension d))
  = GCellSet.checked_otherDimension d.
Proof.
  destruct d as [[v|fn]|]; simpl; try reflexivity.
  - destruct (num_is_number v) eqn:Hv; simpl; [now rewrite Hv|].
    now destruct (num_is_number num1).
  - now destruct (num_is_number num1).
Qed.

(** The cells of a constructed cell set are the rows its constructor was
    given, and each is a valid row of the right width. *)
Lemma constructed_inv (g : GCellSet T) :
  constructed g →
  topology.getDim (_topology g) = dim_of (cell_type g) ∧
  forallb (topology.valid_row (dim_of (cell_type g)))
          (Some <$> GCellSet.conn g) = true.
Proof.
  intros (uid & a & Hc). unfold gcellset.construct in Hc.
  assert (∃ o c t d, d = dim_of (cell_type g) ∧
            topology.hypercube c d = Ok t ∧
            GCellSet.new (cell_type g) uid o = Ok g ∧
            opt_topology o = Some t) as (o & c & t & d & Hd & Hh & Hn & Ht).
  { destruct (cell_type g) eqn:Hct; [unfold L2.new in Hc|unfold Q4.new in Hc];
      destruct a as [o|?]; simpl in Hc; try discriminate;
      destruct (opt_conn o) as [c|]; try discriminate;
      destruct (topology.hypercube c _) as [t|] eqn:Hh; try discriminate;
      simpl in Hc; eauto 10. }
  apply GCellSet_new_inv in Hn as (t' & Ht' & Hg & _ & Hdim & _).
  rewrite Ht in Ht'. injection Ht' as <-.
  apply hypercube_inv in Hh as (Hv & _ & _ & Hmax).
  split; [congruence|].
  unfold GCellSet.conn. rewrite Hg, Hmax, <- Hd.
  clear -Hv. induction c as [|[r|] c IH]; simpl in *; try reflexivity.
  - apply andb_true_iff in Hv as [-> Hv]. simpl. auto.
  - discriminate.
Qed.

(** The other dimension of a constructed cell set has passed the check of
    the constructor, and passes it again unchanged. *)
Lemma constructed_otherDimension (g : GCellSet T) :
  constructed g →
  GCellSet.checked_otherDimension (Some (_otherDimension g))
  = _otherDimension g.
Proof.
  intros (uid & a & Hc). unfold gcellset.construct in Hc.
  assert (∃ o, GCellSet.new (cell_type g) uid o = Ok g) as [o Hn].
  { destruct (cell_type g) eqn:Hct; [unfold L2.new in Hc|unfold Q4.new in Hc];
      destruct a as [o|?]; simpl in Hc; try discriminate;
      destruct (opt_conn o) as [c|]; try discriminate;
      destruct (topology.hypercube c _) as [t|] eqn:Hh; try discriminate;
      simpl in Hc; eauto. }
  apply GCellSet_new_inv in Hn as (t & _ & _ & _ & _ & _ & Hod).
  rewrite Hod. apply checked_otherDimension_idemp.
Qed.
End Constructed.

(** ** Subsets *)

Lemma subset_helper_in_range (rows : list (list Z)) (indices : list Z) :
  Forall (fun i => (0 ≤ i < Z.of_nat (length rows))%Z) indices →
  ∃ sel, GCellSet.subset rows indices = Some <$> sel ∧
         Forall (fun r => r ∈ rows) sel.
Proof.
  induction 1 as [|i indices [Hi0 Hi] _ (sel & Hsel & Hin)].
  - exists []. split; [reflexivity|constructor].
  - destruct (lookup_lt_is_Some_2 rows (Z.to_nat i)) as [r Hr]; [lia|].
    exists (r :: sel). split.
    + unfold GCellSet.subset, js_at in *. simpl. rewrite Hsel, Hr.
      destruct (Z.ltb_spec i 0); [lia|reflexivity].
    + constructor; [|assumption]. eapply list_elem_of_lookup_2, Hr.
Qed.

Lemma subset_helper_out_of_range (rows : list (list Z)) (indices : list Z) :
  Exists (fun i => ¬ (0 ≤ i < Z.of_nat (length rows))%Z) indices →
  None ∈ GCellSet.subset rows indices.
Proof.
  induction 1 as [i indices Hi|i indices _ IH];
    unfold GCellSet.subset, js_at; simpl.
  - destruct (Z.ltb_spec i 0); [left|].
    rewrite lookup_ge_None_2 by lia. left.
  - right. exact IH.
Qed.

Section Subset.
Context {T : Type} {N : Num T}.

Lemma subset_as_construct uid (g : GCellSet T) indices :
  gcellset.subset uid g indices =
  gcellset.construct (cell_type g) uid
    (arg_options
       {| opt_conn := Some (GCellSet.subset (GCellSet.conn g) indices);
          opt_axisSymm := Some (GCellSet.axisSymm g);
          opt_otherDimension := Some (_otherDimension g);
          opt_topology := None |}).
Proof. unfold gcellset.subset. destruct (cell_type g); reflexivity. Qed.

Lemma construct_as_hypercube ct uid (o : InitOption T) c :
  opt_conn o = Some c →
  gcellset.construct ct uid (arg_options o) =
  (t ← topology.hypercube c (dim_of ct);
   GCellSet.new ct uid
     {| opt_conn := opt_conn o;
        opt_axisSymm := opt_axisSymm o;
        opt_otherDimension := opt_otherDimension o;
        opt_topology := Some t |}).
Proof.
  intros Hc. destruct ct; simpl; unfold L2.new, Q4.new; simpl;
    rewrite Hc; reflexivity.
Qed.

Lemma construct_ok ct uid (o : InitOption T) sel :
  opt_conn o = Some (Some <$> sel) →
  forallb (topology.valid_row (dim_of ct)) (Some <$> sel) = true →
  ∃ g', gcellset.construct ct uid (arg_options o) = Ok g' ∧
        cell_type g' = ct ∧ GCellSet.conn g' = sel ∧
        _axisSymm g' = default false (opt_axisSymm o) ∧
        _otherDimension g'
        = GCellSet.checked_otherDimension (opt_otherDimension o).
Proof.
  intros Hc Hv. rewrite (construct_as_hypercube _ _ _ _ Hc).
  rewrite hypercube_ok; [|assumption|destruct ct; simpl; lia].
  assert (omap (fun r => r) (Some <$> sel) = sel) as ->.
  { clear. induction sel as [|r sel IH]; [reflexivity|].
    rewrite fmap_cons. cbn. now rewrite IH. }
  eexists. split.
  - destruct ct; reflexivity.
  - destruct (opt_axisSymm o);
      repeat split; try reflexivity;
      unfold GCellSet.conn, topology.getMaxCells, topology.getCellsInDim;
      simpl; apply derive_top.
Qed.
End Subset.

(** C5, amended: on a constructed cell set, [subset(indices)] with every
    index within [0..count()-1] returns a cell set of the same class whose
    cells are exactly the cells of the original at the given positions, in
    the given order, with the same [axisSymm] and [otherDimension]; with an
    index outside that range it fails, the undefined row being rejected by
    the topology constructor ([InvalidTopologyError]). *)
Theorem subset_spec {T : Type} {N : Num T}
    (g : GCellSet T) (uid : nat) (indices : list Z) :
  constructed g →
  (Forall (fun i => (0 ≤ i < Z.of_nat (GCellSet.count g))%Z) indices →
   ∃ g', gcellset.subset uid g indices = Ok g' ∧
         cell_type g' = cell_type g ∧
         GCellSet.count g' = length indices ∧
         Some <$> GCellSet.conn g' =
           (fun i => GCellSet.conn g !! Z.to_nat i) <$> indices ∧
         GCellSet.axisSymm g' = GCellSet.axisSymm g ∧
         _otherDimension g' = _otherDimension g) ∧
  (Exists (fun i => ¬ (0 ≤ i < Z.of_nat (GCellSet.count g))%Z) indices →
   gcellset.subset uid g indices = Err InvalidTopologyError).
Proof.
  intros Hg. pose proof (constructed_otherDimension g Hg) as Hkeep.
  apply constructed_inv in Hg as [Hdim Hvalid].
  rewrite subset_as_construct. split.
  - intros Hin.
    destruct (subset_helper_in_range (GCellSet.conn g) indices)
      as (sel & Hsel & Hmem); [exact Hin|].
    destruct (construct_ok (cell_type g) uid
                {| opt_conn := Some (GCellSet.subset (GCellSet.conn g) indices);
                   opt_axisSymm := Some (GCellSet.axisSymm g);
                   opt_otherDimension := Some (_otherDimension g);
                   opt_topology := None |} sel)
      as (g' & Hok & Hct & Hconn & Hax & Hod).
    { simpl. now rewrite Hsel. }
    { rewrite forallb_forall in Hvalid. apply forallb_forall.
      intros r Hr. apply Hvalid.
      apply list_elem_of_In in Hr. apply list_elem_of_In.
      apply list_elem_of_fmap in Hr as (r' & -> & Hr').
      apply list_elem_of_fmap. exists r'. split; [reflexivity|].
      rewrite Forall_forall in Hmem. auto. }
    cbn [opt_otherDimension] in Hod. rewrite Hkeep in Hod.
    exists g'. repeat split; try assumption.
    + unfold GCellSet.count, topology.getNumOfCellsInDim.
      change (length (GCellSet.conn g') = length indices).
      rewrite Hconn.
      apply (f_equal length) in Hsel.
      rewrite length_fmap in Hsel. rewrite <- Hsel.
      unfold GCellSet.subset. now rewrite length_map.
    + rewrite Hconn, <- Hsel. unfold GCellSet.subset, js_at.
      apply Forall_fmap_ext_1. eapply Forall_impl; [exact Hin|].
      simpl. intros i [Hi _]. destruct (Z.ltb_spec i 0); [lia|reflexivity].
  - intros Hout.
    erewrite construct_as_hypercube by reflexivity.
    rewrite hypercube_undefined_row; [reflexivity|].
    apply subset_helper_out_of_range. exact Hout.
Qed.

Lemma subset_spec_witness :
  (∃ g', gcellset.subset 8 three_quads [1%Z] = Ok g' ∧
         cell_type g' = type_Q4 ∧
         GCellSet.count g' = 1 ∧
         Some <$> GCellSet.conn g' = [Some [3; 2; 4; 5]%Z] ∧
         GCellSet.axisSymm g' = true ∧
         _otherDimension g' = od_number 2.5%float) ∧
  gcellset.subset 8 three_quads [1; 3]%Z = Err InvalidTopologyError.
Proof.
  assert (constructed three_quads) as Hc.
  { exists 7, (arg_options three_quads_options). reflexivity. }
  split.
  - apply (proj1 (subset_spec three_quads 8 [1%Z] Hc)).
    constructor; [vm_compute; split; [discriminate | reflexivity] | constructor].
  - apply (proj2 (subset_spec three_quads 8 [1; 3]%Z Hc)).
    right. left. vm_compute. intros [_ H]. discriminate H.
Defined.

(** C5, as stated, fails: on the one-cell set, index 5 is out of range; the
    helper does not fail but yields an undefined row, and the failure of
    [subset] is the one of the topology constructor, not an
    [IndexOutOfRangeError]. *)
Lemma subset_out_of_range_counterexample :
  GCellSet.count unit_quad = 1 ∧
  GCellSet.subset (GCellSet.conn unit_quad) [5%Z] = [None] ∧
  gcellset.subset 1 unit_quad [5%Z] = Err InvalidTopologyError ∧
  gcellset.subset 1 unit_quad [5%Z] ≠ Err IndexOutOfRangeError.
Proof. repeat split; try reflexivity. discriminate. Qed.

(** ** Boundary *)

Lemma boundary_never_returns {T : Type} {N : Num T} (g : GCellSet T) uid :
  is_ok (gcellset.boundary uid g) = false.
Proof.
  unfold gcellset.boundary, gcellset.boundaryGCellSetConstructor.
  destruct (cell_type g); simpl; [reflexivity|].
  destruct (topology.boundary (_topology g)); reflexivity.
Qed.

(** C3 fails on the code: for the [Q4] set built from [conn = [[0,1,2,3]]]
    the boundary topology is computed and has the four sides of the quad as
    its edges, but [boundary()] hands that topology itself to the [L2]
    constructor, which finds no [conn] in it and throws; no cell set is
    returned, for this or any other cell set. *)
Theorem Q4_boundary_throws :
  Q4.new 0 (arg_options unit_quad_options) = Ok unit_quad ∧
  (∃ bt, topology.boundary (_topology unit_quad) = Ok bt ∧
         topology.getCellsInDim bt 1 = [[0; 1]; [1; 2]; [2; 3]; [3; 0]]%Z) ∧
  gcellset.boundary 1 unit_quad = Err InvalidInputError ∧
  ∀ (g : GCellSet float) (uid : nat), is_ok (gcellset.boundary uid g) = false.
Proof.
  split; [reflexivity|]. split; [eexists; split; reflexivity|].
  split; [reflexivity|]. intros g uid. apply boundary_never_returns.
Qed.

(** ** Fields: sample evaluations *)

Example two_node_field_built :
  Field.new two_node_options = Ok two_node_field.
Proof. vm_compute. reflexivity. Qed.

Example two_node_field_numbering :
  Field._numberEqnums_ two_node_field =
  (Ok tt, {| _values := _values two_node_field;
             _prescribed := _prescribed two_node_field;
             _prescribedValues := _prescribedValues two_node_field;
             _eqnums := Some [ {[ 0%Z := 0%Z; 1%Z := (-1)%Z ]};
                               {[ 0%Z := (-1)%Z; 1%Z := 1%Z ]} ];
             _neqns := 2 |}).
Proof. vm_compute. reflexivity. Qed.

(** ** Reads and writes of tables *)

Lemma js_at_of_nat {A : Type} (a : list A) (i : nat) :
  js_at a (Z.of_nat i) = a !! i.
Proof.
  unfold js_at. destruct (Z.ltb_spec (Z.of_nat i) 0); [lia|].
  now rewrite Nat2Z.id.
Qed.

Lemma js_at_Some {A : Type} (a : list A) (i : Z) (x : A) :
  js_at a i = Some x → (0 ≤ i < Z.of_nat (length a))%Z.
Proof.
  unfold js_at. destruct (Z.ltb_spec i 0) as [|Hi]; [discriminate|].
  intros Hlt%lookup_lt_Some. lia.
Qed.

Lemma js_at_in_range {A : Type} (a : list A) (i : Z) :
  (0 ≤ i < Z.of_nat (length a))%Z → ∃ x, js_at a i = Some x.
Proof.
  intros Hi. unfold js_at. destruct (Z.ltb_spec i 0); [lia|].
  apply lookup_lt_is_Some_2. lia.
Qed.

Lemma js_at_insert {A : Type} (a : list A) (i i' : Z) (x y : A) :
  js_at a i = Some x →
  js_at (<[Z.to_nat i := y]> a) i' = if decide (i' = i) then Some y else js_at a i'.
Proof.
  intros Hx. pose proof (js_at_Some _ _ _ Hx) as Hi.
  unfold js_at. destruct (decide (i' = i)) as [->|Hne].
  - destruct (Z.ltb_spec i 0); [lia|].
    apply list_lookup_insert_eq. lia.
  - destruct (Z.ltb_spec i' 0); [reflexivity|].
    apply list_lookup_insert_ne. lia.
Qed.

Lemma table_entry_set {A : Type} (t : list (gmap Z A)) (i j i' j' : Z)
    (x : A) (row : gmap Z A) :
  js_at t i = Some row →
  (js_at (<[Z.to_nat i := <[j := x]> row]> t) i' ≫= fun r => r !! j')
  = if decide (i' = i ∧ j' = j) then Some x
    else js_at t i' ≫= fun r => r !! j'.
Proof.
  intros Hrow. rewrite (js_at_insert _ _ _ _ _ Hrow).
  destruct (decide (i' = i)) as [->|Hi]; simpl.
  - rewrite Hrow. simpl. destruct (decide (j' = j)) as [->|Hj].
    + rewrite lookup_insert_eq. destruct (decide _) as [_|[]]; auto.
    + rewrite lookup_insert_ne by congruence.
      destruct (decide _) as [[_ ?]|_]; [contradiction|reflexivity].
  - destruct (decide _) as [[? _]|_]; [contradiction|reflexivity].
Qed.

Lemma values_entry_set {A : Type} (m : list (list A)) (i j i' j' : Z)
    (x : A) (v : list A) :
  js_at m i = Some v → (0 ≤ j < Z.of_nat (length v))%Z →
  (js_at (<[Z.to_nat i := <[Z.to_nat j := x]> v]> m) i' ≫= fun r => js_at r j')
  = if decide (i' = i ∧ j' = j) then Some x
    else js_at m i' ≫= fun r => js_at r j'.
Proof.
  intros Hv Hj. rewrite (js_at_insert _ _ _ _ _ Hv).
  destruct (decide (i' = i)) as [->|Hi]; simpl.
  - rewrite Hv. simpl. unfold js_at.
    destruct (decide (j' = j)) as [->|Hne].
    + destruct (Z.ltb_spec j 0); [lia|].
      rewrite list_lookup_insert_eq by lia.
      destruct (decide _) as [_|[]]; auto.
    + destruct (decide _) as [[_ ?]|_]; [contradiction|].
      destruct (Z.ltb_spec j' 0); [reflexivity|].
      apply list_lookup_insert_ne. lia.
  - destruct (decide _) as [[? _]|_]; [contradiction|reflexivity].
Qed.

(** ** Prescribed values *)

Section SetPrescribed.
Context {T : Type} {N : Num T}.

Lemma setAtDir_size index dir val (p : PointSet T) :
  PointSet.getSize (PointSet.setAtDir_ index dir val p).2 = PointSet.getSize p ∧
  PointSet.getRn (PointSet.setAtDir_ index dir val p).2 = PointSet.getRn p.
Proof.
  unfold PointSet.setAtDir_, PointSet.getSize, PointSet.getRn.
  destruct (js_at (ps_points p) index) as [v|]; [|auto].
  destruct val as [x|]; [|auto].
  destruct (_ && _); simpl; [|auto].
  now rewrite length_insert.
Qed.

(** [setPrescribedValue_] never touches the numbering, whether it returns
    or throws, and leaves the size of the field alone. *)
Lemma setPrescribedValue_cache index dir val (f : Field T) :
  let f' := (Field.setPrescribedValue_ index dir val f).2 in
  _eqnums f' = _eqnums f ∧ _neqns f' = _neqns f ∧
  Field.nfens f' = Field.nfens f ∧ Field.dim f' = Field.dim f.
Proof.
  unfold Field.setPrescribedValue_, Field.nfens, Field.dim.
  destruct (_prescribed f) as [t|]; [|auto].
  destruct (table_set t index dir true) as [t'|]; [|auto]. simpl.
  destruct (_prescribedValues f) as [pv|]; [|auto].
  destruct (table_set pv index dir val) as [pv'|]; [|auto].
  pose proof (setAtDir_size index dir (Some val) (_values f)) as [Hs Hr].
  destruct (PointSet.setAtDir_ index dir (Some val) (_values f)); simpl in *.
  auto.
Qed.
End SetPrescribed.

(** C10: on a field that has its prescribed tables, with [index] a node and
    [dir] a component of the field, [setPrescribedValue_(index, dir, val)]
    returns; afterwards [(index, dir)] is prescribed, its prescribed value
    is [val] and the value of the field there is [val]; every other entry
    of the prescribed table, the prescribed-value table and the values is
    what it was. *)
Theorem setPrescribedValue_frame {T : Type} {N : Num T}
    (f : Field T) (index dir : Z) (val : T) :
  well_shaped f →
  is_Some (_prescribed f) → is_Some (_prescribedValues f) →
  (0 ≤ index < Z.of_nat (Field.nfens f))%Z →
  (0 ≤ dir < Z.of_nat (Field.dim f))%Z →
  ∃ f', Field.setPrescribedValue_ index dir val f = (Ok tt, f') ∧
        Field.isPrescribed f' index dir = Ok (Some true) ∧
        Field.prescribedValue f' index dir = Ok (Some val) ∧
        (∃ v, Field.at_ f' index = Ok v ∧ js_at v dir = Some val) ∧
        (∀ i j, (i, j) ≠ (index, dir) →
           prescribed_entry f' i j = prescribed_entry f i j ∧
           prescribedValues_entry f' i j = prescribedValues_entry f i j ∧
           values_entry f' i j = values_entry f i j).
Proof.
  intros (Hval & Hp & Hpv) [t Ht] [pv Hpvt] Hi Hd.
  specialize (Hp _ Ht). specialize (Hpv _ Hpvt).
  destruct (js_at_in_range t index) as [row Hrow]; [lia|].
  destruct (js_at_in_range pv index) as [vrow Hvrow]; [lia|].
  destruct (js_at_in_range (ps_points (_values f)) index) as [v Hv];
    [unfold Field.nfens, PointSet.getSize in Hi; lia|].
  assert (length v = Field.dim f) as Hlen.
  { rewrite Forall_forall in Hval. apply Hval.
    unfold js_at in Hv. destruct (index <? 0)%Z; [discriminate|].
    eapply list_elem_of_lookup_2, Hv. }
  unfold Field.setPrescribedValue_. rewrite Ht. unfold table_set at 1.
  rewrite Hrow. simpl. rewrite Hpvt. unfold table_set. rewrite Hvrow.
  unfold PointSet.setAtDir_. rewrite Hv.
  destruct (Z.leb_spec 0 dir); [|lia].
  destruct (Z.ltb_spec dir (Z.of_nat (length v))); [|lia]. simpl.
  eexists. split; [reflexivity|].
  assert (∀ i j, (js_at (<[Z.to_nat index := <[dir := true]> row]> t) i
                  ≫= fun r => r !! j)
                 = if decide (i = index ∧ j = dir) then Some true
                   else js_at t i ≫= fun r => r !! j) as Hpe
    by (intros; now apply table_entry_set).
  assert (∀ i j, (js_at (<[Z.to_nat index := <[dir := val]> vrow]> pv) i
                  ≫= fun r => r !! j)
                 = if decide (i = index ∧ j = dir) then Some val
                   else js_at pv i ≫= fun r => r !! j) as Hpve
    by (intros; now apply table_entry_set).
  assert (∀ i j, (js_at (<[Z.to_nat index := <[Z.to_nat dir := val]> v]>
                           (ps_points (_values f))) i
                  ≫= fun r => js_at r j)
                 = if decide (i = index ∧ j = dir) then Some val
                   else js_at (ps_points (_values f)) i ≫= fun r => js_at r j)
    as Hve by (intros; now apply values_entry_set).
  assert (Field.isPrescribed
            {| _values :=
                 {| ps_rn := ps_rn (_values f);
                    ps_points := <[Z.to_nat index := <[Z.to_nat dir := val]> v]>
                                   (ps_points (_values f)) |};
               _prescribed := Some (<[Z.to_nat index := <[dir := true]> row]> t);
               _prescribedValues :=
                 Some (<[Z.to_nat index := <[dir := val]> vrow]> pv);
               _eqnums := _eqnums f;
               _neqns := _neqns f |} index dir = Ok (Some true)) as Hisp.
  { unfold Field.isPrescribed, table_get. simpl.
    rewrite (js_at_insert _ _ _ _ _ Hrow).
    destruct (decide (index = index)); [|congruence].
    now rewrite lookup_insert_eq. }
  split; [exact Hisp|]. split; [|split].
  - unfold Field.prescribedValue. rewrite Hisp. simpl.
    unfold table_get. rewrite (js_at_insert _ _ _ _ _ Hvrow).
    destruct (decide (index = index)); [|congruence].
    now rewrite lookup_insert_eq.
  - unfold Field.at_, PointSet.get. simpl.
    rewrite (js_at_insert _ _ _ _ _ Hv).
    destruct (decide (index = index)); [|congruence].
    eexists. split; [reflexivity|].
    unfold js_at. destruct (Z.ltb_spec dir 0); [lia|].
    apply list_lookup_insert_eq. lia.
  - intros i j Hne.
    unfold prescribed_entry, prescribedValues_entry, values_entry. simpl.
    rewrite Ht, Hpvt. simpl. rewrite Hpe, Hpve, Hve.
    destruct (decide (i = index ∧ j = dir)) as [[-> ->]|_];
      [congruence|auto].
Qed.

Lemma two_node_field_well_shaped : well_shaped two_node_field.
Proof.
  split; [repeat constructor|].
  split; intros t [= <-]; reflexivity.
Defined.

Lemma setPrescribedValue_frame_witness :
  ∃ f', Field.setPrescribedValue_ 1 1 9%float two_node_field = (Ok tt, f') ∧
        Field.isPrescribed f' 1 1 = Ok (Some true) ∧
        Field.prescribedValue f' 1 1 = Ok (Some 9%float) ∧
        (∃ v, Field.at_ f' 1 = Ok v ∧ js_at v 1 = Some 9%float) ∧
        (∀ i j, (i, j) ≠ (1, 1)%Z →
           prescribed_entry f' i j = prescribed_entry two_node_field i j ∧
           prescribedValues_entry f' i j
           = prescribedValues_entry two_node_field i j ∧
           values_entry f' i j = values_entry two_node_field i j).
Proof.
  apply (setPrescribedValue_frame two_node_field 1 1 9%float).
  - exact two_node_field_well_shaped.
  - eexists; reflexivity.
  - eexists; reflexivity.
  - vm_compute. split; [discriminate | reflexivity].
  - vm_compute. split; [discriminate | reflexivity].
Defined.

(** ** The cached numbering *)

(** C9, as stated, fails: number the one-node field (one free equation),
    then prescribe its only component.  The component is now prescribed, but
    [neqns()] still answers 1 and [eqnum(0, 0)] still answers 0: the cache
    is not the numbering of the new prescribed table, which has no free
    equation. *)
Lemma stale_numbering_counterexample :
  ∃ f0 f1 f2,
    Field.new one_dof_options = Ok f0 ∧
    Field.neqns f0 = (Ok 1%Z, f1) ∧
    Field.setPrescribedValue_ 0 0 5%float f1 = (Ok tt, f2) ∧
    Field.isPrescribed f2 0 0 = Ok (Some true) ∧
    (Field.neqns f2).1 = Ok 1%Z ∧
    (Field.eqnum 0 0 f2).1 = Ok (Some 0%Z) ∧
    count_free f2 (dofs f2) = 0 ∧
    ¬ numbering_current f2.
Proof.
  do 3 eexists.
  split; [vm_compute; reflexivity|].
  split; [vm_compute; reflexivity|].
  split; [vm_compute; reflexivity|].
  split; [vm_compute; reflexivity|].
  split; [vm_compute; reflexivity|].
  split; [vm_compute; reflexivity|].
  split; [vm_compute; reflexivity|].
  intros [H|H]; vm_compute in H; discriminate H.
Qed.

(** C9, amended: once the equation numbers are cached,
    [setPrescribedValue_] leaves the cache as it is, so [neqns()] and
    [eqnum()] keep answering from the numbering computed on first demand;
    the prescribed table is taken into account by a numbering that has not
    been computed yet. *)
Theorem setPrescribedValue_keeps_numbering {T : Type} {N : Num T}
    (f : Field T) (index dir : Z) (val : T) :
  let f' := (Field.setPrescribedValue_ index dir val f).2 in
  (∀ e, _eqnums f = Some e →
        _eqnums f' = Some e ∧
        Field.neqns f' = (Ok (_neqns f), f') ∧
        (Field.neqns f').1 = (Field.neqns f).1 ∧
        ∀ i j, (Field.eqnum i j f').1 = (Field.eqnum i j f).1) ∧
  (_eqnums f = None → _eqnums f' = None ∧ numbering_current f').
Proof.
  intros f'.
  destruct (setPrescribedValue_cache index dir val f) as (He & Hn & Hnf & Hd).
  fold f' in He, Hn, Hnf, Hd. clearbody f'. split.
  - intros e Hfe. rewrite Hfe in He.
    assert (Field.neqns f' = (Ok (_neqns f), f')) as Hneq.
    { unfold Field.neqns, Field.ensure_numbered. rewrite He. now rewrite Hn. }
    repeat split; try assumption.
    + rewrite Hneq. unfold Field.neqns, Field.ensure_numbered.
      now rewrite Hfe.
    + intros i j. unfold Field.eqnum, Field.ensure_numbered.
      rewrite He, Hfe. simpl. rewrite He, Hfe, Hnf, Hd.
      destruct (_ || _); [reflexivity|].
      destruct (_ || _); reflexivity.
  - intros Hfe. rewrite Hfe in He. split; [assumption|now left].
Qed.

Lemma setPrescribedValue_keeps_numbering_witness :
  let f := (Field._numberEqnums_ two_node_field).2 in
  let f' := (Field.setPrescribedValue_ 0 0 5%float f).2 in
  Field.neqns f' = (Ok 2%Z, f') ∧ (Field.eqnum 0 0 f').1 = Ok (Some 0%Z).
Proof.
  intros f f'.
  destruct (setPrescribedValue_keeps_numbering f 0 0 5%float) as [H _].
  destruct (H [ {[ 0%Z := 0%Z; 1%Z := (-1)%Z ]};
                {[ 0%Z := (-1)%Z; 1%Z := 1%Z ]} ]) as (_ & Hn & _ & He).
  - vm_compute. reflexivity.
  - split; [exact Hn|].
    etransitivity; [exact (He 0%Z 0%Z)|]. vm_compute. reflexivity.
Defined.

(** ** Loops *)

Lemma for_list_app {I S : Type} (body : I → S → result unit * S)
    (l1 l2 : list I) (s : S) :
  for_list body (l1 ++ l2) s =
  match for_list body l1 s with
  | (Ok _, s') => for_list body l2 s'
  | (Err e, s') => (Err e, s')
  end.
Proof.
  revert s. induction l1 as [|i l1 IH]; intros s; simpl; [reflexivity|].
  destruct (body i s) as [[[]|e] s']; [apply IH|reflexivity].
Qed.

Lemma for_list_ext {I S : Type} (body1 body2 : I → S → result unit * S)
    (l : list I) (s : S) :
  (∀ i s, body1 i s = body2 i s) →
  for_list body1 l s = for_list body2 l s.
Proof.
  intros Hb. revert s. induction l as [|i l IH]; intros s; simpl;
    [reflexivity|].
  rewrite Hb. destruct (body2 i s) as [[[]|e] s']; [apply IH|reflexivity].
Qed.

(** Two nested loops scan the pairs of indices in row-major order. *)
Lemma for_list_nested {S : Type} (body : nat → nat → S → result unit * S)
    (rows cols : list nat) (s : S) :
  for_list (fun i => for_list (body i) cols) rows s =
  for_list (fun d => body d.1 d.2) (i ← rows; j ← cols; [(i, j)]) s.
Proof.
  revert s. induction rows as [|i rows IH]; intros s; [reflexivity|].
  rewrite bind_cons, for_list_app. simpl.
  assert (∀ s, for_list (fun d => body d.1 d.2) (j ← cols; [(i, j)]) s
               = for_list (body i) cols s) as ->.
  { clear. induction cols as [|j cols IH]; intros s; [reflexivity|].
    rewrite bind_cons. simpl.
    destruct (body i j s) as [[[]|e] s']; [apply IH|reflexivity]. }
  destruct (for_list (body i) cols s) as [[[]|e] s']; [apply IH|reflexivity].
Qed.

Section Dofs.
Context {T : Type} {N : Num T}.

Lemma elem_of_dofs (f : Field T) (d : nat * nat) :
  d ∈ dofs f ↔ d.1 < Field.nfens f ∧ d.2 < Field.dim f.
Proof.
  unfold dofs. rewrite list_elem_of_bind. split.
  - intros (i & Hd & Hi). apply list_elem_of_bind in Hd as (j & Hd & Hj).
    apply list_elem_of_singleton in Hd as ->.
    apply elem_of_seq in Hi. apply elem_of_seq in Hj. simpl. lia.
  - intros [Hi Hj]. exists d.1. split; [|apply elem_of_seq; lia].
    apply list_elem_of_bind. exists d.2. split; [|apply elem_of_seq; lia].
    destruct d. now apply list_elem_of_singleton.
Qed.

Lemma NoDup_dofs (f : Field T) : NoDup (dofs f).
Proof.
  unfold dofs. apply NoDup_bind; [| |apply NoDup_seq].
  - intros i1 i2 d _ _ (j1 & H1 & _)%list_elem_of_bind
                       (j2 & H2 & _)%list_elem_of_bind.
    apply list_elem_of_singleton in H1, H2. congruence.
  - intros i _. apply NoDup_bind; [| |apply NoDup_seq].
    + intros j1 j2 d _ _ H1%list_elem_of_singleton H2%list_elem_of_singleton.
      congruence.
    + intros j _. apply NoDup_singleton.
Qed.

Lemma length_dofs (f : Field T) :
  length (dofs f) = Field.nfens f * Field.dim f.
Proof.
  unfold dofs. generalize (Field.nfens f) as n, (Field.dim f) as m.
  intros n m.
  assert (∀ (i : nat) (cols : list nat),
            length (j ← cols; [(i, j)]) = length cols) as Hinner.
  { intros i cols. induction cols as [|j cols IH]; [reflexivity|].
    rewrite bind_cons, length_app, IH. reflexivity. }
  assert (∀ rows cols : list nat,
            length (i ← rows; j ← cols; [(i, j)])
            = length rows * length cols) as Houter.
  { intros rows cols. induction rows as [|i rows IH]; [reflexivity|].
    rewrite bind_cons, length_app, IH, Hinner. reflexivity. }
  rewrite Houter, !length_seq. reflexivity.
Qed.

Lemma count_free_prescribed (f : Field T) (l : list (nat * nat)) :
  count_free f l + count_prescribed f l = length l.
Proof.
  unfold count_free, count_prescribed.
  induction l as [|d l IH]; [reflexivity|].
  destruct (prescribed_at f d) eqn:Hd.
  - rewrite (filter_cons_False _ d) by congruence.
    rewrite (filter_cons_True _ d) by congruence. simpl. lia.
  - rewrite (filter_cons_True _ d) by congruence.
    rewrite (filter_cons_False _ d) by congruence. simpl. lia.
Qed.

Lemma count_free_cons (f : Field T) d l :
  count_free f (d :: l) =
  (if prescribed_at f d then 0 else 1) + count_free f l.
Proof.
  unfold count_free. destruct (prescribed_at f d) eqn:Hd.
  - now rewrite filter_cons_False by congruence.
  - now rewrite filter_cons_True by congruence.
Qed.

Lemma isPrescribed_ok (f : Field T) (i : nat) (j : Z) :
  well_shaped f → i < Field.nfens f →
  ∃ p, Field.isPrescribed f (Z.of_nat i) j = Ok p.
Proof.
  intros (_ & Hp & _) Hi. unfold Field.isPrescribed.
  destruct (_prescribed f) as [t|]; [|eauto].
  specialize (Hp t eq_refl). unfold table_get. rewrite js_at_of_nat.
  destruct (lookup_lt_is_Some_2 t i) as [row ->]; [lia|]. eauto.
Qed.
End Dofs.

(** ** Equation numbering *)

Section Numbering.
Context {T : Type} {N : Num T}.

Lemma eqnum_at_js (e : list (gmap Z Z)) (d : nat * nat) :
  eqnum_at e d = js_at e (Z.of_nat d.1) ≫= fun r => r !! Z.of_nat d.2.
Proof. unfold eqnum_at. now rewrite js_at_of_nat. Qed.

Lemma number_body_prescribed (f : Field T) i j st :
  prescribed_at f (i, j) = true →
  Field.number_body f i j st = (Ok tt, st).
Proof.
  unfold prescribed_at, Field.number_body. simpl. destruct st as [e c].
  destruct (Field.isPrescribed f _ _) as [p|]; [|discriminate].
  now intros ->.
Qed.

Lemma number_body_free (f : Field T) i j e c :
  prescribed_at f (i, j) = false →
  is_ok (Field.isPrescribed f (Z.of_nat i) (Z.of_nat j)) = true →
  i < length e →
  ∃ e', Field.number_body f i j (e, c) = (Ok tt, (e', (c + 1)%Z)) ∧
        length e' = length e ∧
        ∀ d, eqnum_at e' d
             = if decide (d = (i, j)) then Some c else eqnum_at e d.
Proof.
  unfold prescribed_at, Field.number_body. simpl.
  destruct (Field.isPrescribed f _ _) as [p|]; [|discriminate].
  intros -> _ Hi. simpl.
  destruct (lookup_lt_is_Some_2 e i Hi) as [row Hrow].
  assert (js_at e (Z.of_nat i) = Some row) as Hjs
    by now rewrite js_at_of_nat.
  unfold table_set. rewrite Hjs.
  eexists. split; [reflexivity|]. split; [apply length_insert|].
  intros d. rewrite !eqnum_at_js.
  rewrite (table_entry_set _ _ _ _ _ _ _ Hjs).
  destruct d as [a b]. simpl.
  destruct (decide (Z.of_nat a = Z.of_nat i ∧ Z.of_nat b = Z.of_nat j))
    as [[Ha Hb]|Hne];
    destruct (decide ((a, b) = (i, j))) as [Heq|Hneq]; try reflexivity.
  - exfalso. apply Hneq. f_equal; lia.
  - exfalso. apply Hne. injection Heq as -> ->. auto.
Qed.

(** The invariant of the numbering loop over a duplicate-free list [l] of
    degrees of freedom, started from the table [e] and the counter [c]. *)
Lemma number_loop (f : Field T) (l : list (nat * nat)) :
  ∀ (e : list (gmap Z Z)) (c : Z),
    NoDup l →
    (∀ d, d ∈ l → d.1 < length e) →
    (∀ d, d ∈ l →
          is_ok (Field.isPrescribed f (Z.of_nat d.1) (Z.of_nat d.2)) = true) →
    ∃ e', for_list (fun d => Field.number_body f d.1 d.2) l (e, c)
          = (Ok tt, (e', (c + Z.of_nat (count_free f l))%Z)) ∧
          length e' = length e ∧
          (∀ d, d ∉ l → eqnum_at e' d = eqnum_at e d) ∧
          (∀ d, prescribed_at f d = true → eqnum_at e' d = eqnum_at e d) ∧
          (∀ l1 d l2, l = l1 ++ d :: l2 → prescribed_at f d = false →
             eqnum_at e' d = Some (c + Z.of_nat (count_free f l1))%Z).
Proof.
  induction l as [|[i j] l IH]; intros e c Hnd Hrow Hok.
  - exists e. simpl. rewrite Z.add_0_r.
    repeat split; auto. intros [|? ?] ? ? Heq; discriminate Heq.
  - apply NoDup_cons in Hnd as [Hnotin Hnd].
    rewrite count_free_cons. cbn [for_list fst snd].
    destruct (prescribed_at f (i, j)) eqn:Hp.
    + rewrite (number_body_prescribed _ _ _ _ Hp).
      destruct (IH e c Hnd) as (e' & Hrun & Hlen & Hout & Hpre & Hfree).
      { intros d Hd. apply Hrow. now right. }
      { intros d Hd. apply Hok. now right. }
      exists e'. simpl. rewrite Hrun. repeat split; auto.
      * intros d Hd. apply Hout. intros Hin. apply Hd. now right.
      * intros l1 d l2 Heq Hd. destruct l1 as [|d1 l1]; simpl in Heq.
        -- injection Heq as <- _. congruence.
        -- injection Heq as <- Heq. rewrite count_free_cons, Hp. simpl.
           eapply Hfree; eauto.
    + destruct (number_body_free f i j e c Hp) as (e1 & Hstep & Hlen1 & Hget).
      { apply (Hok (i, j)). now left. }
      { apply (Hrow (i, j)). now left. }
      rewrite Hstep.
      destruct (IH e1 (c + 1)%Z Hnd) as (e' & Hrun & Hlen & Hout & Hpre & Hfree).
      { intros d Hd. rewrite Hlen1. apply Hrow. now right. }
      { intros d Hd. apply Hok. now right. }
      exists e'. rewrite Hrun. split; [do 2 f_equal; lia|].
      split; [congruence|]. split; [|split].
      * intros d Hd. apply not_elem_of_cons in Hd as [Hne Hd].
        rewrite (Hout d Hd), Hget. destruct (decide _); congruence.
      * intros d Hd. rewrite (Hpre d Hd), Hget.
        destruct (decide _); congruence.
      * intros l1 d l2 Heq Hd. destruct l1 as [|d1 l1]; simpl in Heq.
        -- injection Heq as <- _. rewrite (Hout _ Hnotin), Hget.
           destruct (decide _); [|congruence].
           simpl. now rewrite Z.add_0_r.
        -- injection Heq as <- Heq. rewrite count_free_cons, Hp.
           rewrite (Hfree _ _ _ Heq Hd). f_equal. lia.
Qed.

(** The numbers given to the free degrees of freedom, listed in scan
    order, are the consecutive integers from [c]. *)
Lemma free_numbers_consecutive (f : Field T) (g : nat * nat → option Z)
    (l : list (nat * nat)) :
  ∀ c : Z,
    (∀ l1 d l2, l = l1 ++ d :: l2 → prescribed_at f d = false →
                g d = Some (c + Z.of_nat (count_free f l1))%Z) →
    omap g (filter (fun d => prescribed_at f d = false) l)
    = seqZ c (Z.of_nat (count_free f l)).
Proof.
  induction l as [|d l IH]; intros c Hg; [reflexivity|].
  rewrite count_free_cons. destruct (prescribed_at f d) eqn:Hd.
  - rewrite filter_cons_False by congruence. simpl. apply IH.
    intros l1 d' l2 Heq Hd'.
    rewrite (Hg (d :: l1) d' l2); [|now rewrite Heq|assumption].
    now rewrite count_free_cons, Hd.
  - rewrite filter_cons_True by assumption.
    rewrite seqZ_cons by lia. cbn [omap list_omap].
    rewrite (Hg [] d l eq_refl Hd). simpl. rewrite Z.add_0_r.
    f_equal. replace (Z.pred (Z.of_nat (1 + count_free f l)))
      with (Z.of_nat (count_free f l)) by lia.
    apply IH. intros l1 d' l2 Heq Hd'.
    rewrite (Hg (d :: l1) d' l2); [|now rewrite Heq|assumption].
    rewrite count_free_cons, Hd. f_equal. lia.
Qed.
End Numbering.

Lemma array1d_lookup {A : Type} (n : nat) (v : A) (j : nat) :
  j < n → array1d n v !! Z.of_nat j = Some v.
Proof.
  intros Hj. unfold array1d. apply elem_of_list_to_map_1.
  - rewrite <- list_fmap_compose. apply NoDup_fmap_2; [|apply NoDup_seq].
    intros a b Hab. simpl in Hab. lia.
  - apply list_elem_of_fmap. exists j. split; [reflexivity|].
    apply elem_of_seq. lia.
Qed.

Lemma array2d_lookup {A : Type} (m n : nat) (v : A) (i j : nat) :
  i < m → j < n →
  array2d m n v !! i ≫= (fun row => row !! Z.of_nat j) = Some v.
Proof.
  intros Hi Hj. unfold array2d.
  rewrite lookup_replicate_2 by assumption. simpl.
  now apply array1d_lookup.
Qed.

Section NumberEqnums.
Context {T : Type} {N : Num T}.

(** The two nested loops of [_numberEqnums_], run on a well-shaped
    field. *)
Lemma numbering_loops (f : Field T) :
  well_shaped f →
  ∃ e,
    for_ (Field.nfens f)
         (fun i => for_ (Field.dim f) (fun j => Field.number_body f i j))
         (array2d (Field.nfens f) (Field.dim f) Field.INVALID_EQUATION_NUM,
          0%Z)
    = (Ok tt, (e, Z.of_nat (count_free f (dofs f)))) ∧
    (∀ d, d ∈ dofs f → prescribed_at f d = true →
          eqnum_at e d = Some Field.INVALID_EQUATION_NUM) ∧
    (∀ l1 d l2, dofs f = l1 ++ d :: l2 → prescribed_at f d = false →
          eqnum_at e d = Some (Z.of_nat (count_free f l1))).
Proof.
  intros Hwf. unfold for_. rewrite for_list_nested. fold (dofs f).
  destruct (number_loop f (dofs f)
              (array2d (Field.nfens f) (Field.dim f)
                       Field.INVALID_EQUATION_NUM) 0%Z)
    as (e & Hrun & _ & _ & Hpre & Hfree).
  - apply NoDup_dofs.
  - intros d [Hd _]%elem_of_dofs. unfold array2d.
    now rewrite length_replicate.
  - intros d [Hd _]%elem_of_dofs.
    destruct (isPrescribed_ok f d.1 (Z.of_nat d.2) Hwf Hd) as [p ->].
    reflexivity.
  - exists e. split; [exact Hrun|]. split.
    + intros d [Hi Hj]%elem_of_dofs Hd. rewrite (Hpre d Hd).
      unfold eqnum_at. now apply array2d_lookup.
    + intros l1 d l2 Heq Hd. rewrite (Hfree l1 d l2 Heq Hd).
      f_equal.
Qed.

Lemma number_body_same_prescribed (f g : Field T) i j st :
  _prescribed g = _prescribed f →
  Field.number_body g i j st = Field.number_body f i j st.
Proof.
  intros Hp. unfold Field.number_body, Field.isPrescribed.
  now rewrite Hp.
Qed.
End NumberEqnums.

(** C1, as stated, fails on a field that was numbered before one of its
    components was prescribed: on the one-node field after [neqns()] and
    then [setPrescribedValue_(0, 0, 5)], the table the field holds gives
    the prescribed component the number 0, not the invalid marker, and
    [neqns()] answers 1 although [nfens*dim] minus the number of
    prescribed entries is 0. *)
Lemma numbering_stale_cache_counterexample :
  ∃ f0 f1,
    Field.new one_dof_options = Ok f0 ∧
    Field.neqns f0 = (Ok 1%Z, f1) ∧
    Field.setPrescribedValue_ 0 0 5%float f1 = (Ok tt, stale_field) ∧
    well_shaped stale_field ∧
    prescribed_at stale_field (0, 0) = true ∧
    (Field.eqnum 0 0 stale_field).1 = Ok (Some 0%Z) ∧
    Some 0%Z ≠ Some Field.INVALID_EQUATION_NUM ∧
    (Field.neqns stale_field).1 = Ok 1%Z ∧
    (Z.of_nat (Field.nfens stale_field * Field.dim stale_field)
     - Z.of_nat (count_prescribed stale_field (dofs stale_field)))%Z = 0%Z.
Proof.
  do 2 eexists.
  split; [vm_compute; reflexivity|].
  split; [vm_compute; reflexivity|].
  split; [vm_compute; reflexivity|].
  split.
  { split; [repeat constructor|]. split; intros t [= <-]; reflexivity. }
  split; [vm_compute; reflexivity|].
  split; [vm_compute; reflexivity|].
  split; [discriminate|].
  split; vm_compute; reflexivity.
Qed.

(** C1, amended: on every well-shaped field, numbering returns; every
    prescribed entry of the table it computes carries the invalid marker;
    the number of a free entry is the number of free entries scanned
    before it, nodes in order and components within each node, so that
    the numbers of the free entries, in scan order, are exactly
    [0, 1, ..., neqns-1]; [neqns] is [nfens*dim] minus the number of
    prescribed entries, and is what [neqns()] answers when the numbering
    the field holds is current (not yet computed, or computed from the
    present prescribed table); and a field of the same size with the same
    prescribed table gets the same table of equation numbers. *)
Theorem numbering_spec {T : Type} {N : Num T} (f : Field T) :
  well_shaped f →
  ∃ e : list (gmap Z Z),
    Field._numberEqnums_ f
    = (Ok tt, {| _values := _values f;
                 _prescribed := _prescribed f;
                 _prescribedValues := _prescribedValues f;
                 _eqnums := Some e;
                 _neqns := Z.of_nat (count_free f (dofs f)) |}) ∧
    (∀ d, d ∈ dofs f → prescribed_at f d = true →
          eqnum_at e d = Some Field.INVALID_EQUATION_NUM) ∧
    (∀ l1 d l2, dofs f = l1 ++ d :: l2 → prescribed_at f d = false →
          eqnum_at e d = Some (Z.of_nat (count_free f l1))) ∧
    omap (eqnum_at e) (filter (fun d => prescribed_at f d = false) (dofs f))
    = seqZ 0 (Z.of_nat (count_free f (dofs f))) ∧
    Z.of_nat (count_free f (dofs f))
    = (Z.of_nat (Field.nfens f * Field.dim f)
       - Z.of_nat (count_prescribed f (dofs f)))%Z ∧
    (numbering_current f →
     (Field.neqns f).1
     = Ok (Z.of_nat (Field.nfens f * Field.dim f)
           - Z.of_nat (count_prescribed f (dofs f)))%Z) ∧
    (∀ g : Field T,
       Field.nfens g = Field.nfens f → Field.dim g = Field.dim f →
       _prescribed g = _prescribed f →
       _eqnums (Field._numberEqnums_ g).2 = Some e).
Proof.
  intros Hwf.
  destruct (numbering_loops f Hwf) as (e & Hrun & Hpre & Hfree).
  assert (Z.of_nat (count_free f (dofs f))
          = (Z.of_nat (Field.nfens f * Field.dim f)
             - Z.of_nat (count_prescribed f (dofs f)))%Z) as Hcount.
  { pose proof (count_free_prescribed f (dofs f)) as Hsum.
    rewrite length_dofs in Hsum. lia. }
  assert (Field._numberEqnums_ f
          = (Ok tt, {| _values := _values f;
                       _prescribed := _prescribed f;
                       _prescribedValues := _prescribedValues f;
                       _eqnums := Some e;
                       _neqns := Z.of_nat (count_free f (dofs f)) |}))
    as Hnum.
  { unfold Field._numberEqnums_. now rewrite Hrun. }
  exists e. split; [exact Hnum|]. split; [exact Hpre|].
  split; [exact Hfree|]. split; [|split; [exact Hcount|split]].
  - apply free_numbers_consecutive. intros l1 d l2 Heq Hd.
    rewrite (Hfree l1 d l2 Heq Hd). reflexivity.
  - rewrite <- Hcount. intros [Hnone|Hcur].
    + unfold Field.neqns, Field.ensure_numbered. rewrite Hnone, Hnum.
      reflexivity.
    + rewrite Hnum in Hcur. injection Hcur as Hf.
      unfold Field.neqns, Field.ensure_numbered. rewrite <- Hf. reflexivity.
  - intros g Hn Hd Hp. unfold Field._numberEqnums_. rewrite Hn, Hd.
    unfold for_ in *.
    erewrite for_list_ext; [rewrite Hrun; reflexivity|].
    intros i st. apply for_list_ext. intros j st'.
    now apply number_body_same_prescribed.
Qed.

Lemma numbering_spec_witness :
  ∃ e : list (gmap Z Z),
    Field._numberEqnums_ two_node_field
    = (Ok tt, {| _values := _values two_node_field;
                 _prescribed := _prescribed two_node_field;
                 _prescribedValues := _prescribedValues two_node_field;
                 _eqnums := Some e;
                 _neqns := 2 |}) ∧
    eqnum_at e (0, 1) = Some (-1)%Z ∧
    eqnum_at e (1, 1) = Some 1%Z ∧
    (Field.neqns two_node_field).1 = Ok 2%Z.
Proof.
  destruct (numbering_spec two_node_field two_node_field_well_shaped)
    as (e & Hnum & Hpre & Hfree & _ & _ & Hneq & _).
  exists e. split; [exact Hnum|]. split; [|split].
  - apply Hpre; [|reflexivity]. apply elem_of_dofs. vm_compute. lia.
  - apply (Hfree [(0, 0); (0, 1); (1, 0)] (1, 1) []); reflexivity.
  - apply Hneq. left. reflexivity.
Defined.

(** ** Scatter *)

Section Scatter.
Context {T : Type} {N : Num T}.

Lemma value_at_entry (f : Field T) (d : nat * nat) :
  value_at f d = ps_entry (_values f) d.
Proof.
  unfold value_at, ps_entry, Field.at_, PointSet.get.
  rewrite js_at_of_nat. now destruct (ps_points (_values f) !! d.1).
Qed.

Lemma table_get_eqnum_at (e : list (gmap Z Z)) (d : nat * nat) (n : Z) :
  eqnum_at e d = Some n →
  table_get e (Z.of_nat d.1) (Z.of_nat d.2) = Ok (Some n).
Proof.
  unfold eqnum_at, table_get. rewrite js_at_of_nat.
  destruct (e !! d.1) as [row|]; [|discriminate]. simpl. now intros ->.
Qed.

Lemma setAtDir_entry (p : PointSet T) (i j : nat) (x y : T) :
  ps_entry p (i, j) = Some y →
  ∃ p', PointSet.setAtDir_ (Z.of_nat i) (Z.of_nat j) (Some x) p = (Ok tt, p') ∧
        (ps_rn p' = ps_rn p ∧
         length (ps_points p') = length (ps_points p)) ∧
        ∀ d, ps_entry p' d = if decide (d = (i, j)) then Some x
                             else ps_entry p d.
Proof.
  unfold ps_entry. simpl. intros Hy.
  destruct (ps_points p !! i) as [v|] eqn:Hv; [|discriminate].
  simpl in Hy. pose proof (lookup_lt_Some _ _ _ Hy) as Hj.
  pose proof (lookup_lt_Some _ _ _ Hv) as Hi.
  unfold PointSet.setAtDir_. rewrite js_at_of_nat, Hv.
  destruct (Z.leb_spec 0 (Z.of_nat j)); [|lia].
  destruct (Z.ltb_spec (Z.of_nat j) (Z.of_nat (length v))); [|lia].
  simpl. rewrite !Nat2Z.id. eexists. split; [reflexivity|].
  split; [split; [reflexivity|apply length_insert]|]. intros [a b]. simpl.
  destruct (decide ((a, b) = (i, j))) as [[= -> ->]|Hne].
  - rewrite list_lookup_insert_eq by assumption. simpl.
    now apply list_lookup_insert_eq.
  - destruct (decide (a = i)) as [->|Ha].
    + rewrite list_lookup_insert_eq by assumption. rewrite Hv. simpl.
      apply list_lookup_insert_ne. congruence.
    + now rewrite list_lookup_insert_ne by congruence.
Qed.

(** The invariant of the scatter loop over a list [l] of degrees of
    freedom: an entry numbered [n] receives [vec[n]], every other entry
    is left as it was. *)
Lemma scatter_loop (e : list (gmap Z Z)) (vec : vector T)
    (l : list (nat * nat)) :
  ∀ p : PointSet T,
    (∀ d, d ∈ l → ∃ n, eqnum_at e d = Some n ∧
                       (n = Field.INVALID_EQUATION_NUM ∨
                        is_Some (js_at vec n))) →
    (∀ d, d ∈ l → is_Some (ps_entry p d)) →
    ∃ p', for_list (fun d => Field.scatter_body e vec d.1 d.2) l p
          = (Ok tt, p') ∧
          (ps_rn p' = ps_rn p ∧
           length (ps_points p') = length (ps_points p)) ∧
          (∀ d, is_Some (ps_entry p d) → is_Some (ps_entry p' d)) ∧
          (∀ d, d ∉ l → ps_entry p' d = ps_entry p d) ∧
          (∀ d, eqnum_at e d = Some Field.INVALID_EQUATION_NUM →
                ps_entry p' d = ps_entry p d) ∧
          (∀ d n, d ∈ l → eqnum_at e d = Some n →
                  n ≠ Field.INVALID_EQUATION_NUM →
                  ps_entry p' d = js_at vec n).
Proof.
  induction l as [|[i j] l IH]; intros p Hnum Hent.
  - exists p. repeat split; auto. intros d n Hd. inversion Hd.
  - destruct (Hnum (i, j)) as (n & Hn & Hcase); [now left|].
    cbn [for_list fst snd]. unfold Field.scatter_body at 1.
    pose proof (table_get_eqnum_at _ _ _ Hn) as Hget0. simpl in Hget0.
    rewrite Hget0. clear Hget0.
    destruct (decide (n = Field.INVALID_EQUATION_NUM)) as [->|Hvalid].
    + rewrite bool_decide_eq_true_2 by reflexivity. simpl.
      destruct (IH p) as (p' & Hrun & Hrn & Hsome & Hout & Hinv & Hset).
      { intros d Hd. apply Hnum. now right. }
      { intros d Hd. apply Hent. now right. }
      exists p'. rewrite Hrun. split; [reflexivity|].
      split; [exact Hrn|]. split; [exact Hsome|]. split; [|split].
      * intros d Hd. apply Hout. intros Hin. apply Hd. now right.
      * exact Hinv.
      * intros d m Hd Hm Hne. apply elem_of_cons in Hd as [->|Hd];
          [congruence|eauto].
    + rewrite bool_decide_eq_false_2 by congruence. simpl.
      destruct Hcase as [?|[x Hx]]; [contradiction|]. rewrite Hx.
      destruct (Hent (i, j)) as [y Hy]; [now left|].
      destruct (setAtDir_entry p i j x y Hy) as (p1 & Hstep & Hrn1 & Hget).
      rewrite Hstep.
      assert (∀ d, is_Some (ps_entry p d) → is_Some (ps_entry p1 d)) as Hs1.
      { intros d Hd. rewrite Hget. destruct (decide _); eauto. }
      destruct (IH p1) as (p' & Hrun & Hrn & Hsome & Hout & Hinv & Hset).
      { intros d Hd. apply Hnum. now right. }
      { intros d Hd. apply Hs1, Hent. now right. }
      exists p'. rewrite Hrun. split; [reflexivity|].
      split; [destruct Hrn, Hrn1; split; congruence|].
      split; [auto|]. split; [|split].
      * intros d Hd. apply not_elem_of_cons in Hd as [Hne Hd].
        rewrite (Hout d Hd), Hget. destruct (decide _); congruence.
      * intros d Hd. rewrite (Hinv d Hd), Hget.
        destruct (decide _) as [->|_]; [congruence|reflexivity].
      * intros d m Hd Hm Hne.
        destruct (decide (d ∈ l)) as [Hin|Hnin]; [eauto|].
        apply elem_of_cons in Hd as [->|Hd]; [|contradiction].
        rewrite (Hout _ Hnin), Hget.
        destruct (decide _); [|congruence]. congruence.
Qed.
End Scatter.

Lemma omap_ext_in {A B : Type} (g h : A → option B) (l : list A) :
  (∀ x, x ∈ l → g x = h x) → omap g l = omap h l.
Proof.
  induction l as [|x l IH]; intros Hgh; [reflexivity|].
  cbn [omap list_omap]. rewrite (Hgh x) by now left.
  rewrite IH; [reflexivity|]. intros y Hy. apply Hgh. now right.
Qed.

Lemma omap_bind {A B C : Type} (g : A → option B) (h : B → option C)
    (l : list A) :
  omap (fun x => g x ≫= h) l = omap h (omap g l).
Proof.
  induction l as [|x l IH]; [reflexivity|].
  cbn [omap list_omap]. destruct (g x) as [y|]; simpl; [|exact IH].
  cbn [omap list_omap]. now rewrite IH.
Qed.

Lemma omap_js_at_seqZ {A : Type} (pre vec : list A) :
  omap (js_at (pre ++ vec))
       (seqZ (Z.of_nat (length pre)) (Z.of_nat (length vec))) = vec.
Proof.
  revert pre. induction vec as [|x vec IH]; intros pre; [reflexivity|].
  rewrite seqZ_cons by (simpl; lia). cbn [omap list_omap].
  rewrite js_at_of_nat, list_lookup_middle by reflexivity.
  f_equal. specialize (IH (pre ++ [x])).
  rewrite <- app_assoc, length_app in IH. simpl in IH.
  replace (Z.succ (Z.of_nat (length pre)))
    with (Z.of_nat (length pre + 1)) by lia.
  replace (Z.pred (Z.of_nat (length (x :: vec))))
    with (Z.of_nat (length vec)) by (simpl; lia).
  exact IH.
Qed.

Section ScatterRoundTrip.
Context {T : Type} {N : Num T}.

Lemma count_free_app (f : Field T) l1 l2 :
  count_free f (l1 ++ l2) = count_free f l1 + count_free f l2.
Proof. unfold count_free. now rewrite filter_app, length_app. Qed.

(** What [neqns()] leaves behind on a field whose numbering is current:
    the numbering of the prescribed table, cached. *)
Lemma neqns_numbered (f : Field T) :
  well_shaped f → numbering_current f →
  ∃ e,
    Field.neqns f
    = (Ok (Z.of_nat (count_free f (dofs f))),
       {| _values := _values f;
          _prescribed := _prescribed f;
          _prescribedValues := _prescribedValues f;
          _eqnums := Some e;
          _neqns := Z.of_nat (count_free f (dofs f)) |}) ∧
    (∀ d, d ∈ dofs f → prescribed_at f d = true →
          eqnum_at e d = Some Field.INVALID_EQUATION_NUM) ∧
    (∀ l1 d l2, dofs f = l1 ++ d :: l2 → prescribed_at f d = false →
          eqnum_at e d = Some (Z.of_nat (count_free f l1))).
Proof.
  intros Hwf Hcur.
  destruct (numbering_loops f Hwf) as (e & Hrun & Hpre & Hfree).
  assert (Field._numberEqnums_ f
          = (Ok tt, {| _values := _values f;
                       _prescribed := _prescribed f;
                       _prescribedValues := _prescribedValues f;
                       _eqnums := Some e;
                       _neqns := Z.of_nat (count_free f (dofs f)) |}))
    as Hnum by (unfold Field._numberEqnums_; now rewrite Hrun).
  exists e. split; [|split; assumption].
  unfold Field.neqns, Field.ensure_numbered. destruct Hcur as [Hnone|Hcur].
  - now rewrite Hnone, Hnum.
  - rewrite Hnum in Hcur. injection Hcur as Hf. now rewrite <- Hf.
Qed.

Lemma entry_of_dof (f : Field T) (d : nat * nat) :
  well_shaped f → d ∈ dofs f → is_Some (ps_entry (_values f) d).
Proof.
  intros (Hrows & _) [Hi Hj]%elem_of_dofs. unfold ps_entry.
  destruct (lookup_lt_is_Some_2 (ps_points (_values f)) d.1 Hi) as [v Hv].
  rewrite Hv. simpl. apply lookup_lt_is_Some_2.
  rewrite Forall_forall in Hrows. rewrite (Hrows v); [assumption|].
  eapply list_elem_of_lookup_2, Hv.
Qed.
End ScatterRoundTrip.

(** C2, amended: on a well-shaped field whose numbering is current (not yet
    computed, or computed from the present prescribed table), with [N] free
    equations, and for every vector [v] of length [N],
    [scatterSystemVector_(v)] returns; afterwards each free entry read
    through [at()] is exactly [v[eqnum(node, component)]], each prescribed
    entry has the value it had before the call, and the free entries read
    in scan order give back [v] itself. *)
Theorem scatter_round_trip {T : Type} {N : Num T}
    (f : Field T) (vec : vector T) :
  well_shaped f → numbering_current f →
  (Field.neqns f).1 = Ok (Z.of_nat (length vec)) →
  ∃ f', Field.scatterSystemVector_ vec f = (Ok tt, f') ∧
        (∀ d, d ∈ dofs f → prescribed_at f d = false →
           ∃ n, (Field.eqnum (Z.of_nat d.1) (Z.of_nat d.2) f').1 = Ok (Some n) ∧
                is_Some (js_at vec n) ∧
                value_at f' d = js_at vec n) ∧
        (∀ d, d ∈ dofs f → prescribed_at f d = true →
           value_at f' d = value_at f d) ∧
        omap (value_at f')
             (filter (fun d => prescribed_at f d = false) (dofs f)) = vec ∧
        (∀ d, prescribed_at f' d = prescribed_at f d).
Proof.
  intros Hwf Hcur Hlen.
  destruct (neqns_numbered f Hwf Hcur) as (e & Hneq & Hpre & Hfree).
  rewrite Hneq in Hlen. simpl in Hlen. injection Hlen as Hlen.
  set (f1 := {| _values := _values f;
                _prescribed := _prescribed f;
                _prescribedValues := _prescribedValues f;
                _eqnums := Some e;
                _neqns := Z.of_nat (count_free f (dofs f)) |}) in *.
  assert (∀ d, d ∈ dofs f → prescribed_at f d = false →
               ∃ n, eqnum_at e d = Some n ∧ n ≠ Field.INVALID_EQUATION_NUM ∧
                    is_Some (js_at vec n)) as Hnumfree.
  { intros d Hd Hp. destruct (list_elem_of_split _ _ Hd) as (l1 & l2 & Heq).
    exists (Z.of_nat (count_free f l1)). split; [now apply (Hfree l1 d l2)|].
    split; [unfold Field.INVALID_EQUATION_NUM; lia|].
    rewrite js_at_of_nat. apply lookup_lt_is_Some_2.
    rewrite Heq, count_free_app, count_free_cons, Hp in Hlen. lia. }
  destruct (scatter_loop e vec (dofs f) (_values f))
    as (p' & Hrun & [Hrn Hsize] & _ & _ & Hinv & Hset).
  { intros d Hd. destruct (prescribed_at f d) eqn:Hp.
    - exists Field.INVALID_EQUATION_NUM. split; [now apply Hpre|now left].
    - destruct (Hnumfree d Hd Hp) as (n & Hn & _ & Hvec). eauto. }
  { intros d Hd. now apply entry_of_dof. }
  set (f' := {| _values := p';
                _prescribed := _prescribed f;
                _prescribedValues := _prescribedValues f;
                _eqnums := Some e;
                _neqns := Z.of_nat (count_free f (dofs f)) |}).
  assert (Field.scatterSystemVector_ vec f = (Ok tt, f')) as Hscatter.
  { unfold Field.scatterSystemVector_. rewrite Hneq.
    unfold Field.isVectorOfDimension. rewrite <- Hlen, Z.eqb_refl. simpl.
    unfold for_. rewrite for_list_nested.
    change (i ← seq 0 (Field.nfens f1); j ← seq 0 (Field.dim f1); [(i, j)])
      with (dofs f).
    rewrite Hrun. reflexivity. }
  assert (∀ d, d ∈ dofs f → prescribed_at f d = false →
               ∃ n, (Field.eqnum (Z.of_nat d.1) (Z.of_nat d.2) f').1
                    = Ok (Some n) ∧
                    is_Some (js_at vec n) ∧ value_at f' d = js_at vec n)
    as Hread.
  { intros d Hd Hp. destruct (Hnumfree d Hd Hp) as (n & Hn & Hne & Hvec).
    exists n. split; [|split; [exact Hvec|]].
    - apply elem_of_dofs in Hd as [Hi Hj].
      unfold Field.eqnum, Field.ensure_numbered. simpl.
      unfold Field.nfens, Field.dim, PointSet.getSize, PointSet.getRn in *.
      simpl. rewrite Hsize, Hrn.
      destruct (Z.ltb_spec (Z.of_nat d.1) 0); [lia|].
      destruct (Z.leb_spec (Z.of_nat (length (ps_points (_values f))))
                           (Z.of_nat d.1)); [lia|].
      destruct (Z.ltb_spec (Z.of_nat d.2) 0); [lia|].
      destruct (Z.leb_spec (Z.of_nat (ps_rn (_values f))) (Z.of_nat d.2));
        [lia|].
      simpl. now apply table_get_eqnum_at.
    - rewrite value_at_entry. simpl. now apply Hset. }
  exists f'. split; [exact Hscatter|]. split; [exact Hread|].
  split; [|split].
  - intros d Hd Hp. rewrite !value_at_entry. simpl.
    apply Hinv. now apply Hpre.
  - rewrite (omap_ext_in _ (fun d => eqnum_at e d ≫= js_at vec)).
    + rewrite omap_bind.
      rewrite (free_numbers_consecutive f (eqnum_at e) (dofs f) 0%Z).
      * rewrite Hlen. apply (omap_js_at_seqZ [] vec).
      * intros l1 d l2 Heq Hp. now rewrite (Hfree l1 d l2 Heq Hp).
    + intros d [Hp Hd]%list_elem_of_filter.
      destruct (Hnumfree d Hd Hp) as (n & Hn & Hne & _).
      rewrite Hn, value_at_entry. simpl. now apply Hset.
  - intros d. reflexivity.
Qed.

Lemma scatter_round_trip_witness :
  ∃ f', Field.scatterSystemVector_ [10; 20]%float two_node_field = (Ok tt, f') ∧
        omap (value_at f') [(0, 0); (1, 1)] = [10; 20]%float ∧
        value_at f' (0, 1) = Some 7.5%float ∧
        value_at f' (1, 0) = Some (-2)%float.
Proof.
  destruct (scatter_round_trip two_node_field [10; 20]%float)
    as (f' & Hscatter & _ & Hkeep & Hall & _).
  - exact two_node_field_well_shaped.
  - left. reflexivity.
  - vm_compute. reflexivity.
  - exists f'. split; [exact Hscatter|]. split; [exact Hall|]. split.
    + apply (Hkeep (0, 1)); [|reflexivity]. apply elem_of_dofs. vm_compute. lia.
    + apply (Hkeep (1, 0)); [|reflexivity]. apply elem_of_dofs. vm_compute. lia.
Defined.

Example two_node_field_scatter :
  (Field.scatterSystemVector_ [10; 20]%float two_node_field).2 =
  {| _values := {| ps_rn := 2; ps_points := [[10; 7.5]; [-2; 20]]%float |};
     _prescribed := _prescribed two_node_field;
     _prescribedValues := _prescribedValues two_node_field;
     _eqnums := Some [ {[ 0%Z := 0%Z; 1%Z := (-1)%Z ]};
                       {[ 0%Z := (-1)%Z; 1%Z := 1%Z ]} ];
     _neqns := 2 |}.
Proof. vm_compute. reflexivity. Qed.

(** C2, as stated, fails: on the one-node field that is numbered first
    and prescribed afterwards, the cached table still numbers the
    prescribed component; [neqns()] answers 1, and scattering a vector of
    length 1 returns and overwrites the prescribed value 5 with 7. *)
Lemma scatter_stale_numbering_counterexample :
  ∃ f0 f1 f2,
    Field.new one_dof_options = Ok f0 ∧
    Field.neqns f0 = (Ok 1%Z, f1) ∧
    Field.setPrescribedValue_ 0 0 5%float f1 = (Ok tt, f2) ∧
    well_shaped f2 ∧
    (Field.neqns f2).1 = Ok (Z.of_nat (length [7%float])) ∧
    prescribed_at f2 (0, 0) = true ∧
    value_at f2 (0, 0) = Some 5%float ∧
    (Field.scatterSystemVector_ [7%float] f2).1 = Ok tt ∧
    value_at (Field.scatterSystemVector_ [7%float] f2).2 (0, 0)
    = Some 7%float ∧
    value_at (Field.scatterSystemVector_ [7%float] f2).2 (0, 0)
    ≠ value_at f2 (0, 0).
Proof.
  exists one_dof_field, (Field.neqns one_dof_field).2, stale_field.
  split; [vm_compute; reflexivity|].
  split; [vm_compute; reflexivity|].
  split; [vm_compute; reflexivity|].
  split.
  { split; [repeat constructor|]. split; intros t [= <-]; reflexivity. }
  split; [vm_compute; reflexivity|].
  split; [vm_compute; reflexivity|].
  split; [vm_compute; reflexivity|].
  split; [vm_compute; reflexivity|].
  split; [vm_compute; reflexivity|].
  vm_compute. intros H. discriminate H.
Qed.

(** ** The hypotheses are invariants of construction *)

Section Construction.
Context {T : Type} {N : Num T}.

Lemma setPrescribedValue_well_shaped index dir val (f : Field T) :
  well_shaped f → well_shaped (Field.setPrescribedValue_ index dir val f).2.
Proof.
  intros Hwf. pose proof Hwf as (Hrows & Hp & Hpv).
  unfold Field.setPrescribedValue_.
  destruct (_prescribed f) as [t|] eqn:Ht; [|exact Hwf].
  unfold table_set at 1.
  destruct (js_at t index) as [row|]; [|exact Hwf].
  simpl. specialize (Hp t eq_refl).
  assert (∀ pv' values',
            Forall (fun v => length v = ps_rn values') (ps_points values') →
            length (ps_points values') = Field.nfens f →
            (∀ t', pv' = Some t' → length t' = Field.nfens f) →
            well_shaped
              {| _values := values';
                 _prescribed := Some (<[Z.to_nat index := <[dir := true]> row]> t);
                 _prescribedValues := pv';
                 _eqnums := _eqnums f;
                 _neqns := _neqns f |}) as Hok.
  { intros pv' values' Hr Hl Hpv'. unfold well_shaped, Field.nfens, Field.dim,
      PointSet.getSize, PointSet.getRn in *. simpl.
    split; [exact Hr|]. split; [|now rewrite Hl].
    intros t' [= <-]. now rewrite length_insert, Hl. }
  destruct (_prescribedValues f) as [pv|] eqn:Hpvt;
    [|apply Hok; [exact Hrows|reflexivity|discriminate]].
  unfold table_set.
  destruct (js_at pv index) as [vrow|];
    [|apply Hok; [exact Hrows|reflexivity|intros t' [= <-]; now apply Hpv]].
  unfold PointSet.setAtDir_.
  assert (∀ t', Some (<[Z.to_nat index := <[dir := val]> vrow]> pv) = Some t' →
                length t' = Field.nfens f) as Hpv'.
  { intros t' [= <-]. rewrite length_insert. now apply Hpv. }
  destruct (js_at (ps_points (_values f)) index) as [v|] eqn:Hv;
    [|apply Hok; [exact Hrows|reflexivity|exact Hpv']].
  destruct (_ && _); [|apply Hok; [exact Hrows|reflexivity|exact Hpv']].
  apply Hok; simpl; [|apply length_insert|exact Hpv'].
  unfold Field.dim, PointSet.getRn in Hrows.
  apply Forall_insert; [exact Hrows|]. rewrite length_insert.
  rewrite Forall_forall in Hrows. apply Hrows.
  unfold js_at in Hv. destruct (index <? 0)%Z; [discriminate|].
  eapply list_elem_of_lookup_2, Hv.
Qed.

(** A field built by the constructor on [nfens] zero points of dimension
    [dim], with boundary conditions that prescribe values, is well shaped
    and not numbered yet. *)
Lemma new_well_shaped (nfens dim : nat) (bcs : list (Z * Z * T)) (f : Field T) :
  Field.new {| Field.opt_values := None;
               Field.opt_pointset := None;
               Field.opt_fens := None;
               Field.opt_nfens := Some nfens;
               Field.opt_dim := Some dim;
               Field.opt_ebcs :=
                 Some ((fun bc => Field.setPrescribedValue_ bc.1.1 bc.1.2 bc.2)
                         <$> bcs) |} = Ok f →
  well_shaped f ∧ numbering_current f.
Proof.
  unfold Field.new. simpl.
  set (f1 := {| _values := PointSet.zeros nfens dim;
                _prescribed := _; _prescribedValues := _;
                _eqnums := None; _neqns := (-1)%Z |}).
  assert (well_shaped f1 ∧ _eqnums f1 = None) as Hf1.
  { split; [|reflexivity]. unfold well_shaped. simpl.
    split; [apply Forall_replicate, length_replicate|].
    split; intros t [= <-]; unfold array2d, Field.nfens, PointSet.getSize;
      simpl; now rewrite !length_replicate. }
  clearbody f1. revert f1 Hf1.
  induction bcs as [|[[i j] v] bcs IH]; intros f1 [Hwf Hnone]; simpl.
  - intros [= <-]. split; [exact Hwf|now left].
  - pose proof (setPrescribedValue_well_shaped i j v f1 Hwf) as Hwf'.
    destruct (setPrescribedValue_cache i j v f1) as (He & _).
    destruct (Field.setPrescribedValue_ i j v f1) as [[[]|e] f2];
      [|discriminate].
    apply IH. split; [exact Hwf'|]. simpl in He. congruence.
Qed.
End Construction.

(** * Further properties *)

(** ** Numbering on demand *)

Section OnDemand.
Context {T : Type} {N : Num T}.

Lemma dofs_numbered (f : Field T) e : dofs (numbered f e) = dofs f.
Proof. reflexivity. Qed.

Lemma prescribed_at_numbered (f : Field T) e d :
  prescribed_at (numbered f e) d = prescribed_at f d.
Proof. reflexivity. Qed.

Lemma count_free_same (f g : Field T) l :
  (∀ d, prescribed_at g d = prescribed_at f d) →
  count_free g l = count_free f l.
Proof.
  intros Hp. induction l as [|d l IH]; [reflexivity|].
  now rewrite !count_free_cons, Hp, IH.
Qed.

(** Numbering a well-shaped field yields [numbered f e] for a table [e]
    that marks the prescribed entries and ranks the free ones; numbering
    that field again changes nothing. *)
Lemma numberEqnums_numbered (f : Field T) :
  well_shaped f →
  ∃ e,
    Field._numberEqnums_ f = (Ok tt, numbered f e) ∧
    Field._numberEqnums_ (numbered f e) = (Ok tt, numbered f e) ∧
    (∀ d, d ∈ dofs f → prescribed_at f d = true →
          eqnum_at e d = Some Field.INVALID_EQUATION_NUM) ∧
    (∀ l1 d l2, dofs f = l1 ++ d :: l2 → prescribed_at f d = false →
          eqnum_at e d = Some (Z.of_nat (count_free f l1))).
Proof.
  intros Hwf.
  destruct (numbering_loops f Hwf) as (e & Hrun & Hpre & Hfree).
  exists e. split; [|split; [|split; assumption]].
  - unfold Field._numberEqnums_. now rewrite Hrun.
  - unfold Field._numberEqnums_.
    change (Field.nfens (numbered f e)) with (Field.nfens f).
    change (Field.dim (numbered f e)) with (Field.dim f).
    unfold for_ in *.
    erewrite for_list_ext; [rewrite Hrun; reflexivity|].
    intros i st. apply for_list_ext. intros j st'.
    now apply number_body_same_prescribed.
Qed.

(** What the first lines of [neqns], [eqnum] and [scatterSystemVector_]
    do to a field whose numbering is current. *)
Lemma ensure_numbered_current (f : Field T) :
  well_shaped f → numbering_current f →
  ∃ e,
    Field.ensure_numbered f = (Ok tt, numbered f e) ∧
    Field.ensure_numbered (numbered f e) = (Ok tt, numbered f e) ∧
    (_eqnums f ≠ None → numbered f e = f) ∧
    (∀ d, d ∈ dofs f → prescribed_at f d = true →
          eqnum_at e d = Some Field.INVALID_EQUATION_NUM) ∧
    (∀ l1 d l2, dofs f = l1 ++ d :: l2 → prescribed_at f d = false →
          eqnum_at e d = Some (Z.of_nat (count_free f l1))).
Proof.
  intros Hwf Hcur.
  destruct (numberEqnums_numbered f Hwf) as (e & Hnum & _ & Hpre & Hfree).
  exists e. split; [|split; [reflexivity|split; [|split; assumption]]].
  - unfold Field.ensure_numbered. destruct Hcur as [Hnone|Hcur].
    + now rewrite Hnone.
    + rewrite Hnum in Hcur. injection Hcur as Hf.
      rewrite <- Hf at 1. simpl. now rewrite Hf.
  - intros Hsome. destruct Hcur as [Hnone|Hcur]; [contradiction|].
    rewrite Hnum in Hcur. now injection Hcur.
Qed.

Lemma well_shaped_numbered (f : Field T) e :
  well_shaped f → well_shaped (numbered f e).
Proof. intros Hwf. exact Hwf. Qed.

Lemma rank_lt_count (f : Field T) l1 d l2 :
  prescribed_at f d = false →
  count_free f l1 < count_free f (l1 ++ d :: l2).
Proof.
  intros Hd. rewrite count_free_app, count_free_cons, Hd. lia.
Qed.
End OnDemand.

(** X1: on a well-shaped field whose numbering is current, [eqnum(index,
    direction)] fails with [IndexOutOfRangeError] exactly when the node or
    the direction is out of range; in range it returns the invalid marker
    for a prescribed entry and a number between [0] and [neqns() - 1] for a
    free one. *)
Theorem eqnum_bounds {T : Type} {N : Num T}
    (f : Field T) (index direction : Z) :
  well_shaped f → numbering_current f →
  ((0 ≤ index < Z.of_nat (Field.nfens f))%Z ∧
   (0 ≤ direction < Z.of_nat (Field.dim f))%Z →
   ∃ n neqns,
     (Field.eqnum index direction f).1 = Ok (Some n) ∧
     (Field.neqns f).1 = Ok neqns ∧
     (prescribed_at f (Z.to_nat index, Z.to_nat direction) = true →
      n = Field.INVALID_EQUATION_NUM) ∧
     (prescribed_at f (Z.to_nat index, Z.to_nat direction) = false →
      (0 ≤ n < neqns)%Z)) ∧
  (¬ ((0 ≤ index < Z.of_nat (Field.nfens f))%Z ∧
      (0 ≤ direction < Z.of_nat (Field.dim f))%Z) →
   (Field.eqnum index direction f).1 = Err IndexOutOfRangeError).
Proof.
  intros Hwf Hcur.
  destruct (ensure_numbered_current f Hwf Hcur)
    as (e & Hens & _ & _ & Hpre & Hfree).
  unfold Field.eqnum, Field.neqns. rewrite Hens.
  change (Field.nfens (numbered f e)) with (Field.nfens f).
  change (Field.dim (numbered f e)) with (Field.dim f).
  split.
  - intros [Hi Hj].
    destruct (Z.ltb_spec index 0); [lia|].
    destruct (Z.leb_spec (Z.of_nat (Field.nfens f)) index); [lia|].
    destruct (Z.ltb_spec direction 0); [lia|].
    destruct (Z.leb_spec (Z.of_nat (Field.dim f)) direction); [lia|].
    simpl.
    set (d := (Z.to_nat index, Z.to_nat direction)).
    assert (d ∈ dofs f) as Hd by (apply elem_of_dofs; simpl; lia).
    assert (∀ n, eqnum_at e d = Some n →
                 table_get e index direction = Ok (Some n)) as Hget.
    { intros n Hn. apply table_get_eqnum_at in Hn. simpl in Hn.
      now rewrite !Z2Nat.id in Hn by lia. }
    destruct (prescribed_at f d) eqn:Hp.
    + exists Field.INVALID_EQUATION_NUM, (Z.of_nat (count_free f (dofs f))).
      rewrite (Hget _ (Hpre d Hd Hp)).
      split; [reflexivity|]. split; [reflexivity|].
      split; [reflexivity|discriminate].
    + destruct (list_elem_of_split _ _ Hd) as (l1 & l2 & Heq).
      exists (Z.of_nat (count_free f l1)), (Z.of_nat (count_free f (dofs f))).
      rewrite (Hget _ (Hfree l1 d l2 Heq Hp)).
      split; [reflexivity|]. split; [reflexivity|].
      split; [discriminate|]. intros _.
      pose proof (rank_lt_count f l1 d l2 Hp) as Hlt.
      rewrite <- Heq in Hlt. lia.
  - intros Hout.
    destruct (Z.ltb_spec index 0); [reflexivity|].
    destruct (Z.leb_spec (Z.of_nat (Field.nfens f)) index); [reflexivity|].
    destruct (Z.ltb_spec direction 0); [reflexivity|].
    destruct (Z.leb_spec (Z.of_nat (Field.dim f)) direction); [reflexivity|].
    exfalso. apply Hout. lia.
Qed.

Lemma eqnum_bounds_witness :
  (∃ n neqns,
     (Field.eqnum 1 1 two_node_field).1 = Ok (Some n) ∧
     (Field.neqns two_node_field).1 = Ok neqns ∧
     (prescribed_at two_node_field (1, 1) = true →
      n = Field.INVALID_EQUATION_NUM) ∧
     (prescribed_at two_node_field (1, 1) = false → (0 ≤ n < neqns)%Z)) ∧
  (Field.eqnum 2 0 two_node_field).1 = Err IndexOutOfRangeError.
Proof.
  split.
  - apply (proj1 (eqnum_bounds two_node_field 1 1
                    two_node_field_well_shaped (or_introl eq_refl))).
    vm_compute. repeat split; discriminate.
  - apply (proj2 (eqnum_bounds two_node_field 2 0
                    two_node_field_well_shaped (or_introl eq_refl))).
    vm_compute. intros [[_ H] _]. discriminate H.
Defined.

(** ** Position of a degree of freedom in the scan *)

Lemma length_pairs_row (i : nat) (cols : list nat) :
  length (j ← cols; [(i, j)]) = length cols.
Proof.
  induction cols as [|j cols IH]; [reflexivity|].
  rewrite bind_cons, length_app, IH. reflexivity.
Qed.

Lemma length_pairs (rows cols : list nat) :
  length (i ← rows; j ← cols; [(i, j)]) = length rows * length cols.
Proof.
  induction rows as [|i rows IH]; [reflexivity|].
  rewrite bind_cons, length_app, IH, length_pairs_row. reflexivity.
Qed.

Lemma seq_split (n i : nat) :
  i < n → seq 0 n = seq 0 i ++ i :: seq (S i) (n - S i).
Proof.
  intros Hi. replace n with (i + S (n - S i)) at 1 by lia.
  rewrite seq_app. reflexivity.
Qed.

Lemma dofs_position {T : Type} {N : Num T} (f : Field T) (i j : nat) :
  i < Field.nfens f → j < Field.dim f →
  ∃ l1 l2, dofs f = l1 ++ (i, j) :: l2 ∧
           length l1 = i * Field.dim f + j.
Proof.
  intros Hi Hj. unfold dofs.
  rewrite (seq_split _ _ Hi), bind_app, bind_cons.
  assert ((j' ← seq 0 (Field.dim f); [(i, j')])
          = (j' ← seq 0 j; [(i, j')])
            ++ (i, j) :: (j' ← seq (S j) (Field.dim f - S j); [(i, j')]))
    as Hrow.
  { rewrite (seq_split _ _ Hj) at 1. now rewrite bind_app, bind_cons. }
  rewrite Hrow.
  exists ((i' ← seq 0 i; j' ← seq 0 (Field.dim f); [(i', j')])
          ++ (j' ← seq 0 j; [(i, j')])),
         ((j' ← seq (S j) (Field.dim f - S j); [(i, j')])
          ++ (i' ← seq (S i) (Field.nfens f - S i);
              j' ← seq 0 (Field.dim f); [(i', j')])).
  split.
  - now rewrite <- !app_assoc.
  - rewrite length_app, length_pairs, length_pairs_row, !length_seq.
    reflexivity.
Qed.

Lemma count_free_all {T : Type} {N : Num T} (f : Field T)
    (l : list (nat * nat)) :
  (∀ d, d ∈ l → prescribed_at f d = false) → count_free f l = length l.
Proof.
  induction l as [|d l IH]; intros Hl; [reflexivity|].
  rewrite count_free_cons, (Hl d) by now left.
  simpl. f_equal. apply IH. intros d' Hd'. apply Hl. now right.
Qed.

(** X2: on a well-shaped field with no prescribed entry, the equation
    number of component [j] of node [i] is [i * dim + j], and [neqns()] is
    [nfens * dim]. *)
Theorem unconstrained_numbering {T : Type} {N : Num T}
    (f : Field T) (i j : nat) :
  well_shaped f → numbering_current f →
  (∀ d, d ∈ dofs f → prescribed_at f d = false) →
  i < Field.nfens f → j < Field.dim f →
  (Field.eqnum (Z.of_nat i) (Z.of_nat j) f).1
  = Ok (Some (Z.of_nat (i * Field.dim f + j))) ∧
  (Field.neqns f).1 = Ok (Z.of_nat (Field.nfens f * Field.dim f)).
Proof.
  intros Hwf Hcur Hfree_all Hi Hj.
  destruct (ensure_numbered_current f Hwf Hcur)
    as (e & Hens & _ & _ & _ & Hfree).
  unfold Field.eqnum, Field.neqns. rewrite Hens.
  change (Field.nfens (numbered f e)) with (Field.nfens f).
  change (Field.dim (numbered f e)) with (Field.dim f).
  split.
  - destruct (Z.ltb_spec (Z.of_nat i) 0); [lia|].
    destruct (Z.leb_spec (Z.of_nat (Field.nfens f)) (Z.of_nat i)); [lia|].
    destruct (Z.ltb_spec (Z.of_nat j) 0); [lia|].
    destruct (Z.leb_spec (Z.of_nat (Field.dim f)) (Z.of_nat j)); [lia|].
    simpl. destruct (dofs_position f i j Hi Hj) as (l1 & l2 & Heq & Hlen).
    assert ((i, j) ∈ dofs f) as Hd by (apply elem_of_dofs; simpl; lia).
    pose proof (Hfree l1 (i, j) l2 Heq (Hfree_all _ Hd)) as Hn.
    rewrite count_free_all in Hn.
    + rewrite Hlen in Hn. now apply table_get_eqnum_at in Hn.
    + intros d Hin. apply Hfree_all. rewrite Heq.
      apply elem_of_app. now left.
  - simpl. now rewrite (count_free_all f (dofs f) Hfree_all), length_dofs.
Qed.

Lemma one_dof_field_well_shaped : well_shaped one_dof_field.
Proof.
  split; [repeat constructor|]. split; intros t [= <-]; reflexivity.
Defined.

Lemma unconstrained_numbering_witness :
  (Field.eqnum 0 0 one_dof_field).1 = Ok (Some 0%Z) ∧
  (Field.neqns one_dof_field).1 = Ok 1%Z.
Proof.
  refine (unconstrained_numbering one_dof_field 0 0
            one_dof_field_well_shaped (or_introl eq_refl) _ _ _).
  - intros d Hd. apply elem_of_dofs in Hd as [Hi Hj].
    destruct d as [[|?] [|?]]; [reflexivity| | |];
      vm_compute in Hi, Hj; lia.
  - vm_compute. lia.
  - vm_compute. lia.
Defined.

Example one_dof_field_built : Field.new one_dof_options = Ok one_dof_field.
Proof. vm_compute. reflexivity. Qed.

(** X3: on a well-shaped field whose numbering is current, the first
    [neqns()] caches the numbering without touching the values or the
    prescribed tables; from then on [neqns()] and [eqnum()] answer the same
    and leave the field exactly as it is. *)
Theorem numbering_is_cached {T : Type} {N : Num T} (f : Field T) :
  well_shaped f → numbering_current f →
  ∃ f1 n,
    Field.neqns f = (Ok n, f1) ∧
    Field.neqns f1 = (Ok n, f1) ∧
    (∀ i j, Field.eqnum i j f1 = ((Field.eqnum i j f).1, f1) ∧
            (Field.eqnum i j f).2 = f1) ∧
    _values f1 = _values f ∧
    _prescribed f1 = _prescribed f ∧
    _prescribedValues f1 = _prescribedValues f ∧
    _eqnums f1 ≠ None ∧
    well_shaped f1 ∧ numbering_current f1.
Proof.
  intros Hwf Hcur.
  destruct (ensure_numbered_current f Hwf Hcur) as (e & Hens & Hens1 & _).
  destruct (numberEqnums_numbered f Hwf) as (e' & Hnum & Hnum1 & _).
  assert (e' = e) as ->.
  { unfold Field.ensure_numbered in Hens. destruct Hcur as [Hnone|Hcur].
    - rewrite Hnone, Hnum in Hens. now injection Hens.
    - rewrite Hnum in Hcur. injection Hcur as Hf.
      assert (_eqnums f = Some e') as He by (now rewrite <- Hf).
      rewrite He in Hens. injection Hens as Hf'.
      apply (f_equal _eqnums) in Hf'. simpl in Hf'. congruence. }
  exists (numbered f e), (Z.of_nat (count_free f (dofs f))).
  split; [unfold Field.neqns; now rewrite Hens|].
  split; [unfold Field.neqns; now rewrite Hens1|].
  split.
  - intros i j. unfold Field.eqnum. rewrite Hens, Hens1.
    change (Field.nfens (numbered f e)) with (Field.nfens f).
    change (Field.dim (numbered f e)) with (Field.dim f).
    destruct (_ || _); [split; reflexivity|].
    destruct (_ || _); split; reflexivity.
  - repeat split; try reflexivity; try discriminate;
      [apply Hwf | apply Hwf | apply Hwf | now right].
Qed.

Lemma numbering_is_cached_witness :
  ∃ f1 n,
    Field.neqns two_node_field = (Ok n, f1) ∧
    Field.neqns f1 = (Ok n, f1) ∧
    (∀ i j, Field.eqnum i j f1 = ((Field.eqnum i j two_node_field).1, f1) ∧
            (Field.eqnum i j two_node_field).2 = f1) ∧
    _values f1 = _values two_node_field ∧
    _prescribed f1 = _prescribed two_node_field ∧
    _prescribedValues f1 = _prescribedValues two_node_field ∧
    _eqnums f1 ≠ None ∧
    well_shaped f1 ∧ numbering_current f1.
Proof.
  exact (numbering_is_cached two_node_field two_node_field_well_shaped
           (or_introl eq_refl)).
Defined.

(** Numbering on demand returns on every well-shaped field, whatever the
    cache holds, and touches nothing but the cache. *)
Lemma ensure_numbered_returns {T : Type} {N : Num T} (f : Field T) :
  well_shaped f →
  ∃ f1 e1,
    Field.ensure_numbered f = (Ok tt, f1) ∧
    Field.ensure_numbered f1 = (Ok tt, f1) ∧
    _values f1 = _values f ∧
    _prescribed f1 = _prescribed f ∧
    _prescribedValues f1 = _prescribedValues f ∧
    _eqnums f1 = Some e1 ∧
    (∀ e, _eqnums f = Some e → f1 = f).
Proof.
  intros Hwf. unfold Field.ensure_numbered.
  destruct (_eqnums f) as [e|] eqn:He.
  - exists f, e. rewrite He. repeat split; auto.
  - destruct (numberEqnums_numbered f Hwf) as (e & Hnum & _).
    exists (numbered f e), e. rewrite Hnum.
    repeat split; auto. intros e' He'. discriminate.
Qed.

(** X4: on a well-shaped field, whatever its cached numbering,
    [scatterSystemVector_(vec)] with a vector whose length is not
    [neqns()] fails with [DimensionMismatchError]; the values and the
    prescribed tables are untouched, and the only effect is that the
    numbering is cached. *)
Theorem scatter_length_mismatch {T : Type} {N : Num T}
    (f : Field T) (vec : vector T) :
  well_shaped f →
  (Field.neqns f).1 ≠ Ok (Z.of_nat (length vec)) →
  ∃ f1,
    Field.scatterSystemVector_ vec f = (Err DimensionMismatchError, f1) ∧
    f1 = (Field.neqns f).2 ∧
    _values f1 = _values f ∧
    _prescribed f1 = _prescribed f ∧
    _prescribedValues f1 = _prescribedValues f ∧
    _eqnums f1 ≠ None.
Proof.
  intros Hwf Hlen.
  destruct (ensure_numbered_returns f Hwf)
    as (f1 & e1 & Hens & _ & Hv & Hp & Hpv & He1 & _).
  unfold Field.scatterSystemVector_, Field.neqns in *. rewrite Hens in *.
  simpl in Hlen. unfold Field.isVectorOfDimension.
  destruct (Z.eqb_spec (Z.of_nat (length vec)) (_neqns f1)) as [Heq|Hne].
  - exfalso. apply Hlen. now rewrite Heq.
  - simpl. exists f1. repeat split; try assumption. now rewrite He1.
Qed.

Example stale_field_built :
  ∃ f0 f1,
    Field.new one_dof_options = Ok f0 ∧
    Field.neqns f0 = (Ok 1%Z, f1) ∧
    Field.setPrescribedValue_ 0 0 5%float f1 = (Ok tt, stale_field).
Proof. do 2 eexists. repeat split; vm_compute; reflexivity. Qed.

Lemma stale_field_well_shaped : well_shaped stale_field.
Proof.
  split; [repeat constructor|].
  split; intros t [= <-]; reflexivity.
Defined.

Lemma scatter_length_mismatch_witness :
  (∃ f1,
     Field.scatterSystemVector_ [10%float] two_node_field
     = (Err DimensionMismatchError, f1) ∧
     f1 = (Field.neqns two_node_field).2 ∧
     _values f1 = _values two_node_field ∧
     _prescribed f1 = _prescribed two_node_field ∧
     _prescribedValues f1 = _prescribedValues two_node_field ∧
     _eqnums f1 ≠ None) ∧
  ∃ f1,
    Field.scatterSystemVector_ [7; 8]%float stale_field
    = (Err DimensionMismatchError, f1) ∧
    f1 = (Field.neqns stale_field).2 ∧
    _values f1 = _values stale_field ∧
    _prescribed f1 = _prescribed stale_field ∧
    _prescribedValues f1 = _prescribedValues stale_field ∧
    _eqnums f1 ≠ None.
Proof.
  split.
  - apply (scatter_length_mismatch two_node_field [10%float]
             two_node_field_well_shaped).
    vm_compute. discriminate.
  - apply (scatter_length_mismatch stale_field [7; 8]%float
             stale_field_well_shaped).
    vm_compute. discriminate.
Defined.

(** ** Scattering twice *)

Lemma for_list_invariant {I S : Type} (P : S → Prop)
    (body : I → S → result unit * S) (l : list I) (s : S) :
  (∀ i s, P s → P (body i s).2) → P s → P (for_list body l s).2.
Proof.
  intros Hbody. revert s. induction l as [|i l IH]; intros s Hs; [exact Hs|].
  simpl. specialize (Hbody i s Hs).
  destruct (body i s) as [[[]|e] s']; simpl in *; auto.
Qed.

(** Two point sets with rows of the same lengths and the same entries are
    the same. *)
Lemma points_ext {A : Type} (m1 m2 : list (list A)) :
  length <$> m1 = length <$> m2 →
  (∀ i j, m1 !! i ≫= (fun v => v !! j) = m2 !! i ≫= (fun v => v !! j)) →
  m1 = m2.
Proof.
  intros Hlen Hent. apply list_eq. intros i.
  pose proof (f_equal (fun l => l !! i) Hlen) as Hi. simpl in Hi.
  rewrite !list_lookup_fmap in Hi.
  destruct (m1 !! i) as [v1|] eqn:H1, (m2 !! i) as [v2|] eqn:H2;
    simpl in Hi; try discriminate; [|reflexivity].
  f_equal. apply list_eq. intros j.
  specialize (Hent i j). now rewrite H1, H2 in Hent.
Qed.

Section ScatterTwice.
Context {T : Type} {N : Num T}.

Lemma setAtDir_shape index dir val (p : PointSet T) :
  ps_rn (PointSet.setAtDir_ index dir val p).2 = ps_rn p ∧
  length <$> ps_points (PointSet.setAtDir_ index dir val p).2
  = length <$> ps_points p.
Proof.
  unfold PointSet.setAtDir_.
  destruct (js_at (ps_points p) index) as [v|] eqn:Hv; [|auto].
  destruct val as [x|]; [|auto].
  destruct (_ && _); simpl; [|auto]. split; [reflexivity|].
  apply list_eq. intros i. rewrite !list_lookup_fmap.
  unfold js_at in Hv. destruct (index <? 0)%Z; [discriminate|].
  destruct (decide (i = Z.to_nat index)) as [->|Hne].
  - rewrite list_lookup_insert_eq by (eapply lookup_lt_Some, Hv).
    rewrite Hv. simpl. now rewrite length_insert.
  - now rewrite list_lookup_insert_ne by congruence.
Qed.

Lemma scatter_loops_shape (e : list (gmap Z Z)) (vec : vector T)
    (n m : nat) (p : PointSet T) :
  let p' := (for_ n (fun i => for_ m (fun j => Field.scatter_body e vec i j))
                  p).2 in
  ps_rn p' = ps_rn p ∧ length <$> ps_points p' = length <$> ps_points p.
Proof.
  apply (for_list_invariant
           (fun q => ps_rn q = ps_rn p ∧
                     length <$> ps_points q = length <$> ps_points p));
    [|auto].
  intros i q Hq.
  apply (for_list_invariant
           (fun q => ps_rn q = ps_rn p ∧
                     length <$> ps_points q = length <$> ps_points p));
    [|exact Hq].
  intros j q' [Hrn Hlen]. unfold Field.scatter_body.
  destruct (table_get e _ _) as [en|]; [|auto].
  destruct (negb _); [|auto].
  destruct (setAtDir_shape (Z.of_nat i) (Z.of_nat j) (en ≫= js_at vec) q')
    as [Hrn' Hlen'].
  split; congruence.
Qed.

(** The numbering of a well-shaped field with a current numbering: the
    table [e] is the one any field of the same size and prescribed table
    is numbered with. *)
Lemma numbering_of (f : Field T) :
  well_shaped f → numbering_current f →
  ∃ e,
    Field.ensure_numbered f = (Ok tt, numbered f e) ∧
    (∀ g : Field T,
       Field.nfens g = Field.nfens f → Field.dim g = Field.dim f →
       _prescribed g = _prescribed f →
       Field._numberEqnums_ g
       = (Ok tt, {| _values := _values g;
                    _prescribed := _prescribed g;
                    _prescribedValues := _prescribedValues g;
                    _eqnums := Some e;
                    _neqns := Z.of_nat (count_free f (dofs f)) |})) ∧
    (∀ d, d ∈ dofs f → prescribed_at f d = true →
          eqnum_at e d = Some Field.INVALID_EQUATION_NUM) ∧
    (∀ l1 d l2, dofs f = l1 ++ d :: l2 → prescribed_at f d = false →
          eqnum_at e d = Some (Z.of_nat (count_free f l1))).
Proof.
  intros Hwf Hcur.
  destruct (numbering_loops f Hwf) as (e & Hrun & Hpre & Hfree).
  assert (∀ g : Field T,
            Field.nfens g = Field.nfens f → Field.dim g = Field.dim f →
            _prescribed g = _prescribed f →
            Field._numberEqnums_ g
            = (Ok tt, {| _values := _values g;
                         _prescribed := _prescribed g;
                         _prescribedValues := _prescribedValues g;
                         _eqnums := Some e;
                         _neqns := Z.of_nat (count_free f (dofs f)) |}))
    as Hall.
  { intros g Hn Hd Hp. unfold Field._numberEqnums_. rewrite Hn, Hd.
    unfold for_ in *.
    erewrite for_list_ext; [rewrite Hrun; reflexivity|].
    intros i st. apply for_list_ext. intros j st'.
    now apply number_body_same_prescribed. }
  exists e. split; [|split; [exact Hall|split; assumption]].
  pose proof (Hall f eq_refl eq_refl eq_refl) as Hnum.
  unfold Field.ensure_numbered. destruct Hcur as [Hnone|Hcur].
  - rewrite Hnone. exact Hnum.
  - rewrite Hnum in Hcur. injection Hcur as Hf.
    assert (_eqnums f = Some e) as He by (now rewrite <- Hf).
    rewrite He. f_equal. symmetry. exact Hf.
Qed.

(** The state [scatterSystemVector_(vec)] leaves: the numbering cached and
    the point set [p'], of the same shape, in which the free entries hold
    the entries of [vec] and every other entry is as before. *)
Lemma scatter_state (f : Field T) (vec : vector T) (e : list (gmap Z Z)) :
  well_shaped f →
  Field.ensure_numbered f = (Ok tt, numbered f e) →
  (∀ d, d ∈ dofs f → prescribed_at f d = true →
        eqnum_at e d = Some Field.INVALID_EQUATION_NUM) →
  (∀ l1 d l2, dofs f = l1 ++ d :: l2 → prescribed_at f d = false →
        eqnum_at e d = Some (Z.of_nat (count_free f l1))) →
  count_free f (dofs f) = length vec →
  ∃ p',
    Field.scatterSystemVector_ vec f
    = (Ok tt, {| _values := p';
                 _prescribed := _prescribed f;
                 _prescribedValues := _prescribedValues f;
                 _eqnums := Some e;
                 _neqns := Z.of_nat (count_free f (dofs f)) |}) ∧
    ps_rn p' = ps_rn (_values f) ∧
    length <$> ps_points p' = length <$> ps_points (_values f) ∧
    ∀ d, ps_entry p' d
         = if decide (d ∈ dofs f) then
             if prescribed_at f d then ps_entry (_values f) d
             else eqnum_at e d ≫= js_at vec
           else ps_entry (_values f) d.
Proof.
  intros Hwf Hens Hpre Hfree Hlen.
  assert (∀ d, d ∈ dofs f → prescribed_at f d = false →
               ∃ n, eqnum_at e d = Some n ∧ n ≠ Field.INVALID_EQUATION_NUM ∧
                    is_Some (js_at vec n)) as Hnumfree.
  { intros d Hd Hp. destruct (list_elem_of_split _ _ Hd) as (l1 & l2 & Heq).
    exists (Z.of_nat (count_free f l1)). split; [now apply (Hfree l1 d l2)|].
    split; [unfold Field.INVALID_EQUATION_NUM; lia|].
    rewrite js_at_of_nat. apply lookup_lt_is_Some_2.
    pose proof (rank_lt_count f l1 d l2 Hp) as Hlt.
    rewrite <- Heq in Hlt. lia. }
  destruct (scatter_loop e vec (dofs f) (_values f))
    as (p' & Hrun & _ & _ & Hout & Hinv & Hset).
  { intros d Hd. destruct (prescribed_at f d) eqn:Hp.
    - exists Field.INVALID_EQUATION_NUM. split; [now apply Hpre|now left].
    - destruct (Hnumfree d Hd Hp) as (n & Hn & _ & Hvec). eauto. }
  { intros d Hd. now apply entry_of_dof. }
  assert (for_ (Field.nfens f)
               (fun i => for_ (Field.dim f)
                              (fun j => Field.scatter_body e vec i j))
               (_values f) = (Ok tt, p')) as Hloops.
  { unfold for_. rewrite for_list_nested. exact Hrun. }
  exists p'. split; [|split; [|split]].
  - unfold Field.scatterSystemVector_, Field.neqns. rewrite Hens.
    unfold Field.isVectorOfDimension. simpl. rewrite Hlen, Z.eqb_refl. simpl.
    change (Field.nfens (numbered f e)) with (Field.nfens f).
    change (Field.dim (numbered f e)) with (Field.dim f).
    now rewrite Hloops.
  - pose proof (scatter_loops_shape e vec (Field.nfens f) (Field.dim f)
                  (_values f)) as Hshape.
    rewrite Hloops in Hshape. apply Hshape.
  - pose proof (scatter_loops_shape e vec (Field.nfens f) (Field.dim f)
                  (_values f)) as Hshape.
    rewrite Hloops in Hshape. apply Hshape.
  - intros d. destruct (decide (d ∈ dofs f)) as [Hd|Hd]; [|now apply Hout].
    destruct (prescribed_at f d) eqn:Hp.
    + apply Hinv. now apply Hpre.
    + destruct (Hnumfree d Hd Hp) as (n & Hn & Hne & _).
      rewrite Hn. simpl. now apply Hset.
Qed.
End ScatterTwice.

(** X5: scattering a second system vector overwrites the first: on a
    well-shaped field whose numbering is current, scattering [v] and then
    [w] returns the same result and leaves the same field as scattering
    [w] alone. Only free entries are written, and each from the entry of
    the vector at its equation number. *)
Theorem scatter_overwrites {T : Type} {N : Num T}
    (f : Field T) (v w : vector T) :
  well_shaped f → numbering_current f →
  (Field.neqns f).1 = Ok (Z.of_nat (length v)) →
  length w = length v →
  Field.scatterSystemVector_ w (Field.scatterSystemVector_ v f).2
  = Field.scatterSystemVector_ w f.
Proof.
  intros Hwf Hcur Hv Hw.
  destruct (numbering_of f Hwf Hcur) as (e & Hens & _ & Hpre & Hfree).
  assert (count_free f (dofs f) = length v) as Hcount.
  { unfold Field.neqns in Hv. rewrite Hens in Hv. simpl in Hv.
    injection Hv. lia. }
  destruct (scatter_state f v e Hwf Hens Hpre Hfree Hcount)
    as (pv & Hsv & Hrn & Hshape & Hentv).
  destruct (scatter_state f w e Hwf Hens Hpre Hfree
              (eq_trans Hcount (eq_sym Hw)))
    as (pw & Hsw & Hrnw & Hshapew & Hentw).
  rewrite Hsv, Hsw. cbn [snd].
  set (f1 := {| _values := pv; _prescribed := _prescribed f;
                _prescribedValues := _prescribedValues f;
                _eqnums := Some e;
                _neqns := Z.of_nat (count_free f (dofs f)) |}).
  assert (Field.nfens f1 = Field.nfens f) as Hn.
  { unfold Field.nfens, PointSet.getSize. simpl.
    apply (f_equal length) in Hshape. now rewrite !length_fmap in Hshape. }
  assert (Field.dim f1 = Field.dim f) as Hd by exact Hrn.
  assert (dofs f1 = dofs f) as Hdofs by (unfold dofs; now rewrite Hn, Hd).
  assert (well_shaped f1) as Hwf1.
  { destruct Hwf as (Hpts & Hp & Hpv). split; [|split].
    - rewrite Hd. apply (Forall_fmap length (fun k => k = Field.dim f)).
      simpl. rewrite Hshape. now apply Forall_fmap.
    - intros t Ht. rewrite Hn. now apply Hp.
    - intros t Ht. rewrite Hn. now apply Hpv. }
  assert (Field.ensure_numbered f1 = (Ok tt, numbered f1 e)) as Hens1.
  { unfold Field.ensure_numbered, numbered. rewrite Hdofs. reflexivity. }
  destruct (scatter_state f1 w e Hwf1 Hens1) as (pvw & Hsvw & Hrn' & Hshape' & Hentvw).
  { rewrite Hdofs. exact Hpre. }
  { rewrite Hdofs. exact Hfree. }
  { rewrite Hdofs. exact (eq_trans Hcount (eq_sym Hw)). }
  rewrite Hsvw, Hdofs. simpl.
  assert (pvw = pw) as ->; [|reflexivity].
  destruct pvw as [rn1 m1], pw as [rn2 m2]. simpl in *.
  f_equal; [congruence|]. apply points_ext; [congruence|].
  intros i j. specialize (Hentvw (i, j)). specialize (Hentw (i, j)).
  specialize (Hentv (i, j)). unfold ps_entry in *. simpl in *.
  rewrite Hentvw, Hentw, Hdofs.
  destruct (decide ((i, j) ∈ dofs f)); [|exact Hentv].
  change (prescribed_at f1 (i, j)) with (prescribed_at f (i, j)).
  destruct (prescribed_at f (i, j)) eqn:Hp; [|reflexivity].
  rewrite Hentv. now destruct (decide ((i, j) ∈ dofs f)).
Qed.

Lemma scatter_overwrites_witness :
  Field.scatterSystemVector_ [30; 40]%float
    (Field.scatterSystemVector_ [10; 20]%float two_node_field).2
  = Field.scatterSystemVector_ [30; 40]%float two_node_field.
Proof.
  apply (scatter_overwrites two_node_field [10; 20]%float [30; 40]%float
           two_node_field_well_shaped (or_introl eq_refl)).
  - vm_compute. reflexivity.
  - reflexivity.
Defined.

(** ** Fields without boundary conditions *)

Section NoTables.
Context {T : Type} {N : Num T}.

(** The constructor without [ebcs] leaves both prescribed tables [null]
    and takes its values from the first assigned option. *)
Lemma new_without_ebcs (options : Field.FieldInitOption (T := T)) f :
  Field.opt_ebcs options = None → Field.new options = Ok f →
  _prescribed f = None ∧ _prescribedValues f = None ∧
  _eqnums f = None.
Proof.
  intros Hebcs. unfold Field.new. rewrite Hebcs.
  destruct (Field.opt_values options), (Field.opt_pointset options),
    (Field.opt_fens options), (Field.opt_nfens options),
    (Field.opt_dim options); try discriminate; intros [= <-]; auto.
Qed.
End NoTables.

(** ** Gathering *)

(** A loop whose every turn appends [G i] to the array it builds, while
    the rest of the state stays within [P]. *)
Lemma for_list_append_state {I A S : Type} (P : S → Prop)
    (body : I → list A * S → result unit * (list A * S))
    (G : I → list A) (l : list I) :
  (∀ i, i ∈ l → ∀ vec s, P s →
        ∃ s', body i (vec, s) = (Ok tt, (vec ++ G i, s')) ∧ P s') →
  ∀ vec s, P s →
    ∃ s', for_list body l (vec, s) = (Ok tt, (vec ++ (l ≫= G), s')) ∧ P s'.
Proof.
  induction l as [|i l IH]; intros Hbody vec s Hs.
  - exists s. simpl. rewrite app_nil_r. auto.
  - destruct (Hbody i ltac:(left) vec s Hs) as (s1 & H1 & Hs1).
    destruct (IH (fun i' Hi' => Hbody i' ltac:(now right)) (vec ++ G i) s1 Hs1)
      as (s2 & H2 & Hs2).
    exists s2. simpl. rewrite H1, H2, <- app_assoc. auto.
Qed.

Lemma for_list_append {I A : Type}
    (body : I → list A → result unit * list A)
    (G : I → list A) (l : list I) :
  (∀ i, i ∈ l → ∀ vec, body i vec = (Ok tt, vec ++ G i)) →
  ∀ vec, for_list body l vec = (Ok tt, vec ++ (l ≫= G)).
Proof.
  induction l as [|i l IH]; intros Hbody vec.
  - simpl. now rewrite app_nil_r.
  - simpl. rewrite (Hbody i ltac:(left)).
    rewrite (IH (fun i' Hi' => Hbody i' ltac:(now right))).
    now rewrite <- app_assoc.
Qed.

Lemma bind_singleton {A B : Type} (g : A → B) (l : list A) :
  l ≫= (fun x => [g x]) = g <$> l.
Proof.
  induction l as [|x l IH]; [reflexivity|].
  now rewrite bind_cons, IH, fmap_cons.
Qed.

Lemma length_bind_fixed {A B : Type} (G : A → list B) (n : nat) (l : list A) :
  (∀ x, x ∈ l → length (G x) = n) → length (l ≫= G) = length l * n.
Proof.
  induction l as [|x l IH]; intros Hlen; [reflexivity|].
  rewrite bind_cons, length_app, (Hlen x ltac:(left)).
  now rewrite (IH (fun y Hy => Hlen y ltac:(now right))).
Qed.

(** Entry [k * n + j] of the concatenation of chunks of length [n] is
    entry [j] of chunk [k]. *)
Lemma lookup_bind_fixed {A B : Type} (G : A → list B) (n : nat) (l : list A)
    (k j : nat) (x : A) :
  (∀ y, y ∈ l → length (G y) = n) → l !! k = Some x → j < n →
  (l ≫= G) !! (k * n + j) = G x !! j.
Proof.
  revert k. induction l as [|y l IH]; intros k Hlen Hk Hj; [discriminate|].
  pose proof (Hlen y ltac:(left)) as Hy. rewrite bind_cons.
  destruct k as [|k]; simpl in Hk.
  - injection Hk as ->. rewrite lookup_app_l by lia. reflexivity.
  - rewrite lookup_app_r by lia.
    replace (S k * n + j - length (G y)) with (k * n + j) by lia.
    apply IH; auto. intros z Hz. apply Hlen. now right.
Qed.

Section Gather.
Context {T : Type} {N : Num T}.

(** Every degree of freedom has an entry in the table of its numbers. *)
Lemma numbered_entry (f : Field T) (e : list (gmap Z Z)) :
  (∀ d, d ∈ dofs f → prescribed_at f d = true →
        eqnum_at e d = Some Field.INVALID_EQUATION_NUM) →
  (∀ l1 d l2, dofs f = l1 ++ d :: l2 → prescribed_at f d = false →
        eqnum_at e d = Some (Z.of_nat (count_free f l1))) →
  ∀ d, d ∈ dofs f → ∃ n, eqnum_at e d = Some n.
Proof.
  intros Hpre Hfree d Hd. destruct (prescribed_at f d) eqn:Hp.
  - eauto.
  - destruct (list_elem_of_split _ _ Hd) as (l1 & l2 & Heq). eauto.
Qed.

(** [eqnum] on a field whose numbering is, or is about to be, [f1]. *)
Lemma eqnum_in_range (g f1 : Field T) (e : list (gmap Z Z)) (i j : nat) :
  Field.ensure_numbered g = (Ok tt, f1) → _eqnums f1 = Some e →
  i < Field.nfens f1 → j < Field.dim f1 →
  Field.eqnum (Z.of_nat i) (Z.of_nat j) g
  = (table_get e (Z.of_nat i) (Z.of_nat j), f1).
Proof.
  intros Hens He Hi Hj. unfold Field.eqnum. rewrite Hens.
  destruct (Z.ltb_spec (Z.of_nat i) 0); [lia|].
  destruct (Z.leb_spec (Z.of_nat (Field.nfens f1)) (Z.of_nat i)); [lia|].
  destruct (Z.ltb_spec (Z.of_nat j) 0); [lia|].
  destruct (Z.leb_spec (Z.of_nat (Field.dim f1)) (Z.of_nat j)); [lia|].
  simpl. now rewrite He.
Qed.

Lemma eqnum_index_out_of_range (g f1 : Field T) (index direction : Z) :
  Field.ensure_numbered g = (Ok tt, f1) →
  ¬ (0 ≤ index < Z.of_nat (Field.nfens f1))%Z →
  Field.eqnum index direction g = (Err IndexOutOfRangeError, f1).
Proof.
  intros Hens Hi. unfold Field.eqnum. rewrite Hens.
  destruct (Z.ltb_spec index 0); [reflexivity|].
  destruct (Z.leb_spec (Z.of_nat (Field.nfens f1)) index); [reflexivity|lia].
Qed.
End Gather.

Section GatherEqnums.
Context {T : Type} {N : Num T}.

(** The inner loop of [gatherEqnumsVector] at a node of the field. *)
Lemma gather_eqnums_node (f : Field T) (e : list (gmap Z Z)) (i : nat) :
  (∀ d, d ∈ dofs f → ∃ n, eqnum_at e d = Some n) →
  i < Field.nfens f →
  ∀ vec s, Field.ensure_numbered s = (Ok tt, numbered f e) →
    ∃ s',
      for_ (Field.dim f)
           (fun j (st : list (option Z) * Field T) =>
              let '(vec, f) := st in
              match Field.eqnum (Z.of_nat i) (Z.of_nat j) f with
              | (Ok en, f') => (Ok tt, (vec ++ [en], f'))
              | (Err e, f') => (Err e, (vec, f'))
              end)
           (vec, s)
      = (Ok tt, (vec ++ ((fun j => eqnum_at e (i, j)) <$> seq 0 (Field.dim f)),
                 s')) ∧
      Field.ensure_numbered s' = (Ok tt, numbered f e).
Proof.
  intros Hall Hi vec s Hs. unfold for_. rewrite <- bind_singleton.
  apply (for_list_append_state
           (fun s => Field.ensure_numbered s = (Ok tt, numbered f e)));
    [|exact Hs].
  intros j Hj vec' s' Hs'. apply elem_of_seq in Hj.
  exists (numbered f e). split; [|reflexivity].
  assert (j < Field.dim (numbered f e)) as Hj'
      by (change (j < Field.dim f); lia).
  rewrite (eqnum_in_range s' (numbered f e) e i j Hs' eq_refl Hi Hj').
  destruct (Hall (i, j)) as [n Hn]; [apply elem_of_dofs; simpl; lia|].
  pose proof (table_get_eqnum_at e (i, j) n Hn) as Hget. simpl in Hget.
  now rewrite Hget, Hn.
Qed.
End GatherEqnums.

(** X6: on a well-shaped field whose numbering is current and a
    connectivity of nodes of the field, [gatherEqnumsVector(conn)] returns
    a vector of [conn.length * dim] entries, and entry [k * dim + j] is
    what [eqnum(conn[k], j)] returns. *)
Theorem gatherEqnumsVector_spec {T : Type} {N : Num T}
    (f : Field T) (conn : list Z) :
  well_shaped f → numbering_current f →
  Forall (fun id => (0 ≤ id < Z.of_nat (Field.nfens f))%Z) conn →
  ∃ vec,
    (Field.gatherEqnumsVector conn f).1 = Ok vec ∧
    length vec = length conn * Field.dim f ∧
    ∀ k id j, conn !! k = Some id → j < Field.dim f →
      ∃ en, (Field.eqnum id (Z.of_nat j) f).1 = Ok (Some en) ∧
            vec !! (k * Field.dim f + j) = Some (Some en).
Proof.
  intros Hwf Hcur Hconn.
  destruct (numbering_of f Hwf Hcur) as (e & Hens & _ & Hpre & Hfree).
  pose proof (numbered_entry f e Hpre Hfree) as Hall.
  set (G := fun id : Z =>
              (fun j => eqnum_at e (Z.to_nat id, j)) <$> seq 0 (Field.dim f)).
  assert (∀ id, length (G id) = Field.dim f) as HlenG.
  { intros id. unfold G. now rewrite length_fmap, length_seq. }
  destruct (for_list_append_state
              (fun s => Field.ensure_numbered s = (Ok tt, numbered f e))
              (fun fenid =>
                 for_ (Field.dim f)
                   (fun i (st : list (option Z) * Field T) =>
                      let '(vec, f) := st in
                      match Field.eqnum fenid (Z.of_nat i) f with
                      | (Ok en, f') => (Ok tt, (vec ++ [en], f'))
                      | (Err e, f') => (Err e, (vec, f'))
                      end))
              G conn) with (vec := @nil (option Z)) (s := f)
    as (s' & Hrun & _); [|exact Hens|].
  { intros id Hid vec s Hs.
    rewrite Forall_forall in Hconn. specialize (Hconn id Hid).
    assert (Z.to_nat id < Field.nfens f) as Hlt by lia.
    destruct (gather_eqnums_node f e (Z.to_nat id) Hall Hlt vec s Hs)
      as (s1 & H1 & Hs1).
    exists s1. split; [|exact Hs1].
    rewrite Z2Nat.id in H1 by lia. exact H1. }
  exists (conn ≫= G). split; [|split].
  - unfold Field.gatherEqnumsVector. now rewrite Hrun.
  - now apply length_bind_fixed.
  - intros k id j Hk Hj.
    assert (id ∈ conn) as Hid by (eapply list_elem_of_lookup_2, Hk).
    rewrite Forall_forall in Hconn. specialize (Hconn id Hid).
    destruct (Hall (Z.to_nat id, j)) as [n Hn];
      [apply elem_of_dofs; simpl; lia|].
    exists n. split.
    + assert (Z.to_nat id < Field.nfens (numbered f e)) as Hid'
        by (change (Z.to_nat id < Field.nfens f); lia).
      pose proof (eqnum_in_range f (numbered f e) e (Z.to_nat id) j Hens
                    eq_refl Hid' Hj) as Heq.
      rewrite Z2Nat.id in Heq by lia. rewrite Heq.
      pose proof (table_get_eqnum_at e (Z.to_nat id, j) n Hn) as Hget.
      simpl in Hget. rewrite Z2Nat.id in Hget by lia. exact Hget.
    + rewrite (lookup_bind_fixed G (Field.dim f) conn k j id); auto.
      unfold G. rewrite list_lookup_fmap, lookup_seq_lt by exact Hj.
      simpl. now rewrite Hn.
Qed.

Lemma gatherEqnumsVector_spec_witness :
  ∃ vec,
    (Field.gatherEqnumsVector [1; 0]%Z two_node_field).1 = Ok vec ∧
    length vec = 2 * 2 ∧
    ∀ k id j, [1; 0]%Z !! k = Some id → j < 2 →
      ∃ en, (Field.eqnum id (Z.of_nat j) two_node_field).1 = Ok (Some en) ∧
            vec !! (k * 2 + j) = Some (Some en).
Proof.
  apply (gatherEqnumsVector_spec two_node_field [1; 0]%Z
           two_node_field_well_shaped (or_introl eq_refl)).
  repeat constructor; vm_compute; discriminate.
Defined.

Example two_node_field_gatherEqnumsVector :
  (Field.gatherEqnumsVector [1; 0]%Z two_node_field).1
  = Ok [Some (-1); Some 1; Some 0; Some (-1)]%Z.
Proof. vm_compute. reflexivity. Qed.

Section CachedRows.
Context {T : Type} {N : Num T}.

(** The table [_numberEqnums_] computes has one row per node. *)
Lemma numberEqnums_rows (f : Field T) :
  numbering_rows (Field._numberEqnums_ f).2 ∨
  (Field._numberEqnums_ f).2 = f.
Proof.
  assert (length
            (for_ (Field.nfens f)
                  (fun i => for_ (Field.dim f)
                                 (fun j => Field.number_body f i j))
                  (array2d (Field.nfens f) (Field.dim f)
                           Field.INVALID_EQUATION_NUM, 0%Z)).2.1
          = Field.nfens f) as Hlen.
  { unfold for_ at 1.
    apply (for_list_invariant
             (fun st : list (gmap Z Z) * Z => length st.1 = Field.nfens f)).
    - intros i st Hst.
      apply (for_list_invariant
               (fun st : list (gmap Z Z) * Z => length st.1 = Field.nfens f));
        [|exact Hst].
      intros j [tbl c] Htbl. unfold Field.number_body. simpl in *.
      destruct (Field.isPrescribed f _ _) as [p|]; [|exact Htbl].
      destruct (negb (js_truthy p)); [|exact Htbl].
      unfold table_set. destruct (js_at tbl (Z.of_nat i)); [|exact Htbl].
      simpl. now rewrite length_insert.
    - simpl. unfold array2d. apply length_replicate. }
  unfold Field._numberEqnums_. cbv zeta.
  destruct (for_ (Field.nfens f) _ _) as [[[]|err] [e count]];
    [left|right; reflexivity].
  simpl in *. intros e' [= <-]. exact Hlen.
Qed.

(** [setPrescribedValue_] keeps the cached table and the number of the
    nodes. *)
Lemma setPrescribedValue_rows index dir val (f : Field T) :
  numbering_rows f →
  numbering_rows (Field.setPrescribedValue_ index dir val f).2.
Proof.
  intros Hrows. unfold Field.setPrescribedValue_.
  destruct (_prescribed f) as [t|]; [|exact Hrows].
  destruct (table_set t index dir true) as [t'|]; [|exact Hrows].
  simpl. destruct (_prescribedValues f) as [pv|]; [|exact Hrows].
  destruct (table_set pv index dir val) as [pv'|]; [|exact Hrows].
  pose proof (setAtDir_size index dir (Some val) (_values f)) as [Hsize _].
  destruct (PointSet.setAtDir_ index dir (Some val) (_values f)) as [r p].
  simpl in *. intros e He. unfold Field.nfens. simpl.
  rewrite Hsize. now apply Hrows.
Qed.

(** After numbering on demand, the rows of the nodes are there. *)
Lemma ensure_numbered_rows (f : Field T) :
  well_shaped f → numbering_rows f →
  ∃ f1 e1,
    Field.ensure_numbered f = (Ok tt, f1) ∧
    Field.ensure_numbered f1 = (Ok tt, f1) ∧
    _eqnums f1 = Some e1 ∧
    Field.nfens f1 = Field.nfens f ∧ Field.dim f1 = Field.dim f ∧
    ∀ i, i < Field.nfens f → is_Some (e1 !! i).
Proof.
  intros Hwf Hrows.
  destruct (ensure_numbered_returns f Hwf)
    as (f1 & e1 & Hens & Hens1 & Hv & _ & _ & He1 & Hsame).
  exists f1, e1.
  assert (Field.nfens f1 = Field.nfens f) as Hn
      by (unfold Field.nfens; now rewrite Hv).
  assert (Field.dim f1 = Field.dim f) as Hd
      by (unfold Field.dim; now rewrite Hv).
  do 5 (split; [assumption|]).
  intros i Hi. apply lookup_lt_is_Some_2.
  destruct (_eqnums f) as [e|] eqn:He.
  - rewrite (Hsame e eq_refl) in He1. rewrite He in He1.
    injection He1 as <-. rewrite (Hrows e He). exact Hi.
  - unfold Field.ensure_numbered in Hens. rewrite He in Hens.
    destruct (numberEqnums_rows f) as [Hnew|Hnew].
    + rewrite Hens in Hnew. simpl in Hnew.
      rewrite (Hnew e1 He1), Hn. exact Hi.
    + rewrite Hens in Hnew. simpl in Hnew. subst f1. congruence.
Qed.

(** The inner loop of [gatherEqnumsVector] at a node of the field, on
    whatever table is cached. *)
Lemma gather_eqnums_node_cached (f1 : Field T) (e1 : list (gmap Z Z))
    (i : nat) (row : gmap Z Z) :
  _eqnums f1 = Some e1 → e1 !! i = Some row → i < Field.nfens f1 →
  ∀ vec s, Field.ensure_numbered s = (Ok tt, f1) →
    ∃ s',
      for_ (Field.dim f1)
           (fun j (st : list (option Z) * Field T) =>
              let '(vec, f) := st in
              match Field.eqnum (Z.of_nat i) (Z.of_nat j) f with
              | (Ok en, f') => (Ok tt, (vec ++ [en], f'))
              | (Err e, f') => (Err e, (vec, f'))
              end)
           (vec, s)
      = (Ok tt, (vec ++ ((fun j => row !! Z.of_nat j)
                           <$> seq 0 (Field.dim f1)), s')) ∧
      Field.ensure_numbered s' = (Ok tt, f1).
Proof.
  intros He1 Hrow Hi vec s Hs. unfold for_. rewrite <- bind_singleton.
  assert (Field.ensure_numbered f1 = (Ok tt, f1)) as Hf1
      by (unfold Field.ensure_numbered; now rewrite He1).
  apply (for_list_append_state
           (fun s => Field.ensure_numbered s = (Ok tt, f1)));
    [|exact Hs].
  intros j Hj vec' s' Hs'. apply elem_of_seq in Hj.
  exists f1. split; [|exact Hf1].
  rewrite (eqnum_in_range s' f1 e1 i j Hs' He1 Hi ltac:(lia)).
  unfold table_get. now rewrite js_at_of_nat, Hrow.
Qed.
End CachedRows.

(** X7: on a well-shaped field with at least one component per node,
    whose cached numbering table, if there is one, has one row per node
    (current or not), [gatherEqnumsVector(conn)] throws the index error
    of [eqnum] when some entry of [conn] is not a node of the field. *)
Theorem gatherEqnumsVector_out_of_range {T : Type} {N : Num T}
    (f : Field T) (conn : list Z) :
  well_shaped f → numbering_rows f → 0 < Field.dim f →
  Exists (fun id => ¬ (0 ≤ id < Z.of_nat (Field.nfens f))%Z) conn →
  (Field.gatherEqnumsVector conn f).1 = Err IndexOutOfRangeError.
Proof.
  intros Hwf Hrows Hdim Hex.
  destruct (ensure_numbered_rows f Hwf Hrows)
    as (f1 & e1 & Hens & Hens1 & He1 & Hn & Hd & Hrow).
  unfold Field.gatherEqnumsVector.
  set (body := fun fenid : Z => for_ (Field.dim f) _).
  assert (∀ vec s, Field.ensure_numbered s = (Ok tt, f1) →
            ∃ st, for_list body conn (vec, s) = (Err IndexOutOfRangeError, st))
    as Hrun.
  { induction Hex as [id conn Hid|id conn Hex IH]; intros vec s Hs.
    - simpl. unfold body at 1, for_.
      destruct (Field.dim f) as [|n] eqn:Hdn; [lia|]. simpl.
      rewrite <- Hn in Hid.
      rewrite (eqnum_index_out_of_range s f1 id (Z.of_nat 0) Hs Hid).
      eauto.
    - simpl.
      destruct (decide (0 ≤ id < Z.of_nat (Field.nfens f))%Z) as [Hid|Hid].
      + destruct (Hrow (Z.to_nat id) ltac:(lia)) as [row Hr].
        assert (Z.to_nat id < Field.nfens f1) as Hlt by lia.
        destruct (gather_eqnums_node_cached f1 e1 (Z.to_nat id) row He1 Hr
                    Hlt vec s Hs) as (s1 & H1 & Hs1).
        rewrite Z2Nat.id, Hd in H1 by lia. unfold body at 1. rewrite H1.
        now apply IH.
      + unfold body at 1, for_.
        destruct (Field.dim f) as [|n] eqn:Hdn; [lia|]. simpl.
        rewrite <- Hn in Hid.
        rewrite (eqnum_index_out_of_range s f1 id (Z.of_nat 0) Hs Hid).
        eauto. }
  destruct (Hrun [] f Hens) as ([vec s] & ->). reflexivity.
Qed.

Lemma gatherEqnumsVector_out_of_range_witness :
  (Field.gatherEqnumsVector [0; 2]%Z two_node_field).1
  = Err IndexOutOfRangeError ∧
  (Field.gatherEqnumsVector [0; 1]%Z stale_field).1
  = Err IndexOutOfRangeError.
Proof.
  split.
  - apply (gatherEqnumsVector_out_of_range two_node_field [0; 2]%Z
             two_node_field_well_shaped).
    + intros e He. discriminate He.
    + vm_compute. lia.
    + right. left. vm_compute. intros [_ H]. discriminate H.
  - apply (gatherEqnumsVector_out_of_range stale_field [0; 1]%Z
             stale_field_well_shaped).
    + intros e [= <-]. reflexivity.
    + vm_compute. lia.
    + right. left. vm_compute. intros [_ H]. discriminate H.
Defined.

Section GatherPrescribed.
Context {T : Type} {N : Num T}.

(** [prescribedValue] at a node of a well-shaped field that has either
    both prescribed tables or none. *)
Lemma prescribedValue_ok (f : Field T) (id : Z) (j : nat) :
  well_shaped f →
  (is_Some (_prescribed f) → is_Some (_prescribedValues f)) →
  (0 ≤ id < Z.of_nat (Field.nfens f))%Z →
  Field.prescribedValue f id (Z.of_nat j)
  = Ok (if prescribed_at f (Z.to_nat id, j)
        then prescribedValues_entry f id (Z.of_nat j)
        else Some num0).
Proof.
  intros (_ & Hp & Hpv) Hboth Hid.
  unfold Field.prescribedValue, prescribed_at, Field.isPrescribed,
    prescribedValues_entry.
  simpl. rewrite Z2Nat.id by lia.
  destruct (_prescribed f) as [t|] eqn:Ht; [|reflexivity].
  destruct (js_at_in_range t id) as [row Hrow];
    [now rewrite (Hp t eq_refl)|].
  unfold table_get. rewrite Hrow. simpl.
  destruct (js_truthy (row !! Z.of_nat j)); [|reflexivity].
  destruct Hboth as [pv Hpvs]; [eauto|]. rewrite Hpvs.
  destruct (js_at_in_range pv id) as [row' Hrow'];
    [now rewrite (Hpv pv Hpvs)|].
  simpl. now rewrite Hrow'.
Qed.

(** The two loops of [gatherPrescirbedValues] when no read throws. *)
Lemma gather_prescribed_loops (f : Field T) (conn : list Z)
    (g : Z → nat → option T) :
  (∀ id j, id ∈ conn → j < Field.dim f →
           Field.prescribedValue f id (Z.of_nat j) = Ok (g id j)) →
  Field.gatherPrescirbedValues conn f
  = Ok (conn ≫= fun id => g id <$> seq 0 (Field.dim f)).
Proof.
  intros Hg. unfold Field.gatherPrescirbedValues.
  rewrite (for_list_append _ (fun id => g id <$> seq 0 (Field.dim f)));
    [reflexivity|].
  intros id Hid vec. unfold for_. rewrite <- bind_singleton.
  apply for_list_append. intros j Hj vec'. apply elem_of_seq in Hj.
  now rewrite Hg by (auto; lia).
Qed.

Lemma bind_const_replicate {A B : Type} (l : list A) (n : nat) (c : B) :
  l ≫= (fun _ => (fun _ => c) <$> seq 0 n) = replicate (length l * n) c.
Proof.
  assert ((fun _ : nat => c) <$> seq 0 n = replicate n c) as ->.
  { generalize 0. induction n as [|n IH]; intros s; [reflexivity|].
    simpl. now rewrite IH. }
  induction l as [|x l IH]; [reflexivity|].
  rewrite bind_cons, IH. simpl. now rewrite replicate_add.
Qed.
End GatherPrescribed.

(** X8: on a well-shaped field and a connectivity of nodes of the field,
    [gatherPrescirbedValues(conn)] returns [conn.length * dim] entries:
    entry [k * dim + j] is the prescribed value of component [j] of node
    [conn[k]] when that component is prescribed, and zero otherwise. *)
Theorem gatherPrescirbedValues_spec {T : Type} {N : Num T}
    (f : Field T) (conn : list Z) :
  well_shaped f →
  (is_Some (_prescribed f) → is_Some (_prescribedValues f)) →
  Forall (fun id => (0 ≤ id < Z.of_nat (Field.nfens f))%Z) conn →
  ∃ vec,
    Field.gatherPrescirbedValues conn f = Ok vec ∧
    length vec = length conn * Field.dim f ∧
    ∀ k id j, conn !! k = Some id → j < Field.dim f →
      vec !! (k * Field.dim f + j)
      = Some (if prescribed_at f (Z.to_nat id, j)
              then prescribedValues_entry f id (Z.of_nat j)
              else Some num0).
Proof.
  intros Hwf Hboth Hconn. rewrite Forall_forall in Hconn.
  set (G := fun id : Z =>
              (fun j => if prescribed_at f (Z.to_nat id, j)
                        then prescribedValues_entry f id (Z.of_nat j)
                        else Some num0) <$> seq 0 (Field.dim f)).
  exists (conn ≫= G). split; [|split].
  - apply (gather_prescribed_loops f conn
             (fun id j => if prescribed_at f (Z.to_nat id, j)
                          then prescribedValues_entry f id (Z.of_nat j)
                          else Some num0)).
    intros id j Hid Hj. apply prescribedValue_ok; auto.
  - apply length_bind_fixed. intros id _. unfold G.
    now rewrite length_fmap, length_seq.
  - intros k id j Hk Hj.
    rewrite (lookup_bind_fixed G (Field.dim f) conn k j id); auto.
    + unfold G. rewrite list_lookup_fmap, lookup_seq_lt by exact Hj.
      reflexivity.
    + intros y _. unfold G. now rewrite length_fmap, length_seq.
Qed.

Lemma gatherPrescirbedValues_spec_witness :
  ∃ vec,
    Field.gatherPrescirbedValues [1; 0]%Z two_node_field = Ok vec ∧
    length vec = 2 * 2 ∧
    ∀ k id j, [1; 0]%Z !! k = Some id → j < 2 →
      vec !! (k * 2 + j)
      = Some (if prescribed_at two_node_field (Z.to_nat id, j)
              then prescribedValues_entry two_node_field id (Z.of_nat j)
              else Some 0%float).
Proof.
  apply (gatherPrescirbedValues_spec two_node_field [1; 0]%Z
           two_node_field_well_shaped).
  - intros _. vm_compute. eauto.
  - repeat constructor; vm_compute; discriminate.
Defined.

Example two_node_field_gatherPrescirbedValues :
  Field.gatherPrescirbedValues [1; 0]%Z two_node_field
  = Ok [Some (-2); Some 0; Some 0; Some 7.5]%float.
Proof. vm_compute. reflexivity. Qed.

(** X9: a field constructed without [ebcs] has no prescribed tables:
    [isPrescribed] answers false and [prescribedValue] zero for every
    index and direction, in range or not; [gatherPrescirbedValues]
    returns zeros for every connectivity; and [setPrescribedValue_]
    throws on the missing table and leaves the field as it was. *)
Theorem field_without_ebcs {T : Type} {N : Num T}
    (options : Field.FieldInitOption (T := T)) (f : Field T)
    (conn : list Z) (index dir : Z) (val : T) :
  Field.opt_ebcs options = None → Field.new options = Ok f →
  Field.isPrescribed f index dir = Ok (Some false) ∧
  Field.prescribedValue f index dir = Ok (Some num0) ∧
  Field.gatherPrescirbedValues conn f
  = Ok (replicate (length conn * Field.dim f) (Some num0)) ∧
  Field.setPrescribedValue_ index dir val f = (Err TypeError, f).
Proof.
  intros Hebcs Hnew.
  destruct (new_without_ebcs options f Hebcs Hnew) as (Hp & Hpv & _).
  assert (∀ i d, Field.prescribedValue f i d = Ok (Some num0)) as Hzero.
  { intros i d. unfold Field.prescribedValue, Field.isPrescribed.
    now rewrite Hp. }
  split; [|split; [|split]].
  - unfold Field.isPrescribed. now rewrite Hp.
  - apply Hzero.
  - rewrite (gather_prescribed_loops f conn (fun _ _ => Some num0))
      by (intros; apply Hzero).
    now rewrite bind_const_replicate.
  - unfold Field.setPrescribedValue_. now rewrite Hp.
Qed.

Lemma field_without_ebcs_witness :
  let f : Field float :=
    {| _values := {| ps_rn := 2; ps_points := [[1; 2]; [3; 4]]%float |};
       _prescribed := None; _prescribedValues := None;
       _eqnums := None; _neqns := (-1)%Z |} in
  Field.isPrescribed f 5 0 = Ok (Some false) ∧
  Field.prescribedValue f 5 0 = Ok (Some 0%float) ∧
  Field.gatherPrescirbedValues [5; 0]%Z f
  = Ok (replicate (2 * 2) (Some 0%float)) ∧
  Field.setPrescribedValue_ 5 0 1%float f = (Err TypeError, f).
Proof.
  intros f.
  exact (field_without_ebcs
           {| Field.opt_values := Some [[1; 2]; [3; 4]]%float;
              Field.opt_pointset := None;
              Field.opt_fens := None;
              Field.opt_nfens := None;
              Field.opt_dim := None;
              Field.opt_ebcs := None |}
           f [5; 0]%Z 5%Z 0%Z 1%float eq_refl eq_refl).
Defined.

(** ** Binary operations *)

Section Bop.
Context {T : Type} {N : Num T}.

Lemma map_vec_spec (bopFn : T → option T → T) (ys : nat → result (option T))
    (yv : nat → option T) (vec : vector T) (j0 : nat) :
  (∀ k, k < length vec → ys (j0 + k) = Ok (yv (j0 + k))) →
  ∃ out,
    Field.map_vec bopFn ys j0 vec = Ok out ∧
    length out = length vec ∧
    ∀ k x, vec !! k = Some x → out !! k = Some (bopFn x (yv (j0 + k))).
Proof.
  revert j0. induction vec as [|x vec IH]; intros j0 Hys.
  - exists []. repeat split. intros k x Hk. discriminate.
  - destruct (IH (S j0)) as (out & Hout & Hlen & Hent).
    { intros k Hk. replace (S j0 + k) with (j0 + S k) by lia.
      apply Hys. simpl. lia. }
    exists (bopFn x (yv j0) :: out). split; [|split].
    + simpl. specialize (Hys 0 ltac:(simpl; lia)).
      rewrite Nat.add_0_r in Hys. rewrite Hys. simpl. now rewrite Hout.
    + simpl. now rewrite Hlen.
    + intros [|k] x' Hk; simpl in *.
      * injection Hk as ->. now rewrite Nat.add_0_r.
      * replace (j0 + S k) with (S j0 + k) by lia. now apply Hent.
Qed.

Lemma map_points_spec (fn : vector T → nat → result (vector T))
    (R : nat → vector T → vector T → Prop) (points : list (vector T))
    (i0 : nat) :
  (∀ k v, points !! k = Some v →
          ∃ v', fn v (i0 + k) = Ok v' ∧ R (i0 + k) v v') →
  ∃ out,
    PointSet.map_points fn i0 points = Ok out ∧
    length out = length points ∧
    ∀ k v, points !! k = Some v → ∃ v', out !! k = Some v' ∧ R (i0 + k) v v'.
Proof.
  revert i0. induction points as [|v points IH]; intros i0 Hfn.
  - exists []. repeat split. intros k v Hk. discriminate.
  - destruct (IH (S i0)) as (out & Hout & Hlen & Hent).
    { intros k v' Hk. replace (S i0 + k) with (i0 + S k) by lia.
      now apply Hfn. }
    destruct (Hfn 0 v eq_refl) as (v' & Hv' & HR).
    rewrite Nat.add_0_r in Hv'.
    exists (v' :: out). split; [|split].
    + simpl. rewrite Hv'. simpl. now rewrite Hout.
    + simpl. now rewrite Hlen.
    + intros [|k] w Hk; simpl in *.
      * injection Hk as <-. eauto.
      * replace (i0 + S k) with (S i0 + k) by lia. now apply Hent.
Qed.

(** [map(fn)] returns a field of the mapped points, with no prescribed
    table and no numbering. *)
Lemma map_spec (fn : vector T → nat → result (vector T))
    (R : nat → vector T → vector T → Prop) (f : Field T) :
  (∀ k v, ps_points (_values f) !! k = Some v →
          ∃ v', fn v k = Ok v' ∧ R k v v') →
  ∃ out,
    Field.map fn f
    = Ok {| _values := PointSet.of_matrix out;
            _prescribed := None; _prescribedValues := None;
            _eqnums := None; _neqns := (-1)%Z |} ∧
    length out = Field.nfens f ∧
    ∀ k v, ps_points (_values f) !! k = Some v →
           ∃ v', out !! k = Some v' ∧ R k v v'.
Proof.
  intros Hfn.
  destruct (map_points_spec fn R (ps_points (_values f)) 0 Hfn)
    as (out & Hout & Hlen & Hent).
  exists out. split; [|split; [exact Hlen|exact Hent]].
  unfold Field.map, PointSet.map. rewrite Hout. reflexivity.
Qed.

(** The field [_bop] returns on a field of the same size: entry by entry
    [bopFn] of the entry of [this] and the entry of [other]. *)
Lemma bop_field_ok (f g : Field T) (bopFn : T → option T → T) :
  Field.dim g = Field.dim f → Field.nfens g = Field.nfens f →
  ∃ out,
    Field._bop (Field.other_field g) bopFn f
    = Ok {| _values := PointSet.of_matrix out;
            _prescribed := None; _prescribedValues := None;
            _eqnums := None; _neqns := (-1)%Z |} ∧
    length <$> out = length <$> ps_points (_values f) ∧
    ∀ d x, ps_entry (_values f) d = Some x →
           (out !! d.1 ≫= fun v => v !! d.2)
           = Some (bopFn x (ps_entry (_values g) d)).
Proof.
  intros Hdim Hn. unfold Field._bop.
  rewrite Hdim, Hn, !Nat.eqb_refl. simpl.
  destruct (map_spec
              (fun vec i =>
                 Field.map_vec bopFn
                   (fun j => row ← Field.at_ g (Z.of_nat i); Ok (row !! j))
                   0 vec)
              (fun i v v' =>
                 length v' = length v ∧
                 ∀ j x, v !! j = Some x →
                        v' !! j = Some (bopFn x (ps_entry (_values g) (i, j))))
              f) as (out & Hout & Hlen & Hent).
  { intros k v Hk.
    assert (k < Field.nfens g) as Hlt.
    { rewrite Hn. eapply lookup_lt_Some, Hk. }
    destruct (lookup_lt_is_Some_2 (ps_points (_values g)) k Hlt) as [row Hrow].
    destruct (map_vec_spec bopFn
                (fun j => row ← Field.at_ g (Z.of_nat k); Ok (row !! j))
                (fun j => row !! j) v 0) as (v' & Hv' & Hlen' & Hent').
    { intros j _. unfold Field.at_, PointSet.get.
      now rewrite js_at_of_nat, Hrow. }
    exists v'. split; [exact Hv'|]. split; [exact Hlen'|].
    intros j x Hj. unfold ps_entry. simpl. rewrite Hrow. simpl.
    now apply Hent'. }
  exists out. split; [exact Hout|]. unfold vector, matrix in *. split.
  - apply list_eq. intros k. rewrite !list_lookup_fmap.
    destruct (ps_points (_values f) !! k) as [v|] eqn:Hv.
    + destruct (Hent k v Hv) as (v' & -> & Hlen' & _). simpl. now rewrite Hlen'.
    + assert (out !! k = None) as Hnone.
      { apply lookup_ge_None_2. apply lookup_ge_None_1 in Hv.
        unfold Field.nfens, PointSet.getSize in Hlen. lia. }
      now rewrite Hnone.
  - intros [i j] x Hx. unfold ps_entry in Hx. simpl in *.
    destruct (ps_points (_values f) !! i) as [v|] eqn:Hv; [|discriminate].
    destruct (Hent i v Hv) as (v' & -> & _ & Hent'). simpl in *.
    now apply Hent'.
Qed.
End Bop.

(** X10: a binary operation with a field operand succeeds exactly when
    the operand has the same number of nodes and of components; the
    result is a fresh field, with no prescribed table and no numbering
    whatever the operands had, whose entries are [bopFn] of the entry of
    [this] and the entry of the operand. *)
Theorem bop_field_operand {T : Type} {N : Num T}
    (f g : Field T) (bopFn : T → option T → T) :
  (Field.dim g = Field.dim f ∧ Field.nfens g = Field.nfens f →
   ∃ f',
     Field.bop (Field.other_field g) bopFn f = Ok f' ∧
     _prescribed f' = None ∧ _prescribedValues f' = None ∧
     _eqnums f' = None ∧ _neqns f' = (-1)%Z ∧
     Field.nfens f' = Field.nfens f ∧
     ∀ d x, ps_entry (_values f) d = Some x →
            ps_entry (_values f') d
            = Some (bopFn x (ps_entry (_values g) d))) ∧
  (¬ (Field.dim g = Field.dim f ∧ Field.nfens g = Field.nfens f) →
   Field.bop (Field.other_field g) bopFn f = Err InvalidInputError).
Proof.
  split.
  - intros [Hdim Hn].
    destruct (bop_field_ok f g bopFn Hdim Hn) as (out & Hout & Hshape & Hent).
    eexists. split; [exact Hout|]. simpl.
    split; [reflexivity|]. split; [reflexivity|]. split; [reflexivity|].
    split; [reflexivity|]. split; [|exact Hent].
    unfold Field.nfens, PointSet.getSize. simpl.
    apply (f_equal length) in Hshape. now rewrite !length_fmap in Hshape.
  - intros Hne. unfold Field.bop, Field._bop.
    destruct (Nat.eqb_spec (Field.dim g) (Field.dim f)) as [Hd|Hd];
      [|reflexivity].
    destruct (Nat.eqb_spec (Field.nfens g) (Field.nfens f)) as [Hn|Hn];
      [|reflexivity].
    tauto.
Qed.

Lemma bop_field_operand_witness :
  ∃ f',
    Field.bop (Field.other_field two_node_field)
              (fun a b => nadd a (to_number b)) two_node_field = Ok f' ∧
    _prescribed f' = None ∧ _prescribedValues f' = None ∧
    _eqnums f' = None ∧ _neqns f' = (-1)%Z ∧
    Field.nfens f' = Field.nfens two_node_field ∧
    ∀ d x, ps_entry (_values two_node_field) d = Some x →
           ps_entry (_values f') d
           = Some (nadd x (to_number (ps_entry (_values two_node_field) d))).
Proof.
  apply (proj1 (bop_field_operand two_node_field two_node_field
                  (fun a b => nadd a (to_number b)))).
  split; reflexivity.
Defined.

Lemma points_ext_some {A : Type} (m1 m2 : list (list A)) :
  length <$> m1 = length <$> m2 →
  (∀ i j x, m1 !! i ≫= (fun v => v !! j) = Some x →
            m2 !! i ≫= (fun v => v !! j) = Some x) →
  m1 = m2.
Proof.
  intros Hlen Hent. apply points_ext; [exact Hlen|]. intros i j.
  destruct (m1 !! i ≫= (fun v => v !! j)) as [x|] eqn:H1;
    [symmetry; now apply Hent|].
  pose proof (f_equal (fun l => l !! i) Hlen) as Hi. simpl in Hi.
  rewrite !list_lookup_fmap in Hi.
  destruct (m1 !! i) as [v1|], (m2 !! i) as [v2|];
    simpl in *; try discriminate; [|reflexivity].
  injection Hi as Hi. symmetry. apply lookup_ge_None_2.
  apply lookup_ge_None_1 in H1. lia.
Qed.

(** The number of components of the point set built on a matrix whose
    rows have the lengths of the rows of a well-shaped field with at least
    one node. *)
Lemma of_matrix_dim {T : Type} {N : Num T} (f : Field T) (out : matrix T) :
  well_shaped f → 0 < Field.nfens f →
  length <$> out = length <$> ps_points (_values f) →
  ps_rn (PointSet.of_matrix out) = Field.dim f.
Proof.
  intros (Hpts & _) Hn Hshape.
  unfold Field.nfens, PointSet.getSize in Hn.
  destruct (ps_points (_values f)) as [|v m]; [simpl in Hn; lia|].
  destruct out as [|w out]; [discriminate|].
  injection Hshape as Hw _. simpl. rewrite Hw.
  now inversion Hpts.
Qed.

(** X11: over the reals, subtracting a field after adding it gives back
    the values: for a well-shaped field [f] with at least one node and a
    field [g] of the same size, [f.add(g).sub(g)] succeeds and has the
    values of [f]. *)
Theorem add_sub_round_trip (f g : Field R) :
  well_shaped f → 0 < Field.nfens f →
  Field.dim g = Field.dim f → Field.nfens g = Field.nfens f →
  ∃ h f',
    Field.add (Field.other_field g) f = Ok h ∧
    Field.sub (Field.other_field g) h = Ok f' ∧
    _values f' = _values f.
Proof.
  intros Hwf Hpos Hdim Hn.
  destruct (bop_field_ok f g (fun a b => nadd a (to_number b)) Hdim Hn)
    as (out1 & Hadd & Hshape1 & Hent1).
  set (h := {| _values := PointSet.of_matrix out1;
               _prescribed := None; _prescribedValues := None;
               _eqnums := None; _neqns := (-1)%Z |}) in *.
  assert (Field.dim h = Field.dim f) as Hdimh
    by (now apply (of_matrix_dim f out1)).
  assert (Field.nfens h = Field.nfens f) as Hnh.
  { unfold Field.nfens, PointSet.getSize. simpl.
    apply (f_equal length) in Hshape1. now rewrite !length_fmap in Hshape1. }
  destruct (bop_field_ok h g (fun a b => nsub a (to_number b)))
    as (out2 & Hsub & Hshape2 & Hent2); [congruence|congruence|].
  exists h. eexists. split; [exact Hadd|]. split; [exact Hsub|].
  simpl in *.
  assert (out2 = ps_points (_values f)) as Hout.
  { symmetry. apply points_ext_some; [congruence|].
    intros i j x Hx.
    pose proof (Hent2 (i, j)
                  (x + to_number (ps_entry (_values g) (i, j)))%R
                  (Hent1 (i, j) x Hx)) as Hij.
    simpl in Hij. unfold matrix, vector in *. rewrite Hij.
    f_equal. lra. }
  rewrite Hout.
  pose proof (of_matrix_dim f (ps_points (_values f)) Hwf Hpos eq_refl) as Hrn.
  unfold Field.dim, PointSet.getRn in Hrn.
  destruct (_values f) as [rn m]. unfold PointSet.of_matrix in *.
  simpl in *. now rewrite Hrn.
Qed.

Lemma add_sub_round_trip_witness :
  let f : Field R :=
    {| _values := {| ps_rn := 2; ps_points := [[1; 2]; [3; 4]]%R |};
       _prescribed := None; _prescribedValues := None;
       _eqnums := None; _neqns := (-1)%Z |} in
  let g : Field R :=
    {| _values := {| ps_rn := 2; ps_points := [[5; 6]; [7; 8]]%R |};
       _prescribed := None; _prescribedValues := None;
       _eqnums := None; _neqns := (-1)%Z |} in
  ∃ h f',
    Field.add (Field.other_field g) f = Ok h ∧
    Field.sub (Field.other_field g) h = Ok f' ∧
    _values f' = _values f.
Proof.
  intros f g. apply (add_sub_round_trip f g).
  - split; [|split; intros t Ht; discriminate Ht].
    repeat constructor.
  - unfold f, Field.nfens, PointSet.getSize. simpl. lia.
  - reflexivity.
  - reflexivity.
Defined.

(** ** Nodal loads *)

Section Loads.
Context {T : Type} {N : Num T} {TT : Truthy T}.

(** [eqnum] at a node and a direction of the field, given as integers. *)
Lemma eqnum_in_range_Z (f : Field T) (e : list (gmap Z Z)) (s : Field T)
    (id dir : Z) :
  (∀ d, d ∈ dofs f → ∃ n, eqnum_at e d = Some n) →
  Field.ensure_numbered s = (Ok tt, numbered f e) →
  (0 ≤ id < Z.of_nat (Field.nfens f))%Z →
  (0 ≤ dir < Z.of_nat (Field.dim f))%Z →
  ∃ n, eqnum_at e (Z.to_nat id, Z.to_nat dir) = Some n ∧
       Field.eqnum id dir s = (Ok (Some n), numbered f e).
Proof.
  intros Hall Hs Hid Hdir.
  destruct (Hall (Z.to_nat id, Z.to_nat dir)) as [n Hn];
    [apply elem_of_dofs; simpl; lia|].
  exists n. split; [exact Hn|].
  assert (Z.to_nat id < Field.nfens (numbered f e)) as Hi
      by (change (Z.to_nat id < Field.nfens f); lia).
  assert (Z.to_nat dir < Field.dim (numbered f e)) as Hj
      by (change (Z.to_nat dir < Field.dim f); lia).
  pose proof (eqnum_in_range s (numbered f e) e _ _ Hs eq_refl Hi Hj) as Heq.
  pose proof (table_get_eqnum_at e (Z.to_nat id, Z.to_nat dir) n Hn) as Hget.
  simpl in Hget. rewrite Hget in Heq.
  now rewrite !Z2Nat.id in Heq by lia.
Qed.
End Loads.

(** X12: for a load whose nodes and directions are nodes and directions
    of a well-shaped field with a current numbering, [loads(u)] returns
    one load per pair of a node and a direction, nodes in the outer
    order: load [i * ndirs + j] carries the equation number of direction
    [dirs[j]] at node [ids[i]] and the magnitude [magns[j]], which is
    [undefined] when [magns] is shorter than [dirs].  Prescribed
    components are not left out: their loads carry the invalid number. *)
Theorem loads_spec {T : Type} {N : Num T} {TT : Truthy T}
    (l : NodalLoad T) (u : Field T) :
  well_shaped u → numbering_current u →
  Forall (fun o => ∃ id, o = Some id ∧
                         (0 ≤ id < Z.of_nat (Field.nfens u))%Z) (_ids l) →
  Forall (fun o => ∃ dir, o = Some dir ∧
                          (0 ≤ dir < Z.of_nat (Field.dim u))%Z) (_dirs l) →
  ∃ loads,
    (NodalLoad.loads l u).1 = Ok loads ∧
    length loads = length (_ids l) * length (_dirs l) ∧
    ∀ i j id dir,
      _ids l !! i = Some (Some id) → _dirs l !! j = Some (Some dir) →
      ∃ en,
        (Field.eqnum id dir u).1 = Ok (Some en) ∧
        (prescribed_at u (Z.to_nat id, Z.to_nat dir) = true →
         en = Field.INVALID_EQUATION_NUM) ∧
        loads !! (i * length (_dirs l) + j)
        = Some {| load_value := mjoin (_magns l !! j);
                  load_eqnum := Some en |}.
Proof.
  intros Hwf Hcur Hids Hdirs.
  rewrite Forall_lookup in Hids. rewrite Forall_lookup in Hdirs.
  destruct (numbering_of u Hwf Hcur) as (e & Hens & _ & Hpre & Hfree).
  pose proof (numbered_entry u e Hpre Hfree) as Hall.
  set (nd := fun (o : option (option Z)) =>
               match mjoin o with Some z => Z.to_nat z | None => 0 end).
  set (mk := fun i j =>
               {| load_value := mjoin (_magns l !! j);
                  load_eqnum := eqnum_at e (nd (_ids l !! i),
                                            nd (_dirs l !! j)) |}).
  set (G := fun i => mk i <$> seq 0 (length (_dirs l))).
  assert (∀ i, i ∈ seq 0 (length (_ids l)) → length (G i) = length (_dirs l))
    as HlenG.
  { intros i _. unfold G. now rewrite length_fmap, length_seq. }
  destruct (for_list_append_state
              (fun s => Field.ensure_numbered s = (Ok tt, numbered u e))
              (fun i =>
                 let id := mjoin (_ids l !! i) in
                 for_ (length (_dirs l))
                   (fun j (st : list (ElementLoad T) * Field T) =>
                      let '(loads, u) := st in
                      let dir := mjoin (_dirs l !! j) in
                      match NodalLoad.eqnum id dir u with
                      | (Ok en, u') =>
                          let val := mjoin (_magns l !! j) in
                          (Ok tt,
                           (loads ++ [{| load_value := val;
                                         load_eqnum := en |}], u'))
                      | (Err e, u') => (Err e, (loads, u'))
                      end))
              G (seq 0 (length (_ids l))))
    with (vec := @nil (ElementLoad T)) (s := u)
    as (s' & Hrun & _); [|exact Hens|].
  { intros i Hi vec s Hs. apply elem_of_seq in Hi.
    destruct (lookup_lt_is_Some_2 (_ids l) i ltac:(lia)) as [oid Hoid].
    destruct (Hids i oid Hoid) as (id & -> & Hid).
    cbn zeta. unfold for_, G. rewrite <- bind_singleton.
    apply (for_list_append_state
             (fun s => Field.ensure_numbered s = (Ok tt, numbered u e)));
      [|exact Hs].
    intros j Hj vec' s1 Hs1. apply elem_of_seq in Hj.
    destruct (lookup_lt_is_Some_2 (_dirs l) j ltac:(lia)) as [odir Hodir].
    destruct (Hdirs j odir Hodir) as (dir & -> & Hdir).
    destruct (eqnum_in_range_Z u e s1 id dir Hall Hs1 Hid Hdir)
      as (n & Hn & Heq).
    exists (numbered u e). split; [|reflexivity].
    rewrite Hoid, Hodir. simpl. rewrite Heq.
    unfold mk, nd. rewrite Hoid, Hodir. simpl. now rewrite Hn. }
  exists (seq 0 (length (_ids l)) ≫= G). split; [|split].
  - unfold NodalLoad.loads. cbv zeta. cbv zeta in Hrun.
    unfold for_ in Hrun |- *. now rewrite Hrun.
  - rewrite (length_bind_fixed G (length (_dirs l))) by exact HlenG.
    now rewrite length_seq.
  - intros i j id dir Hi Hj.
    destruct (Hids i _ Hi) as (id' & [= <-] & Hid).
    destruct (Hdirs j _ Hj) as (dir' & [= <-] & Hdir).
    destruct (eqnum_in_range_Z u e u id dir Hall Hens Hid Hdir)
      as (n & Hn & Heq).
    exists n. split; [now rewrite Heq|]. split.
    + intros Hp. specialize (Hpre (Z.to_nat id, Z.to_nat dir)).
      rewrite Hn in Hpre. 
      assert (Some n = Some Field.INVALID_EQUATION_NUM) as [= ->];
        [|reflexivity].
      apply Hpre; [|exact Hp]. apply elem_of_dofs. simpl. lia.
    + pose proof (lookup_lt_Some _ _ _ Hi) as Hilt.
      pose proof (lookup_lt_Some _ _ _ Hj) as Hjlt.
      rewrite (lookup_bind_fixed G (length (_dirs l)) _ i j i); auto.
      * unfold G. rewrite list_lookup_fmap, lookup_seq_lt by exact Hjlt.
        simpl. unfold mk, nd. rewrite Hi, Hj. simpl. now rewrite Hn.
      * now apply lookup_seq_lt.
Qed.

Lemma loads_spec_witness :
  let l := NodalLoad.new
             {| opt_ids := Some (many [0; 1]%Z); opt_id := None;
                opt_dirs := None; opt_dir := Some (one 1%Z);
                opt_magns := None; opt_magn := Some (one 2.5%float) |} in
  ∃ loads,
    (NodalLoad.loads l two_node_field).1 = Ok loads ∧
    length loads = 2 * 1 ∧
    ∀ i j id dir,
      _ids l !! i = Some (Some id) → _dirs l !! j = Some (Some dir) →
      ∃ en,
        (Field.eqnum id dir two_node_field).1 = Ok (Some en) ∧
        (prescribed_at two_node_field (Z.to_nat id, Z.to_nat dir) = true →
         en = Field.INVALID_EQUATION_NUM) ∧
        loads !! (i * 1 + j)
        = Some {| load_value := mjoin (_magns l !! j);
                  load_eqnum := Some en |}.
Proof.
  intros l.
  apply (loads_spec l two_node_field two_node_field_well_shaped
           (or_introl eq_refl)).
  - repeat constructor; eexists; (split; [reflexivity|]);
      vm_compute; split; (discriminate || reflexivity).
  - repeat constructor; eexists; (split; [reflexivity|]);
      vm_compute; split; (discriminate || reflexivity).
Defined.

Example two_node_field_loads :
  (NodalLoad.loads
     (NodalLoad.new
        {| opt_ids := Some (many [0; 1]%Z); opt_id := None;
           opt_dirs := None; opt_dir := Some (one 1%Z);
           opt_magns := None; opt_magn := Some (one 2.5%float) |})
     two_node_field).1
  = Ok [ {| load_value := Some 2.5%float; load_eqnum := Some (-1)%Z |};
         {| load_value := Some 2.5%float; load_eqnum := Some 1%Z |} ].
Proof. vm_compute. reflexivity. Qed.

(** X13: a node given as the number [0] under the key [ids] (and no
    [id]) is lost to [options.ids || options.id]: the load holds an
    [undefined] node, and [loads(u)] throws a [TypeError] at the first
    direction of the field. *)
Theorem loads_scalar_zero_ids {T : Type} {N : Num T} {TT : Truthy T}
    (options : NodalLoadOption T) (u : Field T) (dir : Z)
    (dirs : list (option Z)) :
  opt_ids options = Some (one 0%Z) → opt_id options = None →
  _dirs (NodalLoad.new options) = Some dir :: dirs →
  (0 ≤ dir < Z.of_nat (Field.dim u))%Z →
  well_shaped u → numbering_current u →
  _ids (NodalLoad.new options) = [None] ∧
  (NodalLoad.loads (NodalLoad.new options) u).1 = Err TypeError.
Proof.
  intros Hids Hid Hdirs Hdir Hwf Hcur.
  assert (_ids (NodalLoad.new options) = [None]) as Hnone.
  { unfold NodalLoad.new. simpl. now rewrite Hids, Hid. }
  split; [exact Hnone|].
  destruct (numbering_of u Hwf Hcur) as (e & Hens & _).
  unfold NodalLoad.loads. rewrite Hnone, Hdirs. unfold for_. simpl.
  unfold NodalLoad.eqnum. rewrite Hens.
  destruct (Z.ltb_spec dir 0); [lia|].
  destruct (Z.leb_spec (Z.of_nat (Field.dim (numbered u e))) dir) as [Hle|];
    [|reflexivity].
  change (Field.dim (numbered u e)) with (Field.dim u) in Hle. lia.
Qed.

Lemma loads_scalar_zero_ids_witness :
  let options :=
    {| opt_ids := Some (one 0%Z); opt_id := None;
       opt_dirs := None; opt_dir := Some (one 1%Z);
       opt_magns := None; opt_magn := Some (one 2.5%float) |} in
  _ids (NodalLoad.new options) = [None] ∧
  (NodalLoad.loads (NodalLoad.new options) two_node_field).1 = Err TypeError.
Proof.
  intros options.
  apply (loads_scalar_zero_ids options two_node_field 1%Z []);
    try reflexivity.
  - vm_compute. split; [discriminate|reflexivity].
  - exact two_node_field_well_shaped.
  - left. reflexivity.
Defined.

(** ** Shape functions and Jacobians, end to end *)

(** X14: on a straight two-node element with end points [a] and [b] in
    the plane, the curve Jacobian computed from [bfundpar] through
    [jacobianMatrix] is half the distance of the end points, at every
    parametric point (exact arithmetic). *)
Theorem L2_jacobian_half_length
    (g : GCellSet R) (conn : list Z) (Nv : matrix R) (xi a1 a2 b1 b2 : R) :
  let x := [[a1; a2]; [b1; b2]] in
  ∃ nder,
    L2.bfundpar [xi] = Ok nder ∧
    Manifold1GCellSet.jacobianCurve g conn Nv
      (GCellSet.jacobianMatrix nder x) x
    = Ok (euclidean_norm [b1 - a1; b2 - a2] / 2)%R.
Proof.
  intros x. eexists. split; [reflexivity|].
  unfold Manifold1GCellSet.jacobianCurve, GCellSet.jacobianMatrix. simpl.
  f_equal. unfold numeric.norm, numeric.dotVV, euclidean_norm. simpl.
  assert (sqrt 4 = 2%R) as H4.
  { replace 4%R with (2 * 2)%R by lra. apply sqrt_square. lra. }
  transitivity
    (sqrt ((b1 - a1) * (b1 - a1) + ((b2 - a2) * (b2 - a2) + 0)) / sqrt 4)%R;
    [|now rewrite H4].
  rewrite <- sqrt_div_alt by lra. f_equal. field.
Qed.

(** X15: on a parallelogram with corner [a] and sides [u] and [v] (nodes
    [a], [a + u], [a + u + v], [a + v]), the surface Jacobian computed
    from [bfundpar] through [jacobianMatrix] is a quarter of the signed
    area [u1 v2 - u2 v1], at every parametric point (exact
    arithmetic). *)
Theorem Q4_jacobian_parallelogram
    (g : GCellSet R) (conn : list Z) (Nv : matrix R)
    (xi eta a1 a2 u1 u2 v1 v2 : R) :
  let x := [[a1; a2]; [a1 + u1; a2 + u2];
            [a1 + u1 + v1; a2 + u2 + v2]; [a1 + v1; a2 + v2]]%R in
  ∃ nder,
    Q4.bfundpar [xi; eta] = Ok nder ∧
    Manifold2GCellSet.jacobianSurface g conn Nv
      (GCellSet.jacobianMatrix nder x) x
    = Ok ((u1 * v2 - u2 * v1) / 4)%R.
Proof.
  intros x. eexists. split; [reflexivity|].
  unfold Manifold2GCellSet.jacobianSurface, GCellSet.jacobianMatrix. simpl.
  f_equal. unfold Manifold2GCellSet.entry, numeric.dotVV. simpl. field.
Qed.

(** X16: the basis functions interpolate the nodes: with the basis
    function values at a parametric corner, the point
    [mul(transpose(N), x)[0]] is the matching node of the element, for
    the two ends of an L2 and the four corners of a Q4 (exact
    arithmetic). *)
Theorem bfun_interpolates_nodes (a1 a2 b1 b2 c1 c2 d1 d2 : R) :
  let xl := [[a1; a2]; [b1; b2]] in
  let xq := [[a1; a2]; [b1; b2]; [c1; c2]; [d1; d2]] in
  let point (Nv : result (matrix R)) (x : matrix R) :=
    Nv ≫= fun Nv => Ok (head (numeric.mul (numeric.transpose Nv) x)) in
  point (L2.bfun [-1]%R) xl = Ok (Some [a1; a2]) ∧
  point (L2.bfun [1]%R) xl = Ok (Some [b1; b2]) ∧
  point (Q4.bfun [-1; -1]%R) xq = Ok (Some [a1; a2]) ∧
  point (Q4.bfun [1; -1]%R) xq = Ok (Some [b1; b2]) ∧
  point (Q4.bfun [1; 1]%R) xq = Ok (Some [c1; c2]) ∧
  point (Q4.bfun [-1; 1]%R) xq = Ok (Some [d1; d2]).
Proof.
  intros xl xq point.
  repeat split; unfold point; simpl; unfold numeric.dotVV; simpl;
    do 3 f_equal; try field; f_equal; field.
Qed.

(** X17: [bfundpar] is the exact difference quotient of [bfun]: moving
    the parametric point by [h] in one parametric direction changes every
    basis function by [h] times its entry in the matching column of
    [bfundpar] (exact arithmetic).  In particular the entries of each
    column of [bfundpar] sum to zero. *)
Theorem bfundpar_difference_quotient (xi eta h : R) :
  (∃ Nv Nh D,
     L2.bfun [xi] = Ok Nv ∧ L2.bfun [xi + h]%R = Ok Nh ∧
     L2.bfundpar [xi] = Ok D ∧
     (∀ k, k < 2 →
           (Manifold2GCellSet.entry Nh k 0 - Manifold2GCellSet.entry Nv k 0
            = h * Manifold2GCellSet.entry D k 0)%R) ∧
     sum_entries D = 0%R) ∧
  (∃ Nv Nh Ne D,
     Q4.bfun [xi; eta] = Ok Nv ∧ Q4.bfun [xi + h; eta]%R = Ok Nh ∧
     Q4.bfun [xi; eta + h]%R = Ok Ne ∧ Q4.bfundpar [xi; eta] = Ok D ∧
     (∀ k, k < 4 →
           (Manifold2GCellSet.entry Nh k 0 - Manifold2GCellSet.entry Nv k 0
            = h * Manifold2GCellSet.entry D k 0)%R ∧
           (Manifold2GCellSet.entry Ne k 0 - Manifold2GCellSet.entry Nv k 0
            = h * Manifold2GCellSet.entry D k 1)%R) ∧
     sum_entries (numeric.transpose D) = 0%R ∧
     sum_entries [numeric.nthColumn D 1] = 0%R ∧
     sum_entries [numeric.nthColumn D 2] = 0%R).
Proof.
  split.
  - do 3 eexists. split; [reflexivity|]. split; [reflexivity|].
    split; [reflexivity|]. split.
    + intros k Hk. destruct k as [|[|k]]; [| |lia];
        unfold Manifold2GCellSet.entry; simpl; field.
    + unfold sum_entries. simpl. field.
  - do 4 eexists. split; [reflexivity|]. split; [reflexivity|].
    split; [reflexivity|]. split; [reflexivity|]. split; [|split; [|split]].
    + intros k Hk. destruct k as [|[|[|[|k]]]]; [| | | |lia];
        unfold Manifold2GCellSet.entry; simpl; split; field.
    + unfold sum_entries. simpl. field.
    + unfold sum_entries. simpl. field.
    + unfold sum_entries. simpl. field.
Qed.

(** ** Triangles of a quad cell set *)

Lemma quad_triangles (rows : list (list Z)) :
  Forall (fun r => length r = 4) rows →
  let tris :=
    flat_map (fun quad =>
                match quad with
                | [q0; q1; q2; q3] => [[q0; q1; q2]; [q2; q3; q0]]
                | _ => []
                end) rows in
  length tris = 2 * length rows ∧
  ∀ k quad, rows !! k = Some quad →
    ∃ q0 q1 q2 q3,
      quad = [q0; q1; q2; q3] ∧
      tris !! (2 * k) = Some [q0; q1; q2] ∧
      tris !! (2 * k + 1) = Some [q2; q3; q0].
Proof.
  induction 1 as [|r rows Hr Hrows IH]; cbn zeta.
  - split; [reflexivity|]. intros k quad Hk. discriminate.
  - destruct r as [|q0 [|q1 [|q2 [|q3 [|? ?]]]]]; try discriminate.
    destruct IH as [IHlen IHent]. cbn [flat_map app length].
    split; [lia|].
    intros [|k] quad Hk; simpl in Hk.
    + injection Hk as <-. exists q0, q1, q2, q3. auto.
    + destruct (IHent k quad Hk) as (p0 & p1 & p2 & p3 & -> & H0 & H1).
      exists p0, p1, p2, p3. split; [reflexivity|].
      replace (2 * S k) with (S (S (2 * k))) by lia.
      replace (S (S (2 * k)) + 1) with (S (S (2 * k + 1))) by lia.
      split; [exact H0|exact H1].
Qed.

(** X18: a constructed Q4 cell set has two triangles per cell: cell [k]
    with nodes [q0 q1 q2 q3] gives the triangles [q0 q1 q2] at position
    [2k] and [q2 q3 q0] at position [2k + 1]. *)
Theorem Q4_triangles_spec {T : Type} {N : Num T} (g : GCellSet T) :
  constructed g → cell_type g = type_Q4 →
  length (Q4.triangles g) = 2 * GCellSet.count g ∧
  ∀ k quad, GCellSet.conn g !! k = Some quad →
    ∃ q0 q1 q2 q3,
      quad = [q0; q1; q2; q3] ∧
      Q4.triangles g !! (2 * k) = Some [q0; q1; q2] ∧
      Q4.triangles g !! (2 * k + 1) = Some [q2; q3; q0].
Proof.
  intros Hg Hct. destruct (constructed_inv g Hg) as [Hdim Hrows].
  rewrite Hct in Hdim, Hrows. simpl in Hdim.
  assert (Forall (fun r => length r = 4) (GCellSet.conn g)) as Hlen.
  { apply Forall_forall. intros r Hr.
    rewrite forallb_forall in Hrows.
    specialize (Hrows (Some r)). simpl in Hrows.
    assert (In (Some r) (Some <$> GCellSet.conn g)) as Hin.
    { apply list_elem_of_In, list_elem_of_fmap. eauto. }
    apply Hrows in Hin. apply andb_true_iff in Hin as [Hin _].
    now apply Nat.eqb_eq in Hin. }
  assert (topology.getCellsInDim (_topology g) 2 = GCellSet.conn g) as Hcells.
  { unfold GCellSet.conn, topology.getMaxCells. now rewrite Hdim. }
  unfold Q4.triangles, GCellSet.count, topology.getNumOfCellsInDim.
  rewrite Hdim, Hcells. exact (quad_triangles (GCellSet.conn g) Hlen).
Qed.

Lemma three_quads_constructed : constructed three_quads.
Proof. exists 7, (arg_options three_quads_options). reflexivity. Qed.

Lemma Q4_triangles_spec_witness :
  length (Q4.triangles three_quads) = 2 * GCellSet.count three_quads ∧
  ∀ k quad, GCellSet.conn three_quads !! k = Some quad →
    ∃ q0 q1 q2 q3,
      quad = [q0; q1; q2; q3] ∧
      Q4.triangles three_quads !! (2 * k) = Some [q0; q1; q2] ∧
      Q4.triangles three_quads !! (2 * k + 1) = Some [q2; q3; q0].
Proof.
  apply (Q4_triangles_spec three_quads three_quads_constructed).
  reflexivity.
Defined.

(** ** Subsets of subsets *)

Section SubsetTwice.
Context {T : Type} {N : Num T}.

(** What a successful [subset] tells: the rows selected are all there,
    and the class and the two options are those of the source, the other
    dimension once more checked by the constructor. *)
Lemma subset_inv uid (g g1 : GCellSet T) indices :
  gcellset.subset uid g indices = Ok g1 →
  GCellSet.subset (GCellSet.conn g) indices = Some <$> GCellSet.conn g1 ∧
  cell_type g1 = cell_type g ∧
  GCellSet.axisSymm g1 = GCellSet.axisSymm g ∧
  _otherDimension g1
  = GCellSet.checked_otherDimension (Some (_otherDimension g)).
Proof.
  rewrite subset_as_construct.
  erewrite construct_as_hypercube by reflexivity.
  destruct (topology.hypercube _ _) as [t|] eqn:Hh; [|discriminate].
  simpl. intros Hnew.
  apply GCellSet_new_inv in Hnew as (t' & [= <-] & Ht & Hct & _ & Hax & Hod).
  apply hypercube_inv in Hh as (Hv & _ & _ & Hmax).
  split; [|split; [exact Hct|split; [exact Hax|exact Hod]]].
  unfold GCellSet.conn. rewrite Ht, Hmax.
  clear -Hv. induction (GCellSet.subset _ indices) as [|[r|] c IH];
    simpl in *; try reflexivity; try discriminate.
  apply andb_true_iff in Hv as [_ Hv]. f_equal. now apply IH.
Qed.

(** A constructor handed an other dimension that was checked before
    builds what it builds from the unchecked one. *)
Lemma construct_checked ct uid c a (d : OtherDimension T) t :
  gcellset.construct ct uid
    (arg_options
       {| opt_conn := c; opt_axisSymm := a;
          opt_otherDimension :=
            Some (GCellSet.checked_otherDimension (Some d));
          opt_topology := t |})
  = gcellset.construct ct uid
      (arg_options
         {| opt_conn := c; opt_axisSymm := a;
            opt_otherDimension := Some d;
            opt_topology := t |}).
Proof.
  destruct c as [c|]; [|destruct ct; reflexivity].
  rewrite !(construct_as_hypercube ct uid _ c) by reflexivity.
  destruct (topology.hypercube c (dim_of ct)) as [t'|]; [|reflexivity].
  cbn [mbind result_bind]. unfold GCellSet.new.
  cbn [opt_topology opt_otherDimension opt_axisSymm opt_conn].
  now rewrite checked_otherDimension_idemp.
Qed.
End SubsetTwice.

(** X19: a subset of a subset is a subset: when [g.subset(is1)] returns
    [g1] and every index of [is2] is a position of [is1],
    [g1.subset(is2)] is [g.subset] of the indices of [is1] at the
    positions [is2] (the same result, or the same failure). *)
Theorem subset_subset {T : Type} {N : Num T}
    (g g1 : GCellSet T) (uid1 uid2 : nat) (is1 is2 : list Z) :
  gcellset.subset uid1 g is1 = Ok g1 →
  Forall (fun i => (0 ≤ i < Z.of_nat (length is1))%Z) is2 →
  gcellset.subset uid2 g1 is2
  = gcellset.subset uid2 g (omap (js_at is1) is2).
Proof.
  intros H1 Hin.
  destruct (subset_inv uid1 g g1 is1 H1) as (Hsel & Hct & Hax & Hod).
  rewrite !subset_as_construct, Hct, Hax, Hod.
  assert (GCellSet.subset (GCellSet.conn g1) is2
          = GCellSet.subset (GCellSet.conn g) (omap (js_at is1) is2))
    as ->; [|apply construct_checked].
  unfold GCellSet.subset in *.
  induction Hin as [|i is2 Hi Hin IH]; [reflexivity|].
  destruct (js_at_in_range is1 i Hi) as [j Hj].
  simpl. rewrite Hj. simpl. f_equal; [|exact IH].
  pose proof (f_equal (fun l => l !! Z.to_nat i) Hsel) as Hrow.
  simpl in Hrow. rewrite list_lookup_fmap in Hrow.
  unfold js_at in Hj |- *. destruct (Z.ltb_spec i 0); [lia|].
  change (map (js_at (GCellSet.conn g)) is1)
    with (js_at (GCellSet.conn g) <$> is1) in Hrow.
  rewrite list_lookup_fmap, Hj in Hrow. simpl in Hrow.
  destruct (GCellSet.conn g1 !! Z.to_nat i) as [r|]; [|discriminate].
  simpl in Hrow. injection Hrow as Hrow. unfold js_at in Hrow.
  now rewrite Hrow.
Qed.

Lemma subset_subset_witness :
  ∃ g1,
    gcellset.subset 8 three_quads [2; 0]%Z = Ok g1 ∧
    gcellset.subset 9 g1 [1; 1; 0]%Z
    = gcellset.subset 9 three_quads (omap (js_at [2; 0]%Z) [1; 1; 0]%Z).
Proof.
  eexists. split; [reflexivity|].
  apply (subset_subset three_quads _ 8 9 [2; 0]%Z [1; 1; 0]%Z eq_refl).
  repeat constructor; vm_compute; discriminate.
Defined.

(** ** One-manifold cell sets: surface and volume *)

(** X20: for a cell set of a one-manifold class that is not axially
    symmetric, the volume Jacobian is computed as the surface Jacobian
    is, the curve Jacobian times the other dimension; when it is axially
    symmetric, the volume Jacobian is the surface Jacobian times the
    other dimension. *)
Theorem Manifold1_surface_volume {T : Type} {N : Num T}
    (g : GCellSet T) (conn : list Z) (Nv J x : matrix T) :
  (GCellSet.axisSymm g = false →
   Manifold1GCellSet.jacobianVolumn g conn Nv J x
   = Manifold1GCellSet.jacobianSurface g conn Nv J x ∧
   ∀ c, Manifold1GCellSet.jacobianCurve g conn Nv J x = Ok c →
        Manifold1GCellSet.jacobianSurface g conn Nv J x
        = Ok (c * GCellSet.otherDimension g conn Nv x)%num) ∧
  (GCellSet.axisSymm g = true →
   ∀ s, Manifold1GCellSet.jacobianSurface g conn Nv J x = Ok s →
        Manifold1GCellSet.jacobianVolumn g conn Nv J x
        = Ok (s * GCellSet.otherDimension g conn Nv x)%num).
Proof.
  unfold Manifold1GCellSet.jacobianVolumn, Manifold1GCellSet.jacobianSurface.
  split; intros ->.
  - split; [reflexivity|]. now intros c ->.
  - intros s.
    destruct (Manifold1GCellSet.jacobianCurve g conn Nv J x) as [c|];
      [|discriminate].
    simpl. destruct (head _) as [xyz|]; [|discriminate].
    now intros [= <-].
Qed.

(** X21: an axially symmetric two-node element from [(r1, z1)] to
    [(r2, z2)]: with [N = bfun(xi)] and [J] computed from [bfundpar], the
    surface Jacobian is half the length of the element times the
    circumference [2 PI r] of the circle through the point of the
    element at [xi], whose radius is
    [(1 - xi)/2 r1 + (1 + xi)/2 r2] (exact arithmetic). *)
Theorem L2_axisymmetric_surface
    (g : GCellSet R) (conn : list Z) (xi r1 z1 r2 z2 : R) :
  GCellSet.axisSymm g = true →
  let x := [[r1; z1]; [r2; z2]] in
  ∃ Nv nder,
    L2.bfun [xi] = Ok Nv ∧ L2.bfundpar [xi] = Ok nder ∧
    Manifold1GCellSet.jacobianInDim g conn Nv
      (GCellSet.jacobianMatrix nder x) x 2
    = Ok (euclidean_norm [r2 - r1; z2 - z1] / 2 * 2 * PI
          * ((1 - xi) / 2 * r1 + (1 + xi) / 2 * r2))%R.
Proof.
  intros Hax x. do 2 eexists. split; [reflexivity|]. split; [reflexivity|].
  unfold Manifold1GCellSet.jacobianInDim, Manifold1GCellSet.jacobianSurface.
  rewrite Hax.
  unfold Manifold1GCellSet.jacobianCurve, GCellSet.jacobianMatrix. simpl.
  f_equal. unfold numeric.norm, numeric.dotVV, euclidean_norm. simpl.
  assert (sqrt 4 = 2%R) as H4.
  { replace 4%R with (2 * 2)%R by lra. apply sqrt_square. lra. }
  assert (sqrt (0 + (0 + r1 * - (1 / 2) + r2 * (1 / 2)) *
                    (0 + r1 * - (1 / 2) + r2 * (1 / 2)) +
                (0 + z1 * - (1 / 2) + z2 * (1 / 2)) *
                (0 + z1 * - (1 / 2) + z2 * (1 / 2)))
          = (sqrt ((r2 - r1) * (r2 - r1) + ((z2 - z1) * (z2 - z1) + 0)) / 2)%R)
    as ->.
  { transitivity
      (sqrt ((r2 - r1) * (r2 - r1) + ((z2 - z1) * (z2 - z1) + 0)) / sqrt 4)%R;
      [|now rewrite H4].
    rewrite <- sqrt_div_alt by lra. f_equal. field. }
  field.
Qed.

Lemma L2_axisymmetric_surface_witness :
  let g : GCellSet R :=
    {| cell_type := type_L2; _axisSymm := true;
       _otherDimension := od_number 1%R; _id := 0;
       _topology := {| topo_dim := 1;
                       topo_cells := [ [[0]; [1]]; [[0; 1]] ]%Z |} |} in
  let x := [[1; 0]; [1; 3]]%R in
  ∃ Nv nder,
    L2.bfun [0%R] = Ok Nv ∧ L2.bfundpar [0%R] = Ok nder ∧
    Manifold1GCellSet.jacobianInDim g [0; 1]%Z Nv
      (GCellSet.jacobianMatrix nder x) x 2
    = Ok (euclidean_norm [1 - 1; 3 - 0] / 2 * 2 * PI
          * ((1 - 0) / 2 * 1 + (1 + 0) / 2 * 1))%R.
Proof.
  intros g x.
  exact (L2_axisymmetric_surface g [0; 1]%Z 0 1 0 1 3 eq_refl).
Defined.

Lemma Manifold1_surface_volume_witness :
  Manifold1GCellSet.jacobianVolumn unit_line [0; 1]%Z [[0.5]; [0.5]]%float
    [[5]; [0]]%float [[0; 0]; [10; 0]]%float
  = Manifold1GCellSet.jacobianSurface unit_line [0; 1]%Z [[0.5]; [0.5]]%float
      [[5]; [0]]%float [[0; 0]; [10; 0]]%float.
Proof.
  exact (proj1 (proj1 (Manifold1_surface_volume unit_line [0; 1]%Z
                         [[0.5]; [0.5]]%float [[5]; [0]]%float
                         [[0; 0]; [10; 0]]%float) eq_refl)).
Defined.

(** ** Gathering values *)

Section GatherValues.
Context {T : Type} {N : Num T}.

(** The loop of [gatherValuesMatrix] from position [k0] on: entry
    [k0 + i] receives the point [conn[i]], the other entries stay. *)
Lemma gather_values_loop (p : PointSet T) (l : list Z) :
  Forall (fun id => (0 ≤ id < Z.of_nat (length (ps_points p)))%Z) l →
  ∀ (k0 : nat) (mat : list (option (vector T))),
    k0 + length l ≤ length mat →
    ∃ mat',
      for_list
        (fun (q : nat * Z) (mat : list (option (vector T))) =>
           match PointSet.get p q.2 with
           | Ok v => (Ok tt, <[q.1 := Some v]> mat)
           | Err e => (Err e, mat)
           end)
        (imap (fun i idx => (k0 + i, idx)) l) mat = (Ok tt, mat') ∧
      length mat' = length mat ∧
      (∀ j, j < k0 → mat' !! j = mat !! j) ∧
      ∀ i id, l !! i = Some id →
              ∃ v, PointSet.get p id = Ok v ∧ mat' !! (k0 + i) = Some (Some v).
Proof.
  induction 1 as [|id l Hid Hl IH]; intros k0 mat Hlen.
  - exists mat. repeat split; auto. intros i id Hi. discriminate.
  - simpl in Hlen. destruct (js_at_in_range (ps_points p) id Hid) as [v Hv].
    assert (PointSet.get p id = Ok v) as Hget
        by (unfold PointSet.get; now rewrite Hv).
    destruct (IH (S k0) (<[k0 := Some v]> mat)) as (mat' & Hrun & Hlen' & Hlow & Hent).
    { rewrite length_insert. lia. }
    exists mat'. split; [|split; [|split]].
    + simpl. rewrite Nat.add_0_r. rewrite Hget.
      erewrite imap_ext; [exact Hrun|].
      intros i x _. simpl. f_equal. lia.
    + now rewrite Hlen', length_insert.
    + intros j Hj. rewrite Hlow by lia.
      apply list_lookup_insert_ne. lia.
    + intros [|i] id' Hi; simpl in Hi.
      * injection Hi as <-. exists v. split; [exact Hget|].
        rewrite Nat.add_0_r, Hlow by lia.
        apply list_lookup_insert_eq. lia.
      * destruct (Hent i id' Hi) as (v' & Hget' & Hv').
        exists v'. split; [exact Hget'|].
        now replace (k0 + S i) with (S k0 + i) by lia.
Qed.
End GatherValues.

(** X22: for a connectivity of nodes of the field,
    [gatherValuesMatrix(conn)] returns one row per entry of [conn], and
    row [k] is the vector of values [at(conn[k])]. *)
Theorem gatherValuesMatrix_spec {T : Type} {N : Num T}
    (f : Field T) (conn : list Z) :
  Forall (fun id => (0 ≤ id < Z.of_nat (Field.nfens f))%Z) conn →
  ∃ mat,
    Field.gatherValuesMatrix conn f = Ok mat ∧
    length mat = length conn ∧
    ∀ k id, conn !! k = Some id →
      ∃ v, Field.at_ f id = Ok v ∧ mat !! k = Some (Some v).
Proof.
  intros Hconn.
  destruct (gather_values_loop (_values f) conn Hconn 0
              (replicate (length conn) None))
    as (mat & Hrun & Hlen & _ & Hent).
  { rewrite length_replicate. lia. }
  exists mat. split; [|split].
  - unfold Field.gatherValuesMatrix. cbv zeta.
    erewrite imap_ext; [rewrite Hrun; reflexivity|].
    intros i x _. reflexivity.
  - now rewrite Hlen, length_replicate.
  - intros k id Hk. exact (Hent k id Hk).
Qed.

Lemma gatherValuesMatrix_spec_witness :
  ∃ mat,
    Field.gatherValuesMatrix [1; 0; 1]%Z two_node_field = Ok mat ∧
    length mat = 3 ∧
    ∀ k id, [1; 0; 1]%Z !! k = Some id →
      ∃ v, Field.at_ two_node_field id = Ok v ∧ mat !! k = Some (Some v).
Proof.
  apply (gatherValuesMatrix_spec two_node_field [1; 0; 1]%Z).
  repeat constructor; vm_compute; discriminate.
Defined.

(** ** Construction of a cell set *)

(** X23: what a constructor of [L2] or [Q4] returns: the cells are the
    rows of [options.conn], in order; [axisSymm] defaults to false and
    [otherDimension] to the number 1; and a [topology] put in the options
    by the caller is ignored, the constructor overwriting it with the
    topology of [conn]. *)
Theorem constructor_spec {T : Type} {N : Num T}
    (ct : CellType) (uid : nat) (o : InitOption T) (g : GCellSet T) :
  gcellset.construct ct uid (arg_options o) = Ok g →
  ∃ rows,
    opt_conn o = Some (Some <$> rows) ∧
    GCellSet.conn g = rows ∧ GCellSet.count g = length rows ∧
    cell_type g = ct ∧ _id g = uid ∧
    GCellSet.axisSymm g = default false (opt_axisSymm o) ∧
    (opt_otherDimension o = None →
     ∀ c Nv x, GCellSet.otherDimension g c Nv x = num1) ∧
    ∀ t, gcellset.construct ct uid
           (arg_options {| opt_conn := opt_conn o;
                           opt_axisSymm := opt_axisSymm o;
                           opt_otherDimension := opt_otherDimension o;
                           opt_topology := t |}) = Ok g.
Proof.
  intros Hc.
  destruct (opt_conn o) as [c|] eqn:Hconn;
    [|destruct ct; unfold gcellset.construct, L2.new, Q4.new in Hc;
      simpl in Hc; rewrite Hconn in Hc; discriminate].
  pose proof Hc as Hc'.
  rewrite (construct_as_hypercube ct uid o c Hconn) in Hc'.
  destruct (topology.hypercube c (dim_of ct)) as [t|] eqn:Hh; [|discriminate].
  simpl in Hc'.
  assert (_id g = uid) as Hid.
  { unfold GCellSet.new in Hc'. simpl in Hc'.
    repeat match type of Hc' with
           | (if ?b then _ else _) = _ => destruct b; [discriminate|]
           end.
    now injection Hc' as <-. }
  apply GCellSet_new_inv in Hc' as (t' & [= <-] & Ht & Hct & _ & Hax & Hod).
  apply hypercube_inv in Hh as (Hv & _ & _ & Hmax).
  assert (c = Some <$> GCellSet.conn g) as Hrows.
  { unfold GCellSet.conn. rewrite Ht, Hmax.
    clear -Hv. induction c as [|[r|] c IH];
      simpl in *; try reflexivity; try discriminate.
    apply andb_true_iff in Hv as [_ Hv]. f_equal. now apply IH. }
  exists (GCellSet.conn g). split; [now rewrite <- Hrows|].
  split; [reflexivity|]. split; [reflexivity|]. split; [exact Hct|].
  split; [exact Hid|]. split; [exact Hax|]. split.
  - intros Hnone c' Nv x. unfold GCellSet.otherDimension.
    rewrite Hod, Hnone. reflexivity.
  - intros t'. rewrite <- Hc.
    rewrite !(construct_as_hypercube ct uid _ c)
      by (assumption || reflexivity).
    reflexivity.
Qed.

Lemma constructor_spec_witness :
  ∃ rows,
    opt_conn three_quads_options = Some (Some <$> rows) ∧
    GCellSet.conn three_quads = rows ∧
    GCellSet.count three_quads = length rows ∧
    cell_type three_quads = type_Q4 ∧ _id three_quads = 7 ∧
    GCellSet.axisSymm three_quads
    = default false (opt_axisSymm three_quads_options) ∧
    (opt_otherDimension three_quads_options = None →
     ∀ c Nv x, GCellSet.otherDimension three_quads c Nv x = num1) ∧
    ∀ t, gcellset.construct type_Q4 7
           (arg_options {| opt_conn := opt_conn three_quads_options;
                           opt_axisSymm := opt_axisSymm three_quads_options;
                           opt_otherDimension :=
                             opt_otherDimension three_quads_options;
                           opt_topology := t |}) = Ok three_quads.
Proof.
  exact (constructor_spec type_Q4 7 three_quads_options three_quads eq_refl).
Defined.

(** ** Edge keys *)

Lemma string_app_assoc (s1 s2 s3 : string) :
  (s1 +:+ s2) +:+ s3 = s1 +:+ (s2 +:+ s3).
Proof.
  induction s1 as [|c s1 IH]; [reflexivity|].
  change (String c ((s1 +:+ s2) +:+ s3) = String c (s1 +:+ s2 +:+ s3)).
  now rewrite IH.
Qed.

Lemma string_app_inj_length (s1 s2 t1 t2 : string) :
  String.length s1 = String.length s2 →
  s1 +:+ t1 = s2 +:+ t2 → s1 = s2 ∧ t1 = t2.
Proof.
  revert s2. induction s1 as [|c s1 IH]; intros [|c' s2] Hlen Heq;
    try discriminate; [auto|].
  change (String c (s1 +:+ t1) = String c' (s2 +:+ t2)) in Heq.
  injection Heq as -> Heq. injection Hlen as Hlen.
  destruct (IH s2 Hlen Heq) as [-> ->]. auto.
Qed.

(** The digits of [b] are put in front of the string [s]. *)
Lemma pretty_N_go_app (b : N) (s : string) :
  pretty_N_go b s = pretty_N_go b "" +:+ s.
Proof.
  revert s. induction (N.lt_wf_0 b) as [b _ IH]; intros s.
  destruct (N.eq_dec b 0%N) as [->|Hb]; [reflexivity|].
  assert (0 < b)%N as Hpos by lia.
  assert (b `div` 10 < b)%N as Hlt by (apply N.div_lt; lia).
  rewrite !(pretty_N_go_step b) by exact Hpos.
  rewrite (IH _ Hlt (String (pretty_N_char (b `mod` 10)) s)).
  rewrite (IH _ Hlt (String (pretty_N_char (b `mod` 10)) "")).
  now rewrite string_app_assoc.
Qed.

(** The digits of [a * 10^k + b], where [k] is the number of digits of
    [b], are those of [a] followed by those of [b]. *)
Lemma pretty_N_go_concat (b : N) :
  (0 < b)%N →
  ∀ (a : N) (s : string),
    pretty_N_go (a * 10 ^ N.of_nat (String.length (pretty_N_go b "")) + b) s
    = pretty_N_go a (pretty_N_go b s).
Proof.
  induction (N.lt_wf_0 b) as [b _ IH]; intros Hpos a s.
  set (k := String.length (pretty_N_go (b `div` 10)%N "")).
  assert (String.length (pretty_N_go b "") = S k) as Hlen.
  { rewrite (pretty_N_go_step b) by exact Hpos.
    rewrite pretty_N_go_app. unfold k.
    generalize (pretty_N_go (b `div` 10)%N "").
    intros t. induction t as [|c t IHt]; [reflexivity|].
    change (S (String.length (t +:+ String (pretty_N_char (b `mod` 10)) ""))
            = S (S (String.length t))).
    now rewrite IHt. }
  rewrite Hlen.
  assert (10 ^ N.of_nat (S k) = 10 * 10 ^ N.of_nat k)%N as ->.
  { rewrite Nat2N.inj_succ. apply N.pow_succ_r'. }
  pose proof (N.div_mod b 10 ltac:(lia)) as Hb.
  pose proof (N.mod_lt b 10 ltac:(lia)) as Hmod.
  set (x := (a * (10 * 10 ^ N.of_nat k) + b)%N).
  assert (x = 10 * (a * 10 ^ N.of_nat k + b `div` 10) + b `mod` 10)%N as Hx
      by (unfold x; lia).
  assert (x `div` 10 = a * 10 ^ N.of_nat k + b `div` 10)%N as Hdiv
      by (symmetry; apply (N.div_unique x 10 _ (b `mod` 10)%N); assumption).
  assert (x `mod` 10 = b `mod` 10)%N as Hmodx
      by (symmetry;
          apply (N.mod_unique x 10 (a * 10 ^ N.of_nat k + b `div` 10)%N);
          assumption).
  rewrite (pretty_N_go_step x) by (unfold x; lia).
  rewrite (pretty_N_go_step b) by exact Hpos.
  rewrite Hdiv, Hmodx.
  destruct (N.eq_dec (b `div` 10)%N 0%N) as [H0|H0].
  - unfold k. rewrite H0. simpl.
    now rewrite N.mul_1_r, N.add_0_r.
  - apply IH; [apply N.div_lt; lia|lia].
Qed.

Lemma pretty_Z_nonneg (z : Z) : (0 ≤ z)%Z → pretty z = pretty (Z.to_N z).
Proof. intros Hz. destruct z as [|p|p]; [reflexivity|reflexivity|lia]. Qed.

Lemma pretty_N_pos (n : N) : (0 < n)%N → pretty n = pretty_N_go n "".
Proof.
  intros Hn. unfold pretty, pretty_N. destruct (decide (n = 0%N)); [lia|].
  reflexivity.
Qed.

Lemma pretty_digits_then (a b : Z) :
  (1 ≤ a)%Z → (1 ≤ b)%Z →
  pretty (digits_then a b) = pretty a +:+ pretty b.
Proof.
  intros Ha Hb. unfold digits_then.
  assert (0 < 10 ^ Z.of_nat (String.length (pretty b)))%Z as Hpow
      by (apply Z.pow_pos_nonneg; lia).
  rewrite (pretty_Z_nonneg a), (pretty_Z_nonneg b) by lia.
  rewrite pretty_Z_nonneg by nia.
  rewrite (pretty_N_pos (Z.to_N a)), (pretty_N_pos (Z.to_N b)) by lia.
  rewrite pretty_N_pos by nia.
  rewrite <- pretty_N_go_app, <- pretty_N_go_concat by lia.
  f_equal.
  rewrite Z2N.inj_add, Z2N.inj_mul, Z2N.inj_pow by lia.
  now rewrite <- nat_N_Z, N2Z.id.
Qed.

(** X24: the key of an edge does not depend on the order of its end
    points, and two edges whose smaller end points have equally many
    digits (as all have in a mesh of at most ten nodes) have the same key
    only if they are the same edge. *)
Theorem hashEdge_spec :
  (∀ a b, mesh.hashEdge a b = mesh.hashEdge b a) ∧
  (∀ a b c d,
     (a ≤ b)%Z → (c ≤ d)%Z →
     String.length (pretty a) = String.length (pretty c) →
     mesh.hashEdge a b = mesh.hashEdge c d → a = c ∧ b = d).
Proof.
  split.
  - intros a b. unfold mesh.hashEdge. now rewrite Z.min_comm, Z.max_comm.
  - intros a b c d Hab Hcd Hlen. unfold mesh.hashEdge.
    rewrite !Z.min_l, !Z.max_r by assumption. intros Heq.
    destruct (string_app_inj_length _ _ _ _ Hlen Heq) as [Ha Hb].
    split; now apply (inj pretty).
Qed.

(** X25: the key is not injective: the digits of the two end points are
    concatenated without a separator, so for numbers [u], [q] at least 1
    and [r] above the number written [u q], the edge from [u] to the
    number written [q r] and the edge from the number written [u q] to
    [r] are different edges with the same key.  In [subdivideQ4] the
    mid-points of two such edges are filed under one key. *)
Theorem hashEdge_collision (u q r : Z) :
  (1 ≤ u)%Z → (1 ≤ q)%Z → (digits_then u q < r)%Z →
  mesh.hashEdge u (digits_then q r) = mesh.hashEdge (digits_then u q) r ∧
  u ≠ digits_then u q ∧ u ≠ r.
Proof.
  intros Hu Hq Hr.
  assert (∀ b : Z, 0 < 10 ^ Z.of_nat (String.length (pretty b)))%Z as Hpow
      by (intros b; apply Z.pow_pos_nonneg; lia).
  assert (u < digits_then u q)%Z as H1.
  { unfold digits_then. specialize (Hpow q). nia. }
  assert (r ≤ digits_then q r)%Z as H2.
  { unfold digits_then. specialize (Hpow r). nia. }
  split; [|lia].
  unfold mesh.hashEdge.
  rewrite !Z.min_l, !Z.max_r by lia.
  rewrite !pretty_digits_then by lia.
  now rewrite string_app_assoc.
Qed.

Lemma hashEdge_collision_witness :
  mesh.hashEdge 1 (digits_then 1 12) = mesh.hashEdge (digits_then 1 1) 12 ∧
  1%Z ≠ digits_then 1 1 ∧ 1%Z ≠ 12%Z.
Proof.
  apply (hashEdge_collision 1 1 12); [lia|lia|].
  vm_compute. reflexivity.
Defined.

Example hashEdge_1_112 :
  digits_then 1 12 = 112%Z ∧ digits_then 1 1 = 11%Z ∧
  mesh.hashEdge 1 112 = "1112" ∧ mesh.hashEdge 11 12 = "1112".
Proof. vm_compute. auto. Qed.

Lemma hashEdge_spec_witness :
  mesh.hashEdge 7 3 = mesh.hashEdge 3 7 ∧
  (mesh.hashEdge 3 7 = mesh.hashEdge 3 7 → 3%Z = 3%Z ∧ 7%Z = 7%Z).
Proof.
  split.
  - apply (proj1 hashEdge_spec).
  - apply (proj2 hashEdge_spec 3 7 3 7)%Z; [lia|lia|reflexivity].
Defined.

(** ** Binary operations with a number or an array *)

Section BopScalar.
Context {T : Type} {N : Num T}.

(** The field [_bop] returns when the second operand of [bopFn] at
    component [j] is [ys j], whatever the node. *)
Lemma bop_columns_ok (f : Field T) (bopFn : T → option T → T)
    (ys : nat → option T) :
  ∃ out,
    Field.map (fun vec _ => Field.map_vec bopFn (fun j => Ok (ys j)) 0 vec) f
    = Ok {| _values := PointSet.of_matrix out;
            _prescribed := None; _prescribedValues := None;
            _eqnums := None; _neqns := (-1)%Z |} ∧
    length out = Field.nfens f ∧
    ∀ d x, ps_entry (_values f) d = Some x →
           (out !! d.1 ≫= fun v => v !! d.2) = Some (bopFn x (ys d.2)).
Proof.
  destruct (map_spec
              (fun vec (_ : nat) =>
                 Field.map_vec bopFn (fun j => Ok (ys j)) 0 vec)
              (fun (_ : nat) v v' =>
                 ∀ j x, v !! j = Some x → v' !! j = Some (bopFn x (ys j)))
              f) as (out & Hout & Hlen & Hent).
  { intros k v Hk.
    destruct (map_vec_spec bopFn (fun j => Ok (ys j)) ys v 0)
      as (v' & Hv' & _ & Hent'); [reflexivity|].
    exists v'. split; [exact Hv'|]. exact Hent'. }
  exists out. split; [exact Hout|]. split; [exact Hlen|].
  unfold vector, matrix in *.
  intros [i j] x Hx. unfold ps_entry in Hx. simpl in *.
  destruct (ps_points (_values f) !! i) as [v|] eqn:Hv; [|discriminate].
  destruct (Hent i v Hv) as (v' & -> & Hent'). simpl in *.
  now apply Hent'.
Qed.
End BopScalar.

(** X26: a binary operation with a number succeeds exactly when
    [check.number] holds of it, that is when it is neither NaN nor
    infinite, and one with an array succeeds exactly when the array has
    as many entries as the field has components; any other operand is
    refused.  The result is a fresh field without prescribed tables or
    numbering, whose entries are [bopFn] of the entry of [this] and the
    number, respectively the entry of the array at the component. *)
Theorem bop_number_or_array {T : Type} {N : Num T}
    (f : Field T) (bopFn : T → option T → T) (c : T) (a : list T) :
  (num_is_number c = true →
   ∃ f',
     Field.bop (Field.other_number c) bopFn f = Ok f' ∧
     _prescribed f' = None ∧ _prescribedValues f' = None ∧
     _eqnums f' = None ∧ Field.nfens f' = Field.nfens f ∧
     ∀ d x, ps_entry (_values f) d = Some x →
            ps_entry (_values f') d = Some (bopFn x (Some c))) ∧
  (num_is_number c = false →
   Field.bop (Field.other_number c) bopFn f = Err InvalidInputError) ∧
  (length a = Field.dim f →
   ∃ f',
     Field.bop (Field.other_array a) bopFn f = Ok f' ∧
     _prescribed f' = None ∧ _prescribedValues f' = None ∧
     _eqnums f' = None ∧ Field.nfens f' = Field.nfens f ∧
     ∀ d x, ps_entry (_values f) d = Some x →
            ps_entry (_values f') d = Some (bopFn x (a !! d.2))) ∧
  (length a ≠ Field.dim f →
   Field.bop (Field.other_array a) bopFn f = Err InvalidInputError) ∧
  Field.bop Field.other_value bopFn f = Err InvalidInputError.
Proof.
  split; [|split; [|split; [|split]]].
  - intros Hc.
    destruct (bop_columns_ok f bopFn (fun _ => Some c))
      as (out & Hout & Hlen & Hent).
    eexists. split.
    + unfold Field.bop, Field._bop. rewrite Hc. exact Hout.
    + simpl. split; [reflexivity|]. split; [reflexivity|].
      split; [reflexivity|]. split; [exact Hlen|exact Hent].
  - intros Hc. unfold Field.bop, Field._bop. now rewrite Hc.
  - intros Ha.
    destruct (bop_columns_ok f bopFn (fun j => a !! j))
      as (out & Hout & Hlen & Hent).
    eexists. split.
    + unfold Field.bop, Field._bop. rewrite Ha, Nat.eqb_refl. exact Hout.
    + simpl. split; [reflexivity|]. split; [reflexivity|].
      split; [reflexivity|]. split; [exact Hlen|exact Hent].
  - intros Ha. unfold Field.bop, Field._bop.
    destruct (Nat.eqb_spec (length a) (Field.dim f)); [contradiction|].
    reflexivity.
  - reflexivity.
Qed.

Lemma bop_number_or_array_witness :
  (∃ f',
     Field.bop (Field.other_number 3%float)
               (fun x y => nmul x (to_number y)) two_node_field = Ok f' ∧
     _prescribed f' = None ∧ _prescribedValues f' = None ∧
     _eqnums f' = None ∧ Field.nfens f' = Field.nfens two_node_field ∧
     ∀ d x, ps_entry (_values two_node_field) d = Some x →
            ps_entry (_values f') d
            = Some (nmul x (to_number (Some 3%float)))) ∧
  Field.bop (Field.other_number nan)
            (fun x y => nmul x (to_number y)) two_node_field
  = Err InvalidInputError ∧
  Field.bop (Field.other_number infinity)
            (fun x y => nmul x (to_number y)) two_node_field
  = Err InvalidInputError ∧
  ∃ f',
    Field.bop (Field.other_array [10; 20]%float)
              (fun x y => nmul x (to_number y)) two_node_field = Ok f' ∧
    _prescribed f' = None ∧ _prescribedValues f' = None ∧
    _eqnums f' = None ∧ Field.nfens f' = Field.nfens two_node_field ∧
    ∀ d x, ps_entry (_values two_node_field) d = Some x →
           ps_entry (_values f') d
           = Some (nmul x (to_number ([10; 20]%float !! d.2))).
Proof.
  split; [|split; [|split]].
  - apply (proj1 (bop_number_or_array two_node_field
                    (fun x y => nmul x (to_number y)) 3%float [])).
    reflexivity.
  - apply (proj1 (proj2 (bop_number_or_array two_node_field
                           (fun x y => nmul x (to_number y)) nan []))).
    reflexivity.
  - apply (proj1 (proj2 (bop_number_or_array two_node_field
                           (fun x y => nmul x (to_number y)) infinity []))).
    reflexivity.
  - apply (proj1 (proj2 (proj2 (bop_number_or_array two_node_field
                                  (fun x y => nmul x (to_number y)) 0%float
                                  [10; 20]%float)))).
    reflexivity.
Defined.

Example two_node_field_mul :
  (f' ← Field.mul (Field.other_array [10; 20]%float) two_node_field;
   Ok (Field.values f'))
  = Ok [[10; 150]; [-20; 80]]%float.
Proof. vm_compute. reflexivity. Qed.

(** ** Subdivision of quads *)

Lemma centers_map_notin (cs : list mesh.EdgeCenter)
    (acc : gmap string mesh.EdgeCenter) (key : string) :
  key ∉ mesh.center_key <$> cs →
  fold_left (fun sofar obj => <[mesh.center_key obj := obj]> sofar) cs acc
    !! key = acc !! key.
Proof.
  revert acc. induction cs as [|c cs IH]; intros acc Hnot; [reflexivity|].
  rewrite fmap_cons in Hnot. apply not_elem_of_cons in Hnot as [Hne Hnot].
  simpl. rewrite IH by exact Hnot. now apply lookup_insert_ne.
Qed.

(** The map of the mid-points holds, under a key, the last entry of that
    key. *)
Lemma centers_map_last (cs : list mesh.EdgeCenter) (k : nat)
    (c : mesh.EdgeCenter) :
  cs !! k = Some c →
  (∀ k' c', k < k' → cs !! k' = Some c' →
            mesh.center_key c' ≠ mesh.center_key c) →
  mesh.l2CellCentersMap cs !! mesh.center_key c = Some c.
Proof.
  intros Hk Hlater. unfold mesh.l2CellCentersMap.
  rewrite <- (take_drop_middle cs k c Hk), fold_left_app. simpl.
  rewrite centers_map_notin; [apply lookup_insert_eq|].
  intros Hin. apply list_elem_of_fmap in Hin as (c' & Hkey & Hin).
  apply list_elem_of_lookup in Hin as [j Hj].
  rewrite lookup_drop in Hj.
  apply (Hlater (S k + j) c'); [lia|exact Hj|now symmetry].
Qed.

Lemma l2CellCenters_lookup (first : Z) (l2Cells : list (list Z))
    (k : nat) (e : list Z) :
  l2Cells !! k = Some e →
  mesh.l2CellCenters first l2Cells !! k
  = Some {| mesh.center_key := mesh.hashEdge_read (e !! 0) (e !! 1);
            mesh.center_index := first + Z.of_nat k |}.
Proof.
  intros Hk. unfold mesh.l2CellCenters.
  now rewrite list_lookup_imap, Hk.
Qed.

(** X27: the node [subdivideQ4] puts in the middle of a side from [a] to
    [b] of a quad is the mid-point of the last edge of [l2Cells] whose
    key is [hashEdge(a, b)], whichever edge that is: when two different
    edges have the same key, the sides along the earlier edge are
    connected to the mid-point of the later one. *)
Theorem mid_index_last_edge
    (first : Z) (l2Cells : list (list Z)) (a b : Z) (k : nat) (e : list Z) :
  l2Cells !! k = Some e →
  mesh.hashEdge_read (e !! 0) (e !! 1) = mesh.hashEdge a b →
  (∀ k' e', k < k' → l2Cells !! k' = Some e' →
            mesh.hashEdge_read (e' !! 0) (e' !! 1) ≠ mesh.hashEdge a b) →
  mesh.mid_index (mesh.l2CellCentersMap (mesh.l2CellCenters first l2Cells))
                 (mesh.hashEdge_read (Some a) (Some b))
  = Ok (first + Z.of_nat k)%Z.
Proof.
  intros Hk Hkey Hlater. unfold mesh.mid_index. simpl.
  pose proof (l2CellCenters_lookup first l2Cells k e Hk) as Hc.
  pose proof (centers_map_last _ k _ Hc) as Hlast. simpl in Hlast.
  rewrite Hkey in Hlast. rewrite Hlast; [reflexivity|].
  intros k' c' Hlt Hc'.
  destruct (l2Cells !! k') as [e'|] eqn:He'.
  - rewrite (l2CellCenters_lookup first l2Cells k' e' He') in Hc'.
    injection Hc' as <-. simpl. now apply (Hlater k' e').
  - unfold mesh.l2CellCenters in Hc'.
    rewrite list_lookup_imap, He' in Hc'. discriminate.
Qed.

Lemma mid_index_last_edge_witness :
  mesh.mid_index
    (mesh.l2CellCentersMap
       (mesh.l2CellCenters 119
          [[1; 112]; [112; 113]; [113; 114]; [114; 1];
           [11; 12]; [12; 115]; [115; 116]; [116; 11]]%Z))
    (mesh.hashEdge_read (Some 1%Z) (Some 112%Z))
  = Ok (119 + Z.of_nat 4)%Z.
Proof.
  apply (mid_index_last_edge 119 _ 1 112 4 [11; 12]%Z).
  - reflexivity.
  - vm_compute. reflexivity.
  - intros k' e' Hlt He'.
    destruct k' as [|[|[|[|[|[|[|[|k']]]]]]]]; try lia;
      simpl in He'; try discriminate;
      injection He' as <-; vm_compute; discriminate.
Defined.

(** With pairwise different keys, the mid-point of a side is the one of
    its edge. *)
Lemma side_mid_index (first : Z) (l2Cells : list (list Z))
    (a b : Z) (k : nat) :
  NoDup (mesh.center_key <$> mesh.l2CellCenters first l2Cells) →
  edge_position l2Cells a b = Some k →
  mesh.mid_index (mesh.l2CellCentersMap (mesh.l2CellCenters first l2Cells))
                 (mesh.hashEdge_read (Some a) (Some b))
  = Ok (first + Z.of_nat k)%Z.
Proof.
  unfold edge_position. intros Hkeys Hpos.
  destruct (list_find _ l2Cells) as [[k0 e]|] eqn:Hfind; [|discriminate].
  injection Hpos as ->.
  apply list_find_Some in Hfind as (Hk & He & _).
  unfold mesh.mid_index. simpl.
  pose proof (l2CellCenters_lookup first l2Cells k e Hk) as Hc.
  assert (mesh.hashEdge_read (e !! 0) (e !! 1) = mesh.hashEdge a b) as Hkey.
  { destruct He as [->| ->]; simpl; [reflexivity|].
    unfold mesh.hashEdge. now rewrite Z.min_comm, Z.max_comm. }
  pose proof (centers_map_last _ k _ Hc) as Hlast. simpl in Hlast.
  rewrite Hkey in Hlast. rewrite Hlast; [reflexivity|].
  intros k' c' Hlt Hc' Heq.
  assert (k' = k); [|lia].
  apply (NoDup_lookup _ k' k (mesh.hashEdge a b) Hkeys).
  - now rewrite list_lookup_fmap, Hc', <- Heq.
  - now rewrite list_lookup_fmap, Hc, <- Hkey.
Qed.

(** The four cells a quad is divided into. *)
Lemma subdivide_cell_ok (N first : Z) (l2Cells : list (list Z))
    (i : nat) (a b c d : Z) (kab kbc kcd kda : nat) :
  NoDup (mesh.center_key <$> mesh.l2CellCenters first l2Cells) →
  edge_position l2Cells a b = Some kab →
  edge_position l2Cells b c = Some kbc →
  edge_position l2Cells c d = Some kcd →
  edge_position l2Cells d a = Some kda →
  mesh.subdivide_cell N
    (mesh.l2CellCentersMap (mesh.l2CellCenters first l2Cells)) i [a; b; c; d]
  = Ok [ [Some a; Some (first + Z.of_nat kab); Some (N + Z.of_nat i);
          Some (first + Z.of_nat kda)];
         [Some (first + Z.of_nat kda); Some (N + Z.of_nat i);
          Some (first + Z.of_nat kcd); Some d];
         [Some (first + Z.of_nat kab); Some b; Some (first + Z.of_nat kbc);
          Some (N + Z.of_nat i)];
         [Some (N + Z.of_nat i); Some (first + Z.of_nat kbc); Some c;
          Some (first + Z.of_nat kcd)] ]%Z.
Proof.
  intros Hkeys Hab Hbc Hcd Hda.
  unfold mesh.subdivide_cell. cbn [lookup list_lookup].
  rewrite (side_mid_index first l2Cells a b kab Hkeys Hab).
  cbn [mbind result_bind].
  rewrite (side_mid_index first l2Cells b c kbc Hkeys Hbc).
  cbn [mbind result_bind].
  rewrite (side_mid_index first l2Cells c d kcd Hkeys Hcd).
  cbn [mbind result_bind].
  rewrite (side_mid_index first l2Cells d a kda Hkeys Hda). reflexivity.
Qed.

(** X28: when every quad has its four sides among the edges of
    [l2Cells] and the keys of the edges are pairwise different, the
    connectivity [subdivideQ4] computes has four cells per quad: with
    [m(x, y)] the index [N + nq + k] of the mid-point of the edge at
    position [k] between [x] and [y], and [o = N + i] the index of the
    center, quad [i] with nodes [a b c d] gives the cells
    [a m(a,b) o m(d,a)], [m(d,a) o m(c,d) d], [m(a,b) b m(b,c) o] and
    [o m(b,c) c m(c,d)] at positions [4i .. 4i + 3]. *)
Theorem newConn_spec (N : Z) (q4Cells l2Cells : list (list Z)) :
  let first := (N + Z.of_nat (length q4Cells))%Z in
  NoDup (mesh.center_key <$> mesh.l2CellCenters first l2Cells) →
  Forall (sides_present l2Cells) q4Cells →
  ∃ rows,
    mesh.newConn N q4Cells l2Cells = Ok rows ∧
    length rows = 4 * length q4Cells ∧
    ∀ i a b c d kab kbc kcd kda,
      q4Cells !! i = Some [a; b; c; d] →
      edge_position l2Cells a b = Some kab →
      edge_position l2Cells b c = Some kbc →
      edge_position l2Cells c d = Some kcd →
      edge_position l2Cells d a = Some kda →
      rows !! (4 * i)
      = Some [Some a; Some (first + Z.of_nat kab); Some (N + Z.of_nat i);
              Some (first + Z.of_nat kda)]%Z ∧
      rows !! (4 * i + 1)
      = Some [Some (first + Z.of_nat kda); Some (N + Z.of_nat i);
              Some (first + Z.of_nat kcd); Some d]%Z ∧
      rows !! (4 * i + 2)
      = Some [Some (first + Z.of_nat kab); Some b;
              Some (first + Z.of_nat kbc); Some (N + Z.of_nat i)]%Z ∧
      rows !! (4 * i + 3)
      = Some [Some (N + Z.of_nat i); Some (first + Z.of_nat kbc); Some c;
              Some (first + Z.of_nat kcd)]%Z.
Proof.
  intros first Hkeys Hsides.
  set (m := mesh.l2CellCentersMap (mesh.l2CellCenters first l2Cells)).
  set (G := fun q : nat * list Z =>
              match mesh.subdivide_cell N m q.1 q.2 with
              | Ok rows => rows
              | Err _ => []
              end).
  assert (∀ i cell, q4Cells !! i = Some cell →
            ∃ a b c d kab kbc kcd kda,
              cell = [a; b; c; d] ∧
              edge_position l2Cells a b = Some kab ∧
              edge_position l2Cells b c = Some kbc ∧
              edge_position l2Cells c d = Some kcd ∧
              edge_position l2Cells d a = Some kda ∧
              mesh.subdivide_cell N m i cell
              = Ok [ [Some a; Some (first + Z.of_nat kab);
                      Some (N + Z.of_nat i); Some (first + Z.of_nat kda)];
                     [Some (first + Z.of_nat kda); Some (N + Z.of_nat i);
                      Some (first + Z.of_nat kcd); Some d];
                     [Some (first + Z.of_nat kab); Some b;
                      Some (first + Z.of_nat kbc); Some (N + Z.of_nat i)];
                     [Some (N + Z.of_nat i); Some (first + Z.of_nat kbc);
                      Some c; Some (first + Z.of_nat kcd)] ]%Z) as Hcell.
  { intros i cell Hi.
    rewrite Forall_lookup in Hsides. specialize (Hsides i cell Hi).
    destruct cell as [|a [|b [|c [|d [|? ?]]]]]; try contradiction.
    destruct Hsides as ([kab Hab] & [kbc Hbc] & [kcd Hcd] & [kda Hda]).
    exists a, b, c, d, kab, kbc, kcd, kda.
    split; [reflexivity|]. do 4 (split; [assumption|]).
    now apply subdivide_cell_ok. }
  assert (∀ q, q ∈ imap (fun i cell => (i, cell)) q4Cells →
               q4Cells !! q.1 = Some q.2) as Hq.
  { intros [i cell] Hin. apply list_elem_of_lookup in Hin as [j Hj].
    rewrite list_lookup_imap in Hj.
    destruct (q4Cells !! j) as [cell'|] eqn:Hcell'; [|discriminate].
    injection Hj as <- <-. exact Hcell'. }
  assert (∀ q, q ∈ imap (fun i cell => (i, cell)) q4Cells → length (G q) = 4)
    as HlenG.
  { intros q Hin. unfold G.
    destruct (Hcell q.1 q.2 (Hq q Hin))
      as (a & b & c & d & kab & kbc & kcd & kda & _ & _ & _ & _ & _ & ->).
    reflexivity. }
  exists (imap (fun i cell => (i, cell)) q4Cells ≫= G). split; [|split].
  - unfold mesh.newConn. cbv zeta. fold first. fold m.
    rewrite (for_list_append _ G); [reflexivity|].
    intros q Hin vec. unfold G.
    destruct (Hcell q.1 q.2 (Hq q Hin))
      as (a & b & c & d & kab & kbc & kcd & kda & _ & _ & _ & _ & _ & ->).
    reflexivity.
  - rewrite (length_bind_fixed G 4) by exact HlenG.
    rewrite length_imap. lia.
  - intros i a b c d kab kbc kcd kda Hi Hab Hbc Hcd Hda.
    assert (imap (fun i cell => (i, cell)) q4Cells !! i = Some (i, [a; b; c; d]))
      as Hpair by (now rewrite list_lookup_imap, Hi).
    assert (G (i, [a; b; c; d])
            = [ [Some a; Some (first + Z.of_nat kab);
                 Some (N + Z.of_nat i); Some (first + Z.of_nat kda)];
                [Some (first + Z.of_nat kda); Some (N + Z.of_nat i);
                 Some (first + Z.of_nat kcd); Some d];
                [Some (first + Z.of_nat kab); Some b;
                 Some (first + Z.of_nat kbc); Some (N + Z.of_nat i)];
                [Some (N + Z.of_nat i); Some (first + Z.of_nat kbc);
                 Some c; Some (first + Z.of_nat kcd)] ]%Z) as HG.
    { unfold G, m. cbn [fst snd].
      now rewrite (subdivide_cell_ok N first l2Cells i a b c d
                     kab kbc kcd kda Hkeys Hab Hbc Hcd Hda). }
    replace (4 * i) with (i * 4 + 0) by lia.
    replace (i * 4 + 0 + 1) with (i * 4 + 1) by lia.
    replace (i * 4 + 0 + 2) with (i * 4 + 2) by lia.
    replace (i * 4 + 0 + 3) with (i * 4 + 3) by lia.
    rewrite !(lookup_bind_fixed G 4 _ i _ (i, [a; b; c; d]) HlenG Hpair)
      by lia.
    rewrite HG. auto.
Qed.

Lemma newConn_spec_witness :
  let q4Cells := GCellSet.conn three_quads in
  let l2Cells := GCellSet.edges three_quads in
  ∃ rows,
    mesh.newConn 8 q4Cells l2Cells = Ok rows ∧
    length rows = 4 * 3 ∧
    ∀ i a b c d kab kbc kcd kda,
      q4Cells !! i = Some [a; b; c; d] →
      edge_position l2Cells a b = Some kab →
      edge_position l2Cells b c = Some kbc →
      edge_position l2Cells c d = Some kcd →
      edge_position l2Cells d a = Some kda →
      rows !! (4 * i)
      = Some [Some a; Some (11 + Z.of_nat kab); Some (8 + Z.of_nat i);
              Some (11 + Z.of_nat kda)]%Z ∧
      rows !! (4 * i + 1)
      = Some [Some (11 + Z.of_nat kda); Some (8 + Z.of_nat i);
              Some (11 + Z.of_nat kcd); Some d]%Z ∧
      rows !! (4 * i + 2)
      = Some [Some (11 + Z.of_nat kab); Some b;
              Some (11 + Z.of_nat kbc); Some (8 + Z.of_nat i)]%Z ∧
      rows !! (4 * i + 3)
      = Some [Some (8 + Z.of_nat i); Some (11 + Z.of_nat kbc); Some c;
              Some (11 + Z.of_nat kcd)]%Z.
Proof.
  intros q4Cells l2Cells.
  apply (newConn_spec 8 q4Cells l2Cells).
  - apply (bool_decide_unpack _). vm_compute. exact I.
  - repeat constructor; vm_compute; eauto.
Defined.

Example three_quads_newConn :
  mesh.newConn 8 (GCellSet.conn three_quads) (GCellSet.edges three_quads)
  = Ok [ [Some 0; Some 11; Some 8; Some 14]; [Some 14; Some 8; Some 13; Some 3];
         [Some 11; Some 1; Some 12; Some 8]; [Some 8; Some 12; Some 2; Some 13];
         [Some 3; Some 13; Some 9; Some 17]; [Some 17; Some 9; Some 16; Some 5];
         [Some 13; Some 2; Some 15; Some 9]; [Some 9; Some 15; Some 4; Some 16];
         [Some 3; Some 17; Some 10; Some 20];
         [Some 20; Some 10; Some 19; Some 7];
         [Some 17; Some 5; Some 18; Some 10];
         [Some 10; Some 18; Some 6; Some 19] ]%Z.
Proof. vm_compute. reflexivity. Qed.
